(** * Policy evaluation, policy improvement, policy iteration and value
      iteration on finite MDPs

    A shallow embedding of the notebook [Solving_MDPs_with_PI_and_VI.ipynb]:
    the four solvers [policy_evaluation], [policy_improvement],
    [policy_iteration] and [value_iteration], the helper
    [policy_constructor], and the example environment
    [slippery_bandit_walk].

    Modelling decisions.
    - Numbers.  The notebook computes with numpy [float64].  The module
      [Float64] is the program over binary64 floats, with the IEEE 754
      operations of the primitive floats: rounding, overflow to an
      infinity and NaN are part of it.  What depends on the numbers that
      the program computes (the arrays it returns, the convergence tests it
      passes, the maxima it picks) is stated and proved about [Float64].
      The definitions outside the module are the same program over exact
      rationals ([Qc], rationals in lowest terms, with Leibniz equality).
      They carry what holds whatever the arithmetic is: the frame, the
      control flow of the loops, the exceptions, the key sets of the
      policies; and the two scenarios, whose numbers binary64 either
      represents exactly or is asked for up to a tolerance (the walk is run
      in [Float64] as well).
    - Containers.  The MDP and the policies are Python dictionaries keyed by
      non-negative integers: [gmap nat _].  One-dimensional numpy arrays are
      lists, updated in place with list insert; the two-dimensional [Q_vals]
      array carries its number of columns, as a numpy shape does.
    - Effects.  The MDP is an object shared with the caller, so it lives in a
      store that every computation threads ([M]).  Python exceptions are the
      [Raise] results; they leave the store as it is at the raise.
    - Loops.  [while True] is modelled with fuel: the fuel bounds the number
      of times the loop body may run, and a loop that needs more returns
      [OutOfFuel].  [policy_iteration] gives the same bound to its own loop
      and to every call of [policy_evaluation].
    - Randomness.  The generator behind
      [np.random.randint(0, action_space, size=state_space)] is an input of
      [policy_iteration]: a function [rng] whose [i]-th raw draw is reduced
      modulo [action_space], so every array of in-range actions is a
      possible draw and no other is. *)

From Stdlib Require Import QArith Qabs Qcanon Qcabs Lia Floats.
From stdpp Require Import gmap list fin_maps numbers.

Local Open Scope Qc_scope.
Local Open Scope list_scope.

(** ** Results, exceptions and the store monad *)

Inductive exn : Type := KeyError | IndexError | ValueError.

Inductive result (A : Type) : Type :=
| Ok (a : A)
| Raise (e : exn)
| OutOfFuel.
Arguments Ok {A} a.
Arguments Raise {A} e.
Arguments OutOfFuel {A}.

Definition rbind {A B} (r : result A) (k : A -> result B) : result B :=
  match r with
  | Ok a => k a
  | Raise e => Raise e
  | OutOfFuel => OutOfFuel
  end.

Notation "'let?' x ':=' c 'in' k" := (rbind c (fun x => k))
  (at level 10, x name, c at level 100, k at level 200).

(** One outcome of a state-action pair, the 4-tuple
    [(transition_probability, state_prime, reward, done)]. *)
Record outcome : Type := Outcome {
  transition_probability : Qc;
  state_prime : Z;
  reward : Qc;
  done : bool
}.

Abbreviation actions := (gmap nat (list outcome)).
Abbreviation MDP := (gmap nat (gmap nat (list outcome))).
Abbreviation policy := (gmap nat nat).

(** A computation reads and may write the caller's MDP object. *)
Definition M (A : Type) : Type := MDP -> result A * MDP.

Definition ret {A} (a : A) : M A := fun mdp => (Ok a, mdp).

Definition bind {A B} (c : M A) (k : A -> M B) : M B :=
  fun mdp =>
    match c mdp with
    | (Ok a, mdp') => k a mdp'
    | (Raise e, mdp') => (Raise e, mdp')
    | (OutOfFuel, mdp') => (OutOfFuel, mdp')
    end.

Notation "'let*' x ':=' c 'in' k" := (bind c (fun x => k))
  (at level 10, x name, c at level 100, k at level 200).

Definition lift {A} (r : result A) : M A := fun mdp => (r, mdp).

(** [len(mdp)] *)
Definition mdp_len : M nat := fun mdp => (Ok (size mdp), mdp).

(** [mdp[state]] *)
Definition mdp_getitem (state : nat) : M actions :=
  fun mdp =>
    match mdp !! state with
    | Some acts => (Ok acts, mdp)
    | None => (Raise KeyError, mdp)
    end.

(** [mdp[state] = acts].  No solver uses this operation; it is stated to
    show what a write to the store is. *)
Definition mdp_setitem (state : nat) (acts : actions) : M unit :=
  fun mdp => (Ok tt, <[state := acts]> mdp).

(** [d[k]] on a dictionary that is a value of the computation. *)
Definition dict_getitem {V} (d : gmap nat V) (k : nat) : result V :=
  match d !! k with
  | Some v => Ok v
  | None => Raise KeyError
  end.

(** [for x in xs: s = body x s] *)
Fixpoint for_each {A S} (xs : list A) (body : A -> S -> M S) (s : S) : M S :=
  match xs with
  | [] => ret s
  | x :: xs' => let* s' := body x s in for_each xs' body s'
  end.

Fixpoint rfold {A S} (xs : list A) (body : A -> S -> result S) (s : S)
  : result S :=
  match xs with
  | [] => Ok s
  | x :: xs' => let? s' := body x s in rfold xs' body s'
  end.

(** [range(n)] *)
Definition range (n : nat) : list nat := seq 0 n.

(** ** numpy *)

(** [not done] as a factor: [True] is 1 and [False] is 0. *)
Definition of_bool (b : bool) : Qc := if b then 1 else 0.

Definition Qcltb (x y : Qc) : bool :=
  (Qnum x * QDen y <? Qnum y * QDen x)%Z.

(** [np.zeros(n)] *)
Definition np_zeros (n : nat) : list Qc := replicate n 0.

(** [a[i]] for a Python integer [i]: a negative index counts from the end,
    an index out of [-len(a) .. len(a)-1] raises [IndexError]. *)
Definition np_getitem {A} (a : list A) (i : Z) : result A :=
  let j := if (0 <=? i)%Z then i else (Z.of_nat (length a) + i)%Z in
  if (j <? 0)%Z then Raise IndexError
  else match a !! Z.to_nat j with
       | Some x => Ok x
       | None => Raise IndexError
       end.

(** [a[i]] for [i] drawn from a [range]. *)
Definition arr_getitem {A} (a : list A) (i : nat) : result A :=
  match a !! i with
  | Some x => Ok x
  | None => Raise IndexError
  end.

(** [a - b] on arrays of one shape, and [np.absolute]. *)
Definition np_sub (a b : list Qc) : list Qc := zip_with Qcminus a b.
Definition np_absolute (a : list Qc) : list Qc := Qcabs <$> a.

Definition Qcmax (x y : Qc) : Qc := if Qcltb x y then y else x.

(** [np.max(a)]: the reduction has no identity, an empty array raises. *)
Definition np_max (a : list Qc) : result Qc :=
  match a with
  | [] => Raise ValueError
  | x :: a' => Ok (foldl Qcmax x a')
  end.

(** The first-maximum scan of [np.argmax]: [best] is replaced only by a
    strictly larger entry, so the lowest index of a maximum is kept. *)
Fixpoint argmax_scan (best : Qc) (best_i i : nat) (a : list Qc) : nat :=
  match a with
  | [] => best_i
  | x :: a' =>
      if Qcltb best x then argmax_scan x i (S i) a'
      else argmax_scan best best_i (S i) a'
  end.

Definition np_argmax (a : list Qc) : result nat :=
  match a with
  | [] => Raise ValueError
  | x :: a' => Ok (argmax_scan x 0 1 a')
  end.

(** A two-dimensional array: [ncols] is [shape[1]], [rows] has [shape[0]]
    rows of [ncols] entries each. *)
Record ndarray2 : Type := Ndarray2 { ncols : nat; rows : list (list Qc) }.

(** [np.zeros((n, m))] *)
Definition np_zeros2 (n m : nat) : ndarray2 :=
  Ndarray2 m (replicate n (np_zeros m)).

Fixpoint rmap {A B} (f : A -> result B) (xs : list A) : result (list B) :=
  match xs with
  | [] => Ok []
  | x :: xs' => let? y := f x in let? ys := rmap f xs' in Ok (y :: ys)
  end.

(** [np.max(Q, axis=1)] and [np.argmax(Q, axis=1)]: a reduction along an
    axis of length 0 raises [ValueError]. *)
Definition np_max_axis1 (Q : ndarray2) : result (list Qc) :=
  if (ncols Q =? 0)%nat then Raise ValueError else rmap np_max (rows Q).

Definition np_argmax_axis1 (Q : ndarray2) : result (list nat) :=
  if (ncols Q =? 0)%nat then Raise ValueError else rmap np_argmax (rows Q).

(** [{k: v for k, v in enumerate(a)}] *)
Definition enumerate {A} (a : list A) : list (nat * A) :=
  zip (seq 0 (length a)) a.

Definition dict_of_pairs {V} (kvs : list (nat * V)) : gmap nat V :=
  foldl (fun d kv => <[kv.1 := kv.2]> d) ∅ kvs.

(** ** The solvers *)

(** The increment of one outcome:
    [transition_probability * (reward + gamma * values[state_prime] * (not done))]. *)
Definition backup_term (gamma : Qc) (values : list Qc) (o : outcome)
  : result Qc :=
  let? v := np_getitem values (state_prime o) in
  Ok (transition_probability o
      * (reward o + gamma * v * of_bool (negb (done o)))).

Section PolicyEvaluation.
Variables (pi : policy) (gamma theta : Qc).

(** [current_values[state] += ...] for one outcome. *)
Definition pe_accumulate (state_values : list Qc) (state : nat)
    (o : outcome) (current_values : list Qc) : result (list Qc) :=
  let? c := arr_getitem current_values state in
  let? x := backup_term gamma state_values o in
  Ok (<[state := c + x]> current_values).

(** The body of [for state in range(state_space)]. *)
Definition pe_state (state_values : list Qc) (state : nat)
    (current_values : list Qc) : M (list Qc) :=
  let* acts := mdp_getitem state in
  let* a := lift (dict_getitem pi state) in
  let* outs := lift (dict_getitem acts a) in
  lift (rfold outs (pe_accumulate state_values state) current_values).

(** One pass of the [while] body up to the convergence test. *)
Definition pe_sweep (state_space : nat) (state_values : list Qc)
  : M (list Qc) :=
  for_each (range state_space) (pe_state state_values)
           (np_zeros state_space).

Fixpoint pe_loop (fuel state_space : nat) (state_values : list Qc)
  : M (list Qc) :=
  match fuel with
  | O => lift OutOfFuel
  | S fuel' =>
      let* current_values := pe_sweep state_space state_values in
      let* delta := lift (np_max (np_absolute
                               (np_sub state_values current_values))) in
      if Qcltb delta theta then ret current_values
      else pe_loop fuel' state_space current_values
  end.

Definition policy_evaluation (fuel : nat) : M (list Qc) :=
  let* state_space := mdp_len in
  pe_loop fuel state_space (np_zeros state_space).
End PolicyEvaluation.

(** The triple loop that fills [Q_vals], as written in both
    [policy_improvement] and [value_iteration]. *)
Section ActionValues.
Variables (gamma : Qc) (value_function : list Qc).

(** [Q_vals[state][action] += ...] for one outcome. *)
Definition q_accumulate (state action : nat) (o : outcome) (Q_vals : ndarray2)
  : result ndarray2 :=
  let? row := arr_getitem (rows Q_vals) state in
  let? c := arr_getitem row action in
  let? x := backup_term gamma value_function o in
  Ok (Ndarray2 (ncols Q_vals)
               (<[state := <[action := c + x]> row]> (rows Q_vals))).

(** The body of [for action in range(action_space)]. *)
Definition q_action (state action : nat) (Q_vals : ndarray2) : M ndarray2 :=
  let* acts := mdp_getitem state in
  let* outs := lift (dict_getitem acts action) in
  lift (rfold outs (q_accumulate state action) Q_vals).

(** The body of [for state in range(state_space)]. *)
Definition q_state (action_space state : nat) (Q_vals : ndarray2)
  : M ndarray2 :=
  for_each (range action_space) (q_action state) Q_vals.

Definition action_values (state_space action_space : nat) : M ndarray2 :=
  for_each (range state_space) (q_state action_space)
           (np_zeros2 state_space action_space).
End ActionValues.

Definition policy_constructor (Q_vals : ndarray2) : result policy :=
  let? greedy := np_argmax_axis1 Q_vals in
  Ok (dict_of_pairs (enumerate greedy)).

Definition policy_improvement (value_function : list Qc) (gamma : Qc)
  : M policy :=
  let* state_space := mdp_len in
  let* acts0 := mdp_getitem 0 in
  let action_space := size acts0 in
  let* Q_vals := action_values gamma value_function state_space action_space in
  lift (policy_constructor Q_vals).

(** [np.random.randint(0, high, size=n)]: [rng] is the generator, its
    [i]-th raw draw is reduced to [0 .. high-1]; [high = 0] raises. *)
Definition randint (rng : nat -> nat) (high n : nat) : result (list nat) :=
  if (high =? 0)%nat then Raise ValueError
  else Ok ((fun i => rng i mod high)%nat <$> seq 0 n).

Section PolicyIteration.
Variables (gamma theta : Qc).

(** [{state: improved_policy[state] for state in range(state_space)}] *)
Definition restrict_to_states (state_space : nat) (improved_policy : policy)
  : result policy :=
  let? kvs := rmap (fun state =>
                      let? a := dict_getitem improved_policy state in
                      Ok (state, a))
                   (range state_space) in
  Ok (dict_of_pairs kvs).

Fixpoint pi_loop (fuel fuel_pe state_space : nat) (current_policy : policy)
  : M (policy * list Qc) :=
  match fuel with
  | O => lift OutOfFuel
  | S fuel' =>
      let policy_to_improve := current_policy in
      let* value_function :=
        policy_evaluation policy_to_improve gamma theta fuel_pe in
      let* improved_policy := policy_improvement value_function gamma in
      let* candidate :=
        lift (restrict_to_states state_space improved_policy) in
      if bool_decide (policy_to_improve = candidate)
      then ret (improved_policy, value_function)
      else pi_loop fuel' fuel_pe state_space improved_policy
  end.

Definition policy_iteration (fuel : nat) (rng : nat -> nat)
  : M (policy * list Qc) :=
  let* state_space := mdp_len in
  let* acts0 := mdp_getitem 0 in
  let action_space := size acts0 in
  let* draws := lift (randint rng action_space state_space) in
  let current_policy := dict_of_pairs (enumerate draws) in
  pi_loop fuel fuel state_space current_policy.
End PolicyIteration.

Section ValueIteration.
Variables (gamma theta : Qc).

Fixpoint vi_loop (fuel state_space action_space : nat)
    (value_function : list Qc) : M (ndarray2 * list Qc) :=
  match fuel with
  | O => lift OutOfFuel
  | S fuel' =>
      let* Q_vals :=
        action_values gamma value_function state_space action_space in
      let* best := lift (np_max_axis1 Q_vals) in
      let* delta := lift (np_max (np_absolute
                                    (np_sub value_function best))) in
      if Qcltb delta theta then ret (Q_vals, value_function)
      else
        let* value_function' := lift (np_max_axis1 Q_vals) in
        vi_loop fuel' state_space action_space value_function'
  end.

Definition value_iteration (fuel : nat) : M (policy * list Qc) :=
  let* state_space := mdp_len in
  let* acts0 := mdp_getitem 0 in
  let action_space := size acts0 in
  let* r := vi_loop fuel state_space action_space (np_zeros state_space) in
  let* policy := lift (policy_constructor r.1) in
  ret (policy, r.2).
End ValueIteration.

(** ** The example environment *)

Definition dec (n : Z) (d : positive) : Qc := Q2Qc (n # d).

Definition slippery_bandit_walk : MDP :=
  dict_of_pairs
    [ (0%nat, dict_of_pairs
         [ (0%nat, [Outcome 1 0 0 true]);
           (1%nat, [Outcome 1 0 0 true]) ]);
      (1%nat, dict_of_pairs
         [ (0%nat, [Outcome (dec 8 10) 0 0 true; Outcome (dec 2 10) 2 0 false]);
           (1%nat, [Outcome (dec 8 10) 2 0 false; Outcome (dec 2 10) 0 0 true]) ]);
      (2%nat, dict_of_pairs
         [ (0%nat, [Outcome (dec 8 10) 1 0 false; Outcome (dec 2 10) 3 0 false]);
           (1%nat, [Outcome (dec 8 10) 3 0 false; Outcome (dec 2 10) 1 0 false]) ]);
      (3%nat, dict_of_pairs
         [ (0%nat, [Outcome (dec 8 10) 2 0 false; Outcome (dec 2 10) 4 1 true]);
           (1%nat, [Outcome (dec 8 10) 4 1 true; Outcome (dec 2 10) 2 0 false]) ]);
      (4%nat, dict_of_pairs
         [ (0%nat, [Outcome 1 4 0 true]);
           (1%nat, [Outcome 1 4 0 true]) ]) ].

Definition theta_default : Qc := dec 1 10000000000.

(** The policy printed by the notebook for the walk. *)
Definition sbw_optimal_policy : policy :=
  dict_of_pairs [(0, 0); (1, 1); (2, 1); (3, 1); (4, 0)]%nat.

(** The value function printed by the notebook, to four decimals, and the
    tolerance of that rounding. *)
Definition sbw_expected_values : list Qc :=
  [0; dec 7529 10000; dec 9412 10000; dec 9882 10000; 0].

Definition tolerance : Qc := dec 5 100000.

(** ** What one sweep computes

    The values that the in-place loops leave in the arrays, as functions of
    the MDP.  The lemmas below prove that the loops compute them. *)

(** [acc += term] over the outcomes in order, from [acc]. *)
Definition accumulate (gamma : Qc) (values : list Qc) (outs : list outcome)
    (acc : Qc) : result Qc :=
  rfold outs (fun o acc' => let? x := backup_term gamma values o in
                            Ok (acc' + x)) acc.

(** The entry [current_values[state]] after a sweep of policy evaluation. *)
Definition pe_value (pi : policy) (gamma : Qc) (mdp : MDP)
    (state_values : list Qc) (state : nat) : result Qc :=
  let? acts := dict_getitem mdp state in
  let? a := dict_getitem pi state in
  let? outs := dict_getitem acts a in
  accumulate gamma state_values outs 0.

(** The entry [Q_vals[state][action]] after the triple loop. *)
Definition q_value (gamma : Qc) (mdp : MDP) (value_function : list Qc)
    (state action : nat) : result Qc :=
  let? acts := dict_getitem mdp state in
  let? outs := dict_getitem acts action in
  accumulate gamma value_function outs 0.

Definition q_rows (gamma : Qc) (mdp : MDP) (value_function : list Qc)
    (state_space action_space : nat) : result (list (list Qc)) :=
  rmap (fun state => rmap (q_value gamma mdp value_function state)
                          (range action_space))
       (range state_space).

(** ** The Bellman backups, as the specification words them *)

Definition Qcsum (xs : list Qc) : Qc := foldr Qcplus 0 xs.

(** The sum over the outcomes of
    [prob * (reward + gamma * V[next_state] * (0 if terminal else 1))]. *)
Definition bellman_sum (gamma : Qc) (V : list Qc) (outs : list outcome)
  : result Qc :=
  let? terms := rmap (backup_term gamma V) outs in
  Ok (Qcsum terms).

(** The Bellman expectation update of state [s] under [pi]: the sum over
    the outcomes of [(s, pi[s])]. *)
Definition bellman_expectation (pi : policy) (gamma : Qc) (mdp : MDP)
    (V : list Qc) (s : nat) : result Qc :=
  let? acts := dict_getitem mdp s in
  let? a := dict_getitem pi s in
  let? outs := dict_getitem acts a in
  bellman_sum gamma V outs.

(** The action value [Q[s][a]]: the sum over the outcomes of [(s, a)]. *)
Definition bellman_q (gamma : Qc) (mdp : MDP) (V : list Qc) (s a : nat)
  : result Qc :=
  let? acts := dict_getitem mdp s in
  let? outs := dict_getitem acts a in
  bellman_sum gamma V outs.

(** Two arrays of one length whose entries differ by at most [bound]. *)
Definition close (V W : list Qc) (bound : Qc) : Prop :=
  length V = length W /\
  forall j v w, V !! j = Some v -> W !! j = Some w -> Qcabs (v - w) <= bound.

(** ** Greedy policies and well-formed inputs *)

(** [a] is the lowest index in [0 .. n-1] at which [f] takes its maximum. *)
Definition lowest_argmax (f : nat -> result Qc) (n a : nat) : Prop :=
  (a < n)%nat /\
  exists q, f a = Ok q /\
    (forall a', (a' < n)%nat -> exists q', f a' = Ok q' /\ q' <= q) /\
    (forall a', (a' < a)%nat -> exists q', f a' = Ok q' /\ q' < q).

(** [pi] maps every state [s] to the lowest-indexed action that maximises
    [Q[s][a]], for the action values computed from [V]. *)
Definition greedy_policy (gamma : Qc) (mdp : MDP) (V : list Qc)
    (action_space : nat) (pi : policy) : Prop :=
  forall s, (s < size mdp)%nat ->
    exists a, pi !! s = Some a /\
              lowest_argmax (bellman_q gamma mdp V s) action_space a.

(** [len(mdp[0])], and 0 where the code raises [KeyError]. *)
Definition action_space_of (mdp : MDP) : nat := size (default ∅ (mdp !! 0%nat)).

(** The shape of the data model: the states are [0 .. len(mdp)-1], every
    state has the actions [0 .. action_space-1] with [action_space >= 1],
    and every [next_state] indexes an array of [n] values. *)
Definition well_shaped (mdp : MDP) (n : nat) : Prop :=
  action_space_of mdp <> 0%nat /\
  forall s, (s < size mdp)%nat ->
    exists acts, mdp !! s = Some acts /\
      forall a, (a < action_space_of mdp)%nat ->
        exists outs, acts !! a = Some outs /\
          Forall (fun o => (- Z.of_nat n <= state_prime o < Z.of_nat n)%Z)
                 outs.

(** The row-level fact behind [np.argmax]. *)
Definition first_argmax (row : list Qc) (a : nat) : Prop :=
  exists m, row !! a = Some m /\
    (forall j x, row !! j = Some x -> x <= m) /\
    (forall j x, (j < a)%nat -> row !! j = Some x -> x < m).

(** The MDP with the single state 0 and the single action 0, whose one
    outcome returns to state 0 with probability 1. *)
Definition one_state_mdp (r : Qc) (terminal : bool) : MDP :=
  dict_of_pairs [(0%nat, dict_of_pairs [(0%nat, [Outcome 1 0 r terminal])])].

Definition one_state_policy : policy := dict_of_pairs [(0%nat, 0%nat)].

(** A total in-range policy: its keys are exactly the states
    [0 .. len(mdp)-1] and its actions lie in [0 .. len(mdp[0])-1]. *)
Definition total_in_range (mdp : MDP) (pi : policy) : Prop :=
  dom pi = set_seq 0 (size mdp) /\
  forall s a, pi !! s = Some a -> (a < action_space_of mdp)%nat.

(** The two policies assign the same action in every state. *)
Definition same_actions (mdp : MDP) (pi pi' : policy) : Prop :=
  forall s, (s < size mdp)%nat -> pi !! s = pi' !! s.

(** ** Checking the scenario by evaluation *)

(** All arrays of length [n] with entries below [high]: the possible
    results of [randint]. *)
Fixpoint all_draws (high n : nat) : list (list nat) :=
  match n with
  | O => [[]]
  | S n' => a ← seq 0 high; (fun l => a :: l) <$> all_draws high n'
  end.

(** The boolean form of [close]. *)
Definition closeb (V W : list Qc) (bound : Qc) : bool :=
  bool_decide (length V = length W)
  && forallb (fun vw => negb (Qcltb bound (Qcabs (vw.1 - vw.2)))) (zip V W).

Definition scenario_ok (r : result (policy * list Qc)) : bool :=
  match r with
  | Ok (pi, V) =>
      bool_decide (pi = sbw_optimal_policy)
      && closeb V sbw_expected_values tolerance
  | _ => false
  end.

(** ** Policy evaluation on a common denominator

    When [gamma = 1], the probabilities are multiples of [1/D] and the
    rewards are integers, the array after [k] sweeps has the common
    denominator [D^k]; the loop can then be run on the integer numerators
    alone.  The lemmas below prove that this gives the result of
    [policy_evaluation]; it is used to evaluate the scenario. *)

Definition to_Qc (d : positive) (n : Z) : Qc := Q2Qc (n # d).

(** The integer [q * D], if [q] is a multiple of [1/D]. *)
Definition scaled_numerator (D : positive) (q : Qc) : option Z :=
  let x := Qred (this q * (Zpos D # 1)) in
  if (Qden x =? 1)%positive then Some (Qnum x) else None.

Definition scaled_term (D d : positive) (N : list Z) (o : outcome)
  : option Z :=
  match scaled_numerator D (transition_probability o),
        scaled_numerator 1 (reward o),
        np_getitem N (state_prime o) with
  | Some pn, Some rn, Ok n =>
      Some (pn * (rn * Zpos d + (if done o then 0 else n)))%Z
  | _, _, _ => None
  end.

Fixpoint scaled_sum (D d : positive) (N : list Z) (outs : list outcome)
  : option Z :=
  match outs with
  | [] => Some 0%Z
  | o :: outs' =>
      match scaled_term D d N o, scaled_sum D d N outs' with
      | Some t, Some s => Some (t + s)%Z
      | _, _ => None
      end
  end.

Definition scaled_value (pi : policy) (mdp : MDP) (D d : positive)
    (N : list Z) (state : nat) : option Z :=
  match mdp !! state with
  | Some acts =>
      match pi !! state with
      | Some a =>
          match acts !! a with
          | Some outs => scaled_sum D d N outs
          | None => None
          end
      | None => None
      end
  | None => None
  end.

Fixpoint scaled_pe_loop (fuel : nat) (pi : policy) (mdp : MDP) (theta : Qc)
    (D : positive) (state_space : nat) (N : list Z) (d : positive)
  : option (list Z * positive) :=
  match fuel with
  | O => None
  | S fuel' =>
      match mapM (scaled_value pi mdp D d N) (range state_space) with
      | Some N' =>
          match zip_with (fun n n' => Z.abs (Zpos D * n - n')) N N' with
          | [] => None
          | x :: xs =>
              if (foldl Z.max x xs * QDen theta
                  <? Qnum theta * Zpos (D * d))%Z
              then Some (N', (D * d)%positive)
              else scaled_pe_loop fuel' pi mdp theta D state_space N'
                                  (D * d)%positive
          end
      | None => None
      end
  end.

Fixpoint scaled_pi_loop (fuel fuel_pe : nat) (theta : Qc) (D : positive)
    (mdp : MDP) (current_policy : policy) : option (policy * list Qc) :=
  match fuel with
  | O => None
  | S fuel' =>
      match scaled_pe_loop fuel_pe current_policy mdp theta D (size mdp)
                           (replicate (size mdp) 0%Z) 1 with
      | Some (N, d) =>
          let value_function := to_Qc d <$> N in
          match (policy_improvement value_function 1 mdp).1 with
          | Ok improved_policy =>
              if bool_decide (current_policy = improved_policy)
              then Some (improved_policy, value_function)
              else scaled_pi_loop fuel' fuel_pe theta D mdp improved_policy
          | _ => None
          end
      | None => None
      end
  end.

(** ** Inputs that the solvers can read

    Used by the further properties below. *)

(** [policy_evaluation] finds what it reads: the MDP is not empty, every
    state [s] in [range(len(mdp))] is a key of the MDP and of the policy,
    [pi[s]] is an action of [mdp[s]], and every [state_prime] of its
    outcomes indexes an array of [len(mdp)] values. *)
Definition evaluable (pi : policy) (mdp : MDP) : Prop :=
  size mdp <> 0%nat /\
  forall s, (s < size mdp)%nat ->
    exists acts a outs,
      mdp !! s = Some acts /\ pi !! s = Some a /\ acts !! a = Some outs /\
      Forall (fun o => (- Z.of_nat (size mdp) <= state_prime o
                        < Z.of_nat (size mdp))%Z) outs.




(** * The program in binary64

    The notebook computes with numpy [float64].  This module is the same
    program with every number a binary64 float and every operation the
    IEEE 754 one, rounded to nearest even: products and sums round,
    overflow gives an infinity, and [inf * 0] and [inf - inf] give NaN.
    numpy reports overflow and invalid operations as warnings, not as
    exceptions, so the run goes on with these values.  The solvers only
    read the MDP, so here it is a plain argument; the numpy arrays are
    still updated in place. *)
Module Float64.
Local Open Scope float_scope.

Record outcome : Type := Outcome {
  transition_probability : float;
  state_prime : Z;
  reward : float;
  done : bool
}.

Abbreviation MDP := (gmap nat (gmap nat (list outcome))).

(** [not done] as a factor of a float product. *)
Definition of_bool (b : bool) : float := if b then 1 else 0.

(** [np.zeros(n)], [a - b] and [np.absolute]. *)
Definition np_zeros (n : nat) : list float := replicate n 0.
Definition np_sub (a b : list float) : list float := zip_with PrimFloat.sub a b.
Definition np_absolute (a : list float) : list float := abs <$> a.

(** numpy's [maximum] of two floats, [(x >= y || isnan(x)) ? x : y]: a NaN
    on either side gives NaN. *)
Definition maximum (x y : float) : float :=
  if (y <=? x) || is_nan x then x else y.

(** [np.max(a)]: the reduction by [maximum]; an empty array raises.  The
    reduction is written from left to right; another order gives the same
    float, up to the sign of a zero. *)
Definition np_max (a : list float) : result float :=
  match a with
  | [] => Raise ValueError
  | x :: a' => Ok (foldl maximum x a')
  end.

(** The scan of [np.argmax]: [best] is replaced by an entry [x] when
    [!(x <= best)], and the scan stops at the first NaN. *)
Fixpoint argmax_scan (best : float) (best_i i : nat) (a : list float) : nat :=
  match a with
  | [] => best_i
  | x :: a' =>
      if is_nan best then best_i
      else if negb (x <=? best) then argmax_scan x i (S i) a'
           else argmax_scan best best_i (S i) a'
  end.

Definition np_argmax (a : list float) : result nat :=
  match a with
  | [] => Raise ValueError
  | x :: a' => Ok (argmax_scan x 0 1 a')
  end.

Record ndarray2 : Type := Ndarray2 { ncols : nat; rows : list (list float) }.

(** [np.zeros((n, m))] *)
Definition np_zeros2 (n m : nat) : ndarray2 :=
  Ndarray2 m (replicate n (np_zeros m)).

(** [np.max(Q, axis=1)] and [np.argmax(Q, axis=1)] *)
Definition np_max_axis1 (Q : ndarray2) : result (list float) :=
  if (ncols Q =? 0)%nat then Raise ValueError else rmap np_max (rows Q).

Definition np_argmax_axis1 (Q : ndarray2) : result (list nat) :=
  if (ncols Q =? 0)%nat then Raise ValueError else rmap np_argmax (rows Q).

(** [transition_probability * (reward + gamma * values[state_prime] * (not done))],
    evaluated as Python parses it: four rounded operations. *)
Definition backup_term (gamma : float) (values : list float) (o : outcome)
  : result float :=
  let? v := np_getitem values (state_prime o) in
  Ok (transition_probability o
      * (reward o + gamma * v * of_bool (negb (done o)))).

Section PolicyEvaluation.
Variables (pi : policy) (mdp : MDP) (gamma theta : float).

(** [current_values[state] += ...] for one outcome. *)
Definition pe_accumulate (state_values : list float) (state : nat)
    (o : outcome) (current_values : list float) : result (list float) :=
  let? c := arr_getitem current_values state in
  let? x := backup_term gamma state_values o in
  Ok (<[state := c + x]> current_values).

(** The body of [for state in range(state_space)]. *)
Definition pe_state (state_values : list float) (state : nat)
    (current_values : list float) : result (list float) :=
  let? acts := dict_getitem mdp state in
  let? a := dict_getitem pi state in
  let? outs := dict_getitem acts a in
  rfold outs (pe_accumulate state_values state) current_values.

(** One pass of the [while] body up to the convergence test. *)
Definition pe_sweep (state_space : nat) (state_values : list float)
  : result (list float) :=
  rfold (range state_space) (pe_state state_values) (np_zeros state_space).

Fixpoint pe_loop (fuel state_space : nat) (state_values : list float)
  : result (list float) :=
  match fuel with
  | O => OutOfFuel
  | S fuel' =>
      let? current_values := pe_sweep state_space state_values in
      let? delta := np_max (np_absolute
                              (np_sub state_values current_values)) in
      if delta <? theta then Ok current_values
      else pe_loop fuel' state_space current_values
  end.

Definition policy_evaluation (fuel : nat) : result (list float) :=
  let state_space := size mdp in
  pe_loop fuel state_space (np_zeros state_space).
End PolicyEvaluation.

Section ActionValues.
Variables (mdp : MDP) (gamma : float) (value_function : list float).

(** [Q_vals[state][action] += ...] for one outcome. *)
Definition q_accumulate (state action : nat) (o : outcome) (Q_vals : ndarray2)
  : result ndarray2 :=
  let? row := arr_getitem (rows Q_vals) state in
  let? c := arr_getitem row action in
  let? x := backup_term gamma value_function o in
  Ok (Ndarray2 (ncols Q_vals)
               (<[state := <[action := c + x]> row]> (rows Q_vals))).

Definition q_action (state action : nat) (Q_vals : ndarray2)
  : result ndarray2 :=
  let? acts := dict_getitem mdp state in
  let? outs := dict_getitem acts action in
  rfold outs (q_accumulate state action) Q_vals.

Definition q_state (action_space state : nat) (Q_vals : ndarray2)
  : result ndarray2 :=
  rfold (range action_space) (q_action state) Q_vals.

(** The triple loop that fills [Q_vals]. *)
Definition action_values (state_space action_space : nat) : result ndarray2 :=
  rfold (range state_space) (q_state action_space)
        (np_zeros2 state_space action_space).
End ActionValues.

Definition policy_constructor (Q_vals : ndarray2) : result policy :=
  let? greedy := np_argmax_axis1 Q_vals in
  Ok (dict_of_pairs (enumerate greedy)).

Definition policy_improvement (value_function : list float) (mdp : MDP)
    (gamma : float) : result policy :=
  let state_space := size mdp in
  let? acts0 := dict_getitem mdp 0%nat in
  let action_space := size acts0 in
  let? Q_vals := action_values mdp gamma value_function
                               state_space action_space in
  policy_constructor Q_vals.

Section Iteration.
Variables (mdp : MDP) (gamma theta : float).

Fixpoint pi_loop (fuel fuel_pe state_space : nat) (current_policy : policy)
  : result (policy * list float) :=
  match fuel with
  | O => OutOfFuel
  | S fuel' =>
      let policy_to_improve := current_policy in
      let? value_function :=
        policy_evaluation policy_to_improve mdp gamma theta fuel_pe in
      let? improved_policy := policy_improvement value_function mdp gamma in
      let? candidate := restrict_to_states state_space improved_policy in
      if bool_decide (policy_to_improve = candidate)
      then Ok (improved_policy, value_function)
      else pi_loop fuel' fuel_pe state_space improved_policy
  end.

Definition policy_iteration (fuel : nat) (rng : nat -> nat)
  : result (policy * list float) :=
  let state_space := size mdp in
  let? acts0 := dict_getitem mdp 0%nat in
  let action_space := size acts0 in
  let? draws := randint rng action_space state_space in
  let current_policy := dict_of_pairs (enumerate draws) in
  pi_loop fuel fuel state_space current_policy.

Fixpoint vi_loop (fuel state_space action_space : nat)
    (value_function : list float) : result (ndarray2 * list float) :=
  match fuel with
  | O => OutOfFuel
  | S fuel' =>
      let? Q_vals := action_values mdp gamma value_function
                                   state_space action_space in
      let? best := np_max_axis1 Q_vals in
      let? delta := np_max (np_absolute (np_sub value_function best)) in
      if delta <? theta then Ok (Q_vals, value_function)
      else
        let? value_function' := np_max_axis1 Q_vals in
        vi_loop fuel' state_space action_space value_function'
  end.

Definition value_iteration (fuel : nat) : result (policy * list float) :=
  let state_space := size mdp in
  let? acts0 := dict_getitem mdp 0%nat in
  let action_space := size acts0 in
  let? r := vi_loop fuel state_space action_space (np_zeros state_space) in
  let? policy := policy_constructor r.1 in
  Ok (policy, r.2).
End Iteration.

(** ** What the in-place loops leave in the arrays *)

(** [acc += term] over the outcomes in order, from [acc]: a left fold of
    rounded additions. *)
Definition accumulate (gamma : float) (values : list float)
    (outs : list outcome) (acc : float) : result float :=
  rfold outs (fun o acc' => let? x := backup_term gamma values o in
                            Ok (acc' + x)) acc.

(** The entry [current_values[state]] after a sweep of policy evaluation. *)
Definition pe_value (pi : policy) (mdp : MDP) (gamma : float)
    (state_values : list float) (state : nat) : result float :=
  let? acts := dict_getitem mdp state in
  let? a := dict_getitem pi state in
  let? outs := dict_getitem acts a in
  accumulate gamma state_values outs 0.

(** The entry [Q_vals[state][action]] after the triple loop. *)
Definition q_value (mdp : MDP) (gamma : float) (value_function : list float)
    (state action : nat) : result float :=
  let? acts := dict_getitem mdp state in
  let? outs := dict_getitem acts action in
  accumulate gamma value_function outs 0.

Definition q_rows (mdp : MDP) (gamma : float) (value_function : list float)
    (state_space action_space : nat) : result (list (list float)) :=
  rmap (fun state => rmap (q_value mdp gamma value_function state)
                          (range action_space))
       (range state_space).

(** [k] rounds of the loop of [policy_evaluation] from [state_values],
    none of which passes the convergence test: the array that the next
    round starts from. *)
Fixpoint pe_rounds (pi : policy) (mdp : MDP) (gamma theta : float)
    (k state_space : nat) (state_values : list float)
  : option (list float) :=
  match k with
  | O => Some state_values
  | S k' =>
      match pe_sweep pi mdp gamma state_space state_values with
      | Ok current_values =>
          match np_max (np_absolute
                          (np_sub state_values current_values)) with
          | Ok delta =>
              if delta <? theta then None
              else pe_rounds pi mdp gamma theta k' state_space current_values
          | _ => None
          end
      | _ => None
      end
  end.

(** [len(mdp[0])], and 0 where the code raises [KeyError]. *)
Definition action_space_of (mdp : MDP) : nat :=
  size (default ∅ (mdp !! 0%nat)).

(** ** The order of numpy's reductions *)

(** The shape of the data model: the states are [0 .. len(mdp)-1], every
    state has the actions [0 .. action_space-1] with [action_space >= 1],
    and every [next_state] indexes an array of [n] values. *)
Definition well_shaped (mdp : MDP) (n : nat) : Prop :=
  action_space_of mdp <> 0%nat /\
  forall s, (s < size mdp)%nat ->
    exists acts, mdp !! s = Some acts /\
      forall a, (a < action_space_of mdp)%nat ->
        exists outs, acts !! a = Some outs /\
          Forall (fun o => (- Z.of_nat n <= state_prime o < Z.of_nat n)%Z)
                 outs.

(** [x] is at most [y] in the order that [np.max] and [np.argmax] use:
    the order of the floats, with NaN above every number. *)
Definition nle (x y : float) : bool := is_nan y || (x <=? y).

(** [row[a]] is a maximum of [row] in that order, and [a] is the lowest
    index of one. *)
Definition lowest_argmax (row : list float) (a : nat) : Prop :=
  exists m, row !! a = Some m /\
    (forall j x, row !! j = Some x -> nle x m = true) /\
    (forall j x, (j < a)%nat -> row !! j = Some x -> nle m x = false).

(** ** Example inputs *)

(** The Slippery Bandit Walk; [0.8] and [0.2] are the binary64 values that
    Python reads for these literals. *)
Definition slippery_bandit_walk : MDP :=
  dict_of_pairs
    [ (0%nat, dict_of_pairs
         [ (0%nat, [Outcome 1 0 0 true]);
           (1%nat, [Outcome 1 0 0 true]) ]);
      (1%nat, dict_of_pairs
         [ (0%nat, [Outcome 0x1.999999999999ap-1 0 0 true;
                    Outcome 0x1.999999999999ap-3 2 0 false]);
           (1%nat, [Outcome 0x1.999999999999ap-1 2 0 false;
                    Outcome 0x1.999999999999ap-3 0 0 true]) ]);
      (2%nat, dict_of_pairs
         [ (0%nat, [Outcome 0x1.999999999999ap-1 1 0 false;
                    Outcome 0x1.999999999999ap-3 3 0 false]);
           (1%nat, [Outcome 0x1.999999999999ap-1 3 0 false;
                    Outcome 0x1.999999999999ap-3 1 0 false]) ]);
      (3%nat, dict_of_pairs
         [ (0%nat, [Outcome 0x1.999999999999ap-1 2 0 false;
                    Outcome 0x1.999999999999ap-3 4 1 true]);
           (1%nat, [Outcome 0x1.999999999999ap-1 4 1 true;
                    Outcome 0x1.999999999999ap-3 2 0 false]) ]);
      (4%nat, dict_of_pairs
         [ (0%nat, [Outcome 1 4 0 true]);
           (1%nat, [Outcome 1 4 0 true]) ]) ].

(** [1e-10] as Python reads it. *)
Definition theta_default : float := 0x1.b7cdfd9d7bdbbp-34.

(** The MDP with the single state 0 and the single action 0, whose one
    outcome returns to state 0 with probability 1. *)
Definition one_state_mdp (r : float) (terminal : bool) : MDP :=
  dict_of_pairs [(0%nat, dict_of_pairs [(0%nat, [Outcome 1 0 r terminal])])].

(** One state, one action, outcomes [(0.75, 0, 400000.0, False)] and
    [(0.25, 0, 0.0, True)]. *)
Definition rounding_mdp : MDP :=
  dict_of_pairs
    [(0%nat, dict_of_pairs
        [(0%nat, [Outcome 0x1.8p-1 0 400000 false;
                  Outcome 0x1p-2 0 0 true])])].
(** Two states that lead to each other, with the rewards [7353297.0] and
    [-9867259.0]. *)
Definition two_state_mdp : MDP :=
  dict_of_pairs
    [(0%nat, dict_of_pairs [(0%nat, [Outcome 1 1 7353297 false])]);
     (1%nat, dict_of_pairs [(0%nat, [Outcome 1 0 (-9867259) false])])].

Definition two_state_policy : policy :=
  dict_of_pairs [(0%nat, 0%nat); (1%nat, 0%nat)].

(** The values printed by the notebook for the walk, to four decimals, as
    Python reads them, and the tolerance [5e-5] of that rounding. *)
Definition sbw_expected_values : list float :=
  [0; 0x1.817c1bda5119dp-1; 0x1.e1e4f765fd8aep-1; 0x1.f9f559b3d07c8p-1; 0].

Definition tolerance : float := 0x1.a36e2eb1c432dp-15.

(** Every entry of [V] is within [bound] of the entry of [W]. *)
Definition within (V W : list float) (bound : float) : Prop :=
  length V = length W /\
  forall j v w, V !! j = Some v -> W !! j = Some w ->
                (abs (v - w) <=? bound) = true.

(** The boolean check that the result is the policy printed by the
    notebook, with values within the tolerance of the printed ones. *)
Definition scenario_ok (r : result (policy * list float)) : bool :=
  match r with
  | Ok (pi, V) =>
      bool_decide (pi = sbw_optimal_policy)
      && bool_decide (length V = length sbw_expected_values)
      && forallb (fun ve => abs (ve.1 - ve.2) <=? tolerance)
                 (zip V sbw_expected_values)
  | _ => false
  end.
End Float64.

(** ** The store is only read *)

Definition read_only {A} (c : M A) : Prop := forall mdp, (c mdp).2 = mdp.

Lemma read_only_ret {A} (a : A) : read_only (ret a).
Proof. by intros mdp. Qed.

Lemma read_only_lift {A} (r : result A) : read_only (lift r).
Proof. by intros mdp. Qed.

Lemma read_only_mdp_len : read_only mdp_len.
Proof. by intros mdp. Qed.

Lemma read_only_mdp_getitem state : read_only (mdp_getitem state).
Proof. intros mdp. unfold mdp_getitem. by destruct (mdp !! state). Qed.

(** A write is not read-only: the property is not true of every
    computation. *)
Lemma mdp_setitem_not_read_only : ~ read_only (mdp_setitem 0 ∅).
Proof.
  intros H. specialize (H ∅). simpl in H.
  by apply insert_non_empty in H.
Qed.

Lemma read_only_bind {A B} (c : M A) (k : A -> M B) :
  read_only c -> (forall a, read_only (k a)) -> read_only (bind c k).
Proof.
  intros Hc Hk mdp. unfold bind. specialize (Hc mdp).
  destruct (c mdp) as [[a|e|] mdp']; simpl in *; subst; auto.
  apply Hk.
Qed.

Lemma read_only_if {A} (b : bool) (c1 c2 : M A) :
  read_only c1 -> read_only c2 -> read_only (if b then c1 else c2).
Proof. by destruct b. Qed.

Lemma read_only_for_each {A S} (xs : list A) (body : A -> S -> M S) s :
  (forall x s', read_only (body x s')) -> read_only (for_each xs body s).
Proof.
  intros Hbody. revert s.
  induction xs as [|x xs IH]; intros s; simpl.
  - apply read_only_ret.
  - apply read_only_bind; auto.
Qed.

Create HintDb read_only.
#[export] Hint Resolve read_only_ret read_only_lift read_only_mdp_len
  read_only_mdp_getitem read_only_if : read_only.
#[export] Hint Extern 2 (read_only (bind _ _)) =>
  apply read_only_bind; [ | intros ? ] : read_only.
#[export] Hint Extern 2 (read_only (for_each _ _ _)) =>
  apply read_only_for_each; intros ? ? : read_only.

Lemma read_only_pe_sweep pi gamma state_space state_values :
  read_only (pe_sweep pi gamma state_space state_values).
Proof. unfold pe_sweep, pe_state. auto 10 with read_only. Qed.

Lemma read_only_pe_loop pi gamma theta fuel state_space state_values :
  read_only (pe_loop pi gamma theta fuel state_space state_values).
Proof.
  revert state_values.
  induction fuel as [|fuel IH]; intros state_values; simpl.
  - auto with read_only.
  - pose proof read_only_pe_sweep. auto 10 with read_only.
Qed.

Lemma read_only_policy_evaluation pi gamma theta fuel :
  read_only (policy_evaluation pi gamma theta fuel).
Proof.
  unfold policy_evaluation. pose proof read_only_pe_loop.
  auto with read_only.
Qed.

Lemma read_only_action_values gamma value_function state_space action_space :
  read_only (action_values gamma value_function state_space action_space).
Proof. unfold action_values, q_state, q_action. auto 10 with read_only. Qed.

Lemma read_only_policy_improvement value_function gamma :
  read_only (policy_improvement value_function gamma).
Proof.
  unfold policy_improvement. pose proof read_only_action_values.
  auto 10 with read_only.
Qed.

Lemma read_only_pi_loop gamma theta fuel fuel_pe state_space current_policy :
  read_only (pi_loop gamma theta fuel fuel_pe state_space current_policy).
Proof.
  revert current_policy.
  induction fuel as [|fuel IH]; intros current_policy; simpl.
  - auto with read_only.
  - pose proof read_only_policy_evaluation.
    pose proof read_only_policy_improvement.
    auto 10 with read_only.
Qed.

Lemma read_only_policy_iteration gamma theta fuel rng :
  read_only (policy_iteration gamma theta fuel rng).
Proof.
  unfold policy_iteration. pose proof read_only_pi_loop.
  auto 10 with read_only.
Qed.

Lemma read_only_vi_loop gamma theta fuel state_space action_space vf :
  read_only (vi_loop gamma theta fuel state_space action_space vf).
Proof.
  revert vf.
  induction fuel as [|fuel IH]; intros vf; simpl.
  - auto with read_only.
  - pose proof read_only_action_values. auto 10 with read_only.
Qed.

Lemma read_only_value_iteration gamma theta fuel :
  read_only (value_iteration gamma theta fuel).
Proof.
  unfold value_iteration. pose proof read_only_vi_loop.
  auto 10 with read_only.
Qed.

(** C6.  None of the four solvers mutates the MDP: whatever a call of
    [policy_evaluation], [policy_improvement], [policy_iteration] or
    [value_iteration] does (it returns, raises, or is cut off by the fuel),
    the MDP object in the store after the call is the one before the call,
    with the same states, the same actions and the same outcome tuples. *)
Theorem solvers_never_mutate_mdp (mdp : MDP) :
  (forall pi gamma theta fuel,
     (policy_evaluation pi gamma theta fuel mdp).2 = mdp) /\
  (forall value_function gamma,
     (policy_improvement value_function gamma mdp).2 = mdp) /\
  (forall gamma theta fuel rng,
     (policy_iteration gamma theta fuel rng mdp).2 = mdp) /\
  (forall gamma theta fuel,
     (value_iteration gamma theta fuel mdp).2 = mdp).
Proof.
  repeat split; intros.
  - apply read_only_policy_evaluation.
  - apply read_only_policy_improvement.
  - apply read_only_policy_iteration.
  - apply read_only_value_iteration.
Qed.

(** ** The in-place loops compute the functional sweeps *)

Lemma rbind_Ok {A B} (r : result A) (k : A -> result B) b :
  rbind r k = Ok b <-> exists a, r = Ok a /\ k a = Ok b.
Proof.
  split.
  - destruct r; simpl; intros; eauto; discriminate.
  - by intros (a & -> & ?).
Qed.

Lemma rfold_pe_accumulate gamma state_values state outs :
  forall current_values c,
    current_values !! state = Some c ->
    rfold outs (pe_accumulate gamma state_values state) current_values
    = let? x := accumulate gamma state_values outs c in
      Ok (<[state := x]> current_values).
Proof.
  induction outs as [|o outs IH]; intros cv c Hc; simpl.
  - by rewrite list_insert_id.
  - unfold pe_accumulate at 1, arr_getitem. rewrite Hc. simpl.
    unfold accumulate. simpl.
    destruct (backup_term gamma state_values o) as [x|e|]; simpl; try done.
    rewrite (IH _ (c + x)).
    + unfold accumulate.
      destruct (rfold outs _ (c + x)); simpl; try done.
      by rewrite list_insert_insert_eq.
    + apply list_lookup_insert_eq. by eapply lookup_lt_Some.
Qed.

Lemma pe_state_eq pi gamma state_values state current_values mdp :
  current_values !! state = Some 0 ->
  pe_state pi gamma state_values state current_values mdp
  = (let? x := pe_value pi gamma mdp state_values state in
     Ok (<[state := x]> current_values), mdp).
Proof.
  intros Hc. unfold pe_state, pe_value, bind, lift, mdp_getitem, dict_getitem.
  destruct (mdp !! state) as [acts|]; simpl; try done.
  destruct (pi !! state) as [a|]; simpl; try done.
  destruct (acts !! a) as [outs|]; simpl; try done.
  by rewrite (rfold_pe_accumulate _ _ _ _ _ 0).
Qed.

Lemma pe_sweep_from pi gamma state_values mdp n :
  forall k pre,
    length pre = k ->
    for_each (seq k n) (pe_state pi gamma state_values)
             (pre ++ replicate n 0) mdp
    = (let? vs := rmap (pe_value pi gamma mdp state_values) (seq k n) in
       Ok (pre ++ vs), mdp).
Proof.
  induction n as [|n IH]; intros k pre Hk; simpl.
  - done.
  - unfold bind. rewrite pe_state_eq.
    2:{ rewrite lookup_app_r by lia. by replace (k - length pre)%nat with O by lia. }
    destruct (pe_value pi gamma mdp state_values k) as [x|e|]; simpl; try done.
    replace (<[k := x]> (pre ++ 0 :: replicate n 0))
      with ((pre ++ [x]) ++ replicate n 0).
    2:{ rewrite insert_app_r_alt by lia.
        replace (k - length pre)%nat with O by lia. simpl.
        by rewrite <- app_assoc. }
    rewrite IH by (rewrite length_app; simpl; lia).
    destruct (rmap _ (seq (S k) n)); simpl; try done.
    by rewrite <- app_assoc.
Qed.

(** The sweep of [policy_evaluation] leaves in [current_values] the list of
    the per-state values, and raises where the first of them raises. *)
Lemma pe_sweep_eq pi gamma state_space state_values mdp :
  pe_sweep pi gamma state_space state_values mdp
  = (rmap (pe_value pi gamma mdp state_values) (range state_space), mdp).
Proof.
  unfold pe_sweep, range, np_zeros.
  rewrite (pe_sweep_from _ _ _ _ state_space 0 []) by done.
  by destruct (rmap _ _).
Qed.

Lemma rfold_q_accumulate gamma value_function state action nc outs :
  forall rs row c,
    rs !! state = Some row ->
    row !! action = Some c ->
    rfold outs (q_accumulate gamma value_function state action)
          (Ndarray2 nc rs)
    = let? x := accumulate gamma value_function outs c in
      Ok (Ndarray2 nc (<[state := <[action := x]> row]> rs)).
Proof.
  induction outs as [|o outs IH]; intros rs row c Hrow Hc; simpl.
  - by rewrite (list_insert_id row), (list_insert_id rs).
  - unfold q_accumulate at 1, arr_getitem. simpl. rewrite Hrow. simpl.
    rewrite Hc. simpl. unfold accumulate. simpl.
    destruct (backup_term gamma value_function o) as [x|e|]; simpl; try done.
    rewrite (IH _ (<[action := c + x]> row) (c + x)).
    + unfold accumulate.
      destruct (rfold outs _ (c + x)); simpl; try done.
      by rewrite !list_insert_insert_eq.
    + apply list_lookup_insert_eq. by eapply lookup_lt_Some.
    + apply list_lookup_insert_eq. by eapply lookup_lt_Some.
Qed.

Lemma q_action_eq gamma value_function state action nc rs row mdp :
  rs !! state = Some row ->
  row !! action = Some 0 ->
  q_action gamma value_function state action (Ndarray2 nc rs) mdp
  = (let? x := q_value gamma mdp value_function state action in
     Ok (Ndarray2 nc (<[state := <[action := x]> row]> rs)), mdp).
Proof.
  intros Hrow Hc.
  unfold q_action, q_value, bind, lift, mdp_getitem, dict_getitem.
  destruct (mdp !! state) as [acts|]; simpl; try done.
  destruct (acts !! action) as [outs|]; simpl; try done.
  by rewrite (rfold_q_accumulate _ _ _ _ _ _ _ row 0).
Qed.

Lemma q_state_from gamma value_function state nc mdp n :
  forall k pre rs,
    length pre = k ->
    rs !! state = Some (pre ++ replicate n 0) ->
    for_each (seq k n) (q_action gamma value_function state)
             (Ndarray2 nc rs) mdp
    = (let? vs := rmap (q_value gamma mdp value_function state) (seq k n) in
       Ok (Ndarray2 nc (<[state := pre ++ vs]> rs)), mdp).
Proof.
  induction n as [|n IH]; intros k pre rs Hk Hrow; simpl.
  - simpl in Hrow. rewrite !app_nil_r in *. by rewrite list_insert_id.
  - unfold bind. rewrite (q_action_eq _ _ _ _ _ _ _ _ Hrow).
    2:{ rewrite lookup_app_r by lia. by replace (k - length pre)%nat with O by lia. }
    destruct (q_value gamma mdp value_function state k) as [x|e|];
      simpl; try done.
    replace (<[k := x]> (pre ++ 0 :: replicate n 0))
      with ((pre ++ [x]) ++ replicate n 0).
    2:{ rewrite insert_app_r_alt by lia.
        replace (k - length pre)%nat with O by lia. simpl.
        by rewrite <- app_assoc. }
    rewrite (IH (S k) (pre ++ [x])).
    + destruct (rmap _ (seq (S k) n)); simpl; try done.
      by rewrite list_insert_insert_eq, <- app_assoc.
    + rewrite length_app; simpl; lia.
    + apply list_lookup_insert_eq. by eapply lookup_lt_Some.
Qed.

Lemma q_state_eq gamma value_function action_space state nc rs mdp :
  rs !! state = Some (replicate action_space 0) ->
  q_state gamma value_function action_space state (Ndarray2 nc rs) mdp
  = (let? vs := rmap (q_value gamma mdp value_function state)
                     (range action_space) in
     Ok (Ndarray2 nc (<[state := vs]> rs)), mdp).
Proof.
  intros Hrow. unfold q_state, range.
  by rewrite (q_state_from _ _ _ _ _ action_space 0 []).
Qed.

Lemma action_values_from gamma value_function action_space nc mdp n :
  forall k pre,
    length pre = k ->
    for_each (seq k n) (q_state gamma value_function action_space)
             (Ndarray2 nc (pre ++ replicate n (replicate action_space 0))) mdp
    = (let? rs := rmap (fun state =>
                          rmap (q_value gamma mdp value_function state)
                               (range action_space)) (seq k n) in
       Ok (Ndarray2 nc (pre ++ rs)), mdp).
Proof.
  induction n as [|n IH]; intros k pre Hk; simpl.
  - done.
  - unfold bind. rewrite q_state_eq.
    2:{ rewrite lookup_app_r by lia. by replace (k - length pre)%nat with O by lia. }
    destruct (rmap (q_value gamma mdp value_function k) (range action_space))
      as [vs|e|]; simpl; try done.
    replace (<[k := vs]> (pre ++ replicate action_space 0
                              :: replicate n (replicate action_space 0)))
      with ((pre ++ [vs]) ++ replicate n (replicate action_space 0)).
    2:{ rewrite insert_app_r_alt by lia.
        replace (k - length pre)%nat with O by lia. simpl.
        by rewrite <- app_assoc. }
    rewrite IH by (rewrite length_app; simpl; lia).
    destruct (rmap _ (seq (S k) n)); simpl; try done.
    by rewrite <- app_assoc.
Qed.

(** The triple loop leaves in [Q_vals] the table of the per-pair values, and
    raises where the first of them raises. *)
Lemma action_values_eq gamma value_function state_space action_space mdp :
  action_values gamma value_function state_space action_space mdp
  = (let? rs := q_rows gamma mdp value_function state_space action_space in
     Ok (Ndarray2 action_space rs), mdp).
Proof.
  unfold action_values, q_rows, range, np_zeros2, np_zeros.
  by rewrite <- (action_values_from _ _ _ _ _ state_space 0 []).
Qed.

(** ** Lists of results, comparisons and maxima *)

Lemma rmap_Forall2 {A B} (f : A -> result B) xs ys :
  rmap f xs = Ok ys <-> Forall2 (fun x y => f x = Ok y) xs ys.
Proof.
  revert ys. induction xs as [|x xs IH]; intros ys; simpl.
  - split; [intros [= <-]; constructor | by inversion 1].
  - rewrite rbind_Ok. split.
    + intros (y & Hy & Hrest). apply rbind_Ok in Hrest as (ys' & Hys & [= <-]).
      constructor; [done | by apply IH].
    + inversion 1 as [|? y ? ys' Hy Hys]; subst.
      exists y. split; [done|]. apply IH in Hys. by rewrite Hys.
Qed.

Lemma rmap_length {A B} (f : A -> result B) xs ys :
  rmap f xs = Ok ys -> length ys = length xs.
Proof. intros H%rmap_Forall2. symmetry. by eapply Forall2_length. Qed.

Lemma rmap_lookup {A B} (f : A -> result B) xs ys i x :
  rmap f xs = Ok ys -> xs !! i = Some x ->
  exists y, ys !! i = Some y /\ f x = Ok y.
Proof.
  intros H%rmap_Forall2 Hx.
  destruct (Forall2_lookup_l _ _ _ _ _ H Hx) as (y & ? & ?). eauto.
Qed.

Lemma rmap_range_lookup {B} (f : nat -> result B) n ys i :
  rmap f (range n) = Ok ys -> (i < n)%nat ->
  exists y, ys !! i = Some y /\ f i = Ok y.
Proof.
  intros H Hi. eapply rmap_lookup; [done|].
  unfold range. by rewrite lookup_seq_lt.
Qed.

Lemma rmap_total {A B} (f : A -> result B) xs :
  (forall x, x ∈ xs -> exists y, f x = Ok y) -> exists ys, rmap f xs = Ok ys.
Proof.
  induction xs as [|x xs IH]; intros H; simpl.
  - eauto.
  - destruct (H x) as [y Hy]; [left|]. rewrite Hy. simpl.
    destruct IH as [ys Hys]; [intros; apply H; by right|].
    rewrite Hys. simpl. eauto.
Qed.

Lemma Qcltb_lt (x y : Qc) : Qcltb x y = true <-> x < y.
Proof. unfold Qcltb, Qclt, Qlt. apply Z.ltb_lt. Qed.

Lemma Qcltb_ge (x y : Qc) : Qcltb x y = false <-> y <= x.
Proof. unfold Qcltb, Qcle, Qle. apply Z.ltb_ge. Qed.

Lemma Qcmax_ub_l (x y : Qc) : x <= Qcmax x y.
Proof.
  unfold Qcmax. destruct (Qcltb x y) eqn:E.
  - apply Qclt_le_weak. by apply Qcltb_lt.
  - apply Qcle_refl.
Qed.

Lemma Qcmax_ub_r (x y : Qc) : y <= Qcmax x y.
Proof.
  unfold Qcmax. destruct (Qcltb x y) eqn:E.
  - apply Qcle_refl.
  - by apply Qcltb_ge.
Qed.

Lemma foldl_Qcmax_ub (a : list Qc) :
  forall x, x <= foldl Qcmax x a /\ (forall y, y ∈ a -> y <= foldl Qcmax x a).
Proof.
  induction a as [|z a IH]; intros x; simpl.
  - split; [apply Qcle_refl | by inversion 1].
  - destruct (IH (Qcmax x z)) as [H1 H2]. split.
    + eapply Qcle_trans; [apply Qcmax_ub_l | exact H1].
    + intros y Hy. apply elem_of_cons in Hy as [->|Hy]; [|by apply H2].
      eapply Qcle_trans; [apply Qcmax_ub_r | exact H1].
Qed.

Lemma foldl_Qcmax_elem (a : list Qc) :
  forall x, foldl Qcmax x a = x \/ foldl Qcmax x a ∈ a.
Proof.
  induction a as [|z a IH]; intros x; simpl.
  - by left.
  - destruct (IH (Qcmax x z)) as [H|H].
    + rewrite H. unfold Qcmax. destruct (Qcltb x z); [right; left | by left].
    + right. by right.
Qed.

(** [np.max] returns an entry of the array that no entry exceeds. *)
Lemma np_max_spec (a : list Qc) m :
  np_max a = Ok m -> m ∈ a /\ forall y, y ∈ a -> y <= m.
Proof.
  destruct a as [|x a]; simpl; [done|]. intros [= <-]. split.
  - destruct (foldl_Qcmax_elem a x) as [->|H]; [left | by right].
  - intros y Hy. destruct (foldl_Qcmax_ub a x) as [H1 H2].
    apply elem_of_cons in Hy as [->|Hy]; auto.
Qed.

(** ** The accumulating loops compute the Bellman sums *)

Lemma accumulate_cons gamma V o outs acc :
  accumulate gamma V (o :: outs) acc
  = let? x := backup_term gamma V o in accumulate gamma V outs (acc + x).
Proof. unfold accumulate. simpl. by destruct (backup_term gamma V o). Qed.

Lemma bellman_sum_cons gamma V o outs :
  bellman_sum gamma V (o :: outs)
  = let? x := backup_term gamma V o in
    let? t := bellman_sum gamma V outs in Ok (x + t).
Proof.
  unfold bellman_sum. simpl.
  destruct (backup_term gamma V o); simpl; try done.
  by destruct (rmap _ outs).
Qed.

Lemma accumulate_sum gamma V outs :
  forall acc,
    accumulate gamma V outs acc
    = let? t := bellman_sum gamma V outs in Ok (acc + t).
Proof.
  induction outs as [|o outs IH]; intros acc.
  - unfold accumulate, bellman_sum. simpl. f_equal. ring.
  - rewrite accumulate_cons, bellman_sum_cons.
    destruct (backup_term gamma V o) as [x|e|]; simpl; try done.
    rewrite IH. destruct (bellman_sum gamma V outs); simpl; try done.
    f_equal. ring.
Qed.

Lemma accumulate_0 gamma V outs :
  accumulate gamma V outs 0 = bellman_sum gamma V outs.
Proof.
  rewrite accumulate_sum.
  destruct (bellman_sum gamma V outs); simpl; try done. f_equal. ring.
Qed.

(** The entries that the sweeps compute are the sums of the specification. *)
Lemma pe_value_bellman pi gamma mdp V s :
  pe_value pi gamma mdp V s = bellman_expectation pi gamma mdp V s.
Proof.
  unfold pe_value, bellman_expectation.
  destruct (dict_getitem mdp s); simpl; try done.
  destruct (dict_getitem pi s); simpl; try done.
  destruct (dict_getitem _ _); simpl; try done.
  apply accumulate_0.
Qed.

Lemma q_value_bellman gamma mdp V s a :
  q_value gamma mdp V s a = bellman_q gamma mdp V s a.
Proof.
  unfold q_value, bellman_q.
  destruct (dict_getitem mdp s); simpl; try done.
  destruct (dict_getitem _ _); simpl; try done.
  apply accumulate_0.
Qed.

(** ** Policy evaluation *)

Lemma pe_loop_S pi gamma theta fuel state_space state_values mdp :
  pe_loop pi gamma theta (S fuel) state_space state_values mdp
  = match rmap (pe_value pi gamma mdp state_values) (range state_space) with
    | Ok current_values =>
        match np_max (np_absolute (np_sub state_values current_values)) with
        | Ok delta =>
            if Qcltb delta theta then (Ok current_values, mdp)
            else pe_loop pi gamma theta fuel state_space current_values mdp
        | Raise e => (Raise e, mdp)
        | OutOfFuel => (OutOfFuel, mdp)
        end
    | Raise e => (Raise e, mdp)
    | OutOfFuel => (OutOfFuel, mdp)
    end.
Proof.
  simpl. unfold bind. rewrite pe_sweep_eq.
  destruct (rmap _ _) as [cv|e|]; try done.
  unfold lift. destruct (np_max _) as [delta|e|]; try done.
  by destruct (Qcltb delta theta).
Qed.

Lemma policy_evaluation_eq pi gamma theta fuel mdp :
  policy_evaluation pi gamma theta fuel mdp
  = pe_loop pi gamma theta fuel (size mdp) (np_zeros (size mdp)) mdp.
Proof. done. Qed.

(** The value that the loop returns is the sweep of the array [prev] of the
    round before, and the two differ by less than [theta] everywhere. *)
Lemma pe_loop_Ok pi gamma theta fuel state_space mdp V :
  forall state_values,
    (pe_loop pi gamma theta fuel state_space state_values mdp).1 = Ok V ->
    exists prev delta,
      rmap (pe_value pi gamma mdp prev) (range state_space) = Ok V /\
      np_max (np_absolute (np_sub prev V)) = Ok delta /\
      delta < theta /\
      (length state_values = state_space -> length prev = state_space).
Proof.
  induction fuel as [|fuel IH]; intros sv; [done|].
  rewrite pe_loop_S.
  destruct (rmap _ _) as [cv|e|] eqn:Hcv; try done.
  destruct (np_max _) as [delta|e|] eqn:Hmax; try done.
  destruct (Qcltb delta theta) eqn:Hlt.
  - simpl. intros [= <-]. exists sv, delta.
    apply Qcltb_lt in Hlt. done.
  - intros (prev & d & H1 & H2 & H3 & H4)%IH. exists prev, d.
    repeat split; try done. intros _. apply H4.
    apply rmap_length in Hcv. unfold range in Hcv.
    by rewrite length_seq in Hcv.
Qed.

Lemma np_max_close V W delta :
  length V = length W ->
  np_max (np_absolute (np_sub V W)) = Ok delta ->
  close V W delta /\ 0 <= delta.
Proof.
  intros Hlen [Hin Hub]%np_max_spec. split.
  - split; [done|]. intros j v w Hv Hw. apply Hub.
    apply list_elem_of_lookup. exists j.
    unfold np_absolute, np_sub.
    rewrite list_lookup_fmap, lookup_zip_with, Hv. simpl. by rewrite Hw.
  - unfold np_absolute in Hin. apply list_elem_of_fmap in Hin as (x & -> & _).
    apply Qcabs_nonneg.
Qed.

(** ** Policy improvement *)

Lemma argmax_scan_spec (a : list Qc) :
  forall pre best best_i,
    pre !! best_i = Some best ->
    (forall j x, pre !! j = Some x -> x <= best) ->
    (forall j x, (j < best_i)%nat -> pre !! j = Some x -> x < best) ->
    first_argmax (pre ++ a) (argmax_scan best best_i (length pre) a).
Proof.
  induction a as [|x a IH]; intros pre best best_i Hbest Hub Hfirst; simpl.
  - rewrite app_nil_r. by exists best.
  - replace (pre ++ x :: a) with ((pre ++ [x]) ++ a)
      by (by rewrite <- app_assoc).
    replace (S (length pre)) with (length (pre ++ [x]))
      by (rewrite length_app; simpl; lia).
    destruct (Qcltb best x) eqn:E.
    + apply Qcltb_lt in E. apply IH.
      * rewrite lookup_app_r by lia.
        by replace (length pre - length pre)%nat with O by lia.
      * intros j y Hy. apply lookup_app_Some in Hy as [Hy|[_ Hy]].
        -- apply Qclt_le_weak, Qcle_lt_trans with best; [by eapply Hub|done].
        -- apply list_lookup_singleton_Some in Hy as [_ <-].
           apply Qcle_refl.
      * intros j y Hj Hy. rewrite lookup_app_l in Hy by done.
        apply Qcle_lt_trans with best; [by eapply Hub|done].
    + apply Qcltb_ge in E. apply IH.
      * rewrite lookup_app_l; [done|]. by eapply lookup_lt_Some.
      * intros j y Hy. apply lookup_app_Some in Hy as [Hy|[_ Hy]]; eauto.
        by apply list_lookup_singleton_Some in Hy as [_ <-].
      * intros j y Hj Hy. apply (Hfirst j); [done|].
        rewrite lookup_app_l in Hy; [done|].
        apply lookup_lt_Some in Hbest. lia.
Qed.

Lemma np_argmax_spec (row : list Qc) a :
  np_argmax row = Ok a -> first_argmax row a.
Proof.
  destruct row as [|x row]; simpl; [done|]. intros [= <-].
  apply (argmax_scan_spec row [x] x 0%nat).
  - done.
  - intros [|j] y; simpl; [intros [= <-]; apply Qcle_refl | done].
  - lia.
Qed.

Lemma dict_of_pairs_zip_seq {V} (l : list V) :
  forall k (d : gmap nat V) i,
    foldl (fun d kv => <[kv.1 := kv.2]> d) d (zip (seq k (length l)) l) !! i
    = if decide (k <= i < k + length l)%nat then l !! (i - k)%nat else d !! i.
Proof.
  induction l as [|x l IH]; intros k d i; simpl.
  - case_decide; [lia | done].
  - rewrite IH. repeat case_decide; try lia.
    + destruct (i - k)%nat as [|n] eqn:E; [lia|]. simpl. f_equal. lia.
    + assert (i = k) as -> by lia.
      rewrite lookup_insert_eq. by replace (k - k)%nat with O by lia.
    + rewrite lookup_insert_ne by lia. done.
Qed.

(** The dictionary built from [enumerate(a)] maps [i] to [a[i]]. *)
Lemma dict_of_enumerate_lookup {V} (l : list V) i :
  dict_of_pairs (enumerate l) !! i = l !! i.
Proof.
  unfold dict_of_pairs, enumerate. rewrite dict_of_pairs_zip_seq.
  case_decide.
  - f_equal. lia.
  - rewrite lookup_empty. symmetry. apply lookup_ge_None. lia.
Qed.

Lemma dict_of_enumerate_dom {V} (l : list V) :
  dom (dict_of_pairs (enumerate l)) = set_seq 0 (length l).
Proof.
  apply set_eq. intros i.
  rewrite elem_of_dom, dict_of_enumerate_lookup, elem_of_set_seq.
  rewrite lookup_lt_is_Some. lia.
Qed.

Lemma policy_constructor_Ok Q_vals pi :
  policy_constructor Q_vals = Ok pi ->
  ncols Q_vals <> 0%nat /\
  exists greedy,
    rmap np_argmax (rows Q_vals) = Ok greedy /\
    pi = dict_of_pairs (enumerate greedy).
Proof.
  unfold policy_constructor, np_argmax_axis1.
  destruct (ncols Q_vals =? 0)%nat eqn:E; simpl; [done|].
  apply Nat.eqb_neq in E.
  intros (greedy & Hg & [= <-])%rbind_Ok. eauto.
Qed.

Lemma policy_improvement_eq value_function gamma mdp :
  policy_improvement value_function gamma mdp
  = (let? acts0 := dict_getitem mdp 0%nat in
     let? rs := q_rows gamma mdp value_function (size mdp) (size acts0) in
     policy_constructor (Ndarray2 (size acts0) rs), mdp).
Proof.
  unfold policy_improvement, bind, mdp_len, mdp_getitem, dict_getitem, lift.
  destruct (mdp !! 0%nat) as [acts0|]; simpl; [|done].
  rewrite action_values_eq.
  by destruct (q_rows _ _ _ _ _).
Qed.

Lemma q_rows_lookup gamma mdp V state_space action_space rs s :
  q_rows gamma mdp V state_space action_space = Ok rs ->
  (s < state_space)%nat ->
  exists row, rs !! s = Some row /\ length row = action_space /\
    forall a, (a < action_space)%nat ->
      exists q, row !! a = Some q /\ bellman_q gamma mdp V s a = Ok q.
Proof.
  intros Hrs Hs. unfold q_rows in Hrs.
  destruct (rmap_range_lookup _ _ _ _ Hrs Hs) as (row & Hrow & Hq).
  exists row. split; [done|]. split.
  - apply rmap_length in Hq. unfold range in Hq. by rewrite length_seq in Hq.
  - intros a Ha.
    destruct (rmap_range_lookup _ _ _ _ Hq Ha) as (q & ? & Hqa).
    rewrite q_value_bellman in Hqa. eauto.
Qed.

Lemma first_argmax_lowest (f : nat -> result Qc) n row a :
  length row = n ->
  (forall a', (a' < n)%nat -> exists q, row !! a' = Some q /\ f a' = Ok q) ->
  first_argmax row a ->
  lowest_argmax f n a.
Proof.
  intros Hlen Hrow (m & Hm & Hub & Hfirst).
  assert (a < n)%nat as Ha by (rewrite <- Hlen; by eapply lookup_lt_Some).
  split; [done|]. exists m. repeat split.
  - destruct (Hrow a Ha) as (q & Hq & Hf). congruence.
  - intros a' Ha'. destruct (Hrow a' Ha') as (q' & Hq' & Hf). eauto.
  - intros a' Ha'. destruct (Hrow a') as (q' & Hq' & Hf); [lia|]. eauto.
Qed.

(** The policy built from a table of action values is greedy for it. *)
Lemma policy_constructor_greedy gamma mdp V action_space rs pi :
  q_rows gamma mdp V (size mdp) action_space = Ok rs ->
  policy_constructor (Ndarray2 action_space rs) = Ok pi ->
  greedy_policy gamma mdp V action_space pi /\
  dom pi = set_seq 0 (size mdp).
Proof.
  intros Hrs (Hnc & greedy & Hg & ->)%policy_constructor_Ok. simpl in *.
  pose proof (rmap_length _ _ _ Hg) as Hlen.
  pose proof (rmap_length _ _ _ Hrs) as Hlen'.
  unfold range in Hlen'. rewrite length_seq in Hlen'.
  split.
  - intros s Hs.
    destruct (q_rows_lookup _ _ _ _ _ _ _ Hrs Hs) as (row & Hrow & Hl & Hq).
    destruct (rmap_lookup _ _ _ _ _ Hg Hrow) as (a & Ha & Harg).
    exists a. rewrite dict_of_enumerate_lookup. split; [done|].
    apply np_argmax_spec in Harg. by eapply first_argmax_lowest.
  - rewrite dict_of_enumerate_dom. congruence.
Qed.

Lemma np_getitem_total (a : list Qc) i :
  (- Z.of_nat (length a) <= i < Z.of_nat (length a))%Z ->
  exists x, np_getitem a i = Ok x.
Proof.
  intros Hi. unfold np_getitem.
  set (j := if (0 <=? i)%Z then i else (Z.of_nat (length a) + i)%Z).
  assert (0 <= j < Z.of_nat (length a))%Z as Hj.
  { unfold j. destruct (0 <=? i)%Z eqn:E; [apply Z.leb_le in E|apply Z.leb_gt in E]; lia. }
  destruct (j <? 0)%Z eqn:E; [apply Z.ltb_lt in E; lia|].
  destruct (lookup_lt_is_Some_2 a (Z.to_nat j)) as [x Hx]; [lia|].
  rewrite Hx. eauto.
Qed.

Lemma bellman_sum_total gamma V outs :
  Forall (fun o => (- Z.of_nat (length V) <= state_prime o
                    < Z.of_nat (length V))%Z) outs ->
  exists t, bellman_sum gamma V outs = Ok t.
Proof.
  induction 1 as [|o outs Ho _ [t IH]].
  - by eexists.
  - rewrite bellman_sum_cons. unfold backup_term.
    destruct (np_getitem_total V _ Ho) as [v ->]. simpl.
    rewrite IH. simpl. eauto.
Qed.

Lemma action_space_of_Some mdp :
  action_space_of mdp <> 0%nat ->
  exists acts0, mdp !! 0%nat = Some acts0 /\ size acts0 = action_space_of mdp.
Proof.
  unfold action_space_of. destruct (mdp !! 0%nat) as [acts0|]; simpl.
  - eauto.
  - by rewrite map_size_empty.
Qed.

Lemma q_rows_total gamma mdp V :
  well_shaped mdp (length V) ->
  exists rs, q_rows gamma mdp V (size mdp) (action_space_of mdp) = Ok rs.
Proof.
  intros [_ Hshape]. apply rmap_total. intros s Hs.
  unfold range in Hs. apply elem_of_seq in Hs.
  destruct (Hshape s) as (acts & Hacts & Hact); [lia|].
  apply rmap_total. intros a Ha. unfold range in Ha. apply elem_of_seq in Ha.
  destruct (Hact a) as (outs & Houts & Hin); [lia|].
  rewrite q_value_bellman. unfold bellman_q, dict_getitem.
  rewrite Hacts. simpl. rewrite Houts. simpl.
  by apply bellman_sum_total.
Qed.

Lemma policy_constructor_total action_space rs :
  action_space <> 0%nat ->
  Forall (fun row : list Qc => length row = action_space) rs ->
  exists pi, policy_constructor (Ndarray2 action_space rs) = Ok pi.
Proof.
  intros HA Hrows. unfold policy_constructor, np_argmax_axis1. simpl.
  apply Nat.eqb_neq in HA. rewrite HA.
  destruct (rmap_total np_argmax rs) as [greedy ->]; [|simpl; eauto].
  intros row Hrow. rewrite List.Forall_forall in Hrows.
  apply list_elem_of_In in Hrow. specialize (Hrows row Hrow).
  destruct row; simpl in *; [apply Nat.eqb_neq in HA; lia | eauto].
Qed.

Lemma q_rows_lengths gamma mdp V state_space action_space rs :
  q_rows gamma mdp V state_space action_space = Ok rs ->
  length rs = state_space /\
  Forall (fun row : list Qc => length row = action_space) rs.
Proof.
  intros Hrs. split.
  - apply rmap_length in Hrs. unfold range in Hrs.
    by rewrite length_seq in Hrs.
  - apply rmap_Forall2 in Hrs. apply List.Forall_forall. intros row Hrow.
    apply list_elem_of_In, list_elem_of_lookup in Hrow as [s Hs].
    destruct (Forall2_lookup_r _ _ _ _ _ Hrs Hs) as (s' & _ & Hq).
    apply rmap_length in Hq. unfold range in Hq.
    by rewrite length_seq in Hq.
Qed.

(** The walk has the shape of the data model, for arrays of five values. *)
Lemma slippery_bandit_walk_well_shaped : well_shaped slippery_bandit_walk 5.
Proof.
  split; [by vm_compute|].
  intros s Hs. vm_compute in Hs.
  do 5 (destruct s as [|s];
        [ eexists; split; [vm_compute; reflexivity|];
          intros a Ha; vm_compute in Ha;
          do 2 (destruct a as [|a];
                [ eexists; split; [vm_compute; reflexivity|];
                  repeat constructor; done |]);
          lia |]).
  lia.
Qed.

(** ** Value iteration *)

Lemma np_max_axis1_Ok action_space rs best :
  np_max_axis1 (Ndarray2 action_space rs) = Ok best ->
  action_space <> 0%nat /\ rmap np_max rs = Ok best.
Proof.
  unfold np_max_axis1. simpl.
  destruct (action_space =? 0)%nat eqn:E; [done|].
  by apply Nat.eqb_neq in E.
Qed.

Lemma vi_loop_S gamma theta fuel state_space action_space vf mdp :
  vi_loop gamma theta (S fuel) state_space action_space vf mdp
  = match q_rows gamma mdp vf state_space action_space with
    | Ok rs =>
        match np_max_axis1 (Ndarray2 action_space rs) with
        | Ok best =>
            match np_max (np_absolute (np_sub vf best)) with
            | Ok delta =>
                if Qcltb delta theta
                then (Ok (Ndarray2 action_space rs, vf), mdp)
                else vi_loop gamma theta fuel state_space action_space
                             best mdp
            | Raise e => (Raise e, mdp)
            | OutOfFuel => (OutOfFuel, mdp)
            end
        | Raise e => (Raise e, mdp)
        | OutOfFuel => (OutOfFuel, mdp)
        end
    | Raise e => (Raise e, mdp)
    | OutOfFuel => (OutOfFuel, mdp)
    end.
Proof.
  simpl. unfold bind. rewrite action_values_eq.
  destruct (q_rows _ _ _ _ _) as [rs|e|]; simpl; try done.
  unfold lift. destruct (np_max_axis1 _) as [best|e|]; try done.
  destruct (np_max _) as [delta|e|]; try done.
  by destruct (Qcltb delta theta).
Qed.

(** What the loop of [value_iteration] hands over when it stops: the table
    [Q_vals] of the last sweep and the array [V] that this sweep read.  [V]
    is the initial array if the loop stops in its first sweep; otherwise it
    is the row maximum of the table of the sweep before, which failed the
    convergence test. *)
Lemma vi_loop_Ok gamma theta fuel state_space action_space mdp Q_vals V :
  forall vf,
    (vi_loop gamma theta fuel state_space action_space vf mdp).1
    = Ok (Q_vals, V) ->
    exists rs best delta,
      q_rows gamma mdp V state_space action_space = Ok rs /\
      Q_vals = Ndarray2 action_space rs /\
      np_max_axis1 Q_vals = Ok best /\
      np_max (np_absolute (np_sub V best)) = Ok delta /\
      delta < theta /\
      (V = vf \/
       exists V_prev rs_prev delta_prev,
         q_rows gamma mdp V_prev state_space action_space = Ok rs_prev /\
         np_max_axis1 (Ndarray2 action_space rs_prev) = Ok V /\
         np_max (np_absolute (np_sub V_prev V)) = Ok delta_prev /\
         theta <= delta_prev).
Proof.
  induction fuel as [|fuel IH]; intros vf; [done|].
  rewrite vi_loop_S.
  destruct (q_rows gamma mdp vf state_space action_space)
    as [rs|e|] eqn:Hrs; try done.
  destruct (np_max_axis1 (Ndarray2 action_space rs))
    as [best|e|] eqn:Hbest; try done.
  destruct (np_max (np_absolute (np_sub vf best)))
    as [delta|e|] eqn:Hmax; try done.
  destruct (Qcltb delta theta) eqn:Hlt.
  - simpl. intros [= <- <-]. exists rs, best, delta.
    apply Qcltb_lt in Hlt. repeat split; try done. by left.
  - apply Qcltb_ge in Hlt.
    intros (rs' & best' & delta' & H1 & H2 & H3 & H4 & H5 & Hprev)%IH.
    exists rs', best', delta'. repeat split; try done.
    right. destruct Hprev as [->|Hprev]; [|done].
    by exists vf, rs, delta.
Qed.

Lemma value_iteration_eq gamma theta fuel mdp :
  value_iteration gamma theta fuel mdp
  = match mdp !! 0%nat with
    | Some acts0 =>
        match vi_loop gamma theta fuel (size mdp) (size acts0)
                      (np_zeros (size mdp)) mdp with
        | (Ok (Q_vals, V), _) =>
            (let? pi := policy_constructor Q_vals in Ok (pi, V), mdp)
        | (Raise e, _) => (Raise e, mdp)
        | (OutOfFuel, _) => (OutOfFuel, mdp)
        end
    | None => (Raise KeyError, mdp)
    end.
Proof.
  unfold value_iteration, bind, mdp_len, mdp_getitem.
  destruct (mdp !! 0%nat) as [acts0|]; [|done].
  pose proof (read_only_vi_loop gamma theta fuel (size mdp) (size acts0)
                (np_zeros (size mdp)) mdp) as Hro.
  destruct (vi_loop _ _ _ _ _ _ _) as [[[Q V]|e|] mdp']; simpl in Hro; subst;
    try done.
  unfold lift, ret. simpl. by destruct (policy_constructor Q).
Qed.

Lemma value_iteration_Ok gamma theta fuel mdp pi V :
  (value_iteration gamma theta fuel mdp).1 = Ok (pi, V) ->
  exists acts0 Q_vals,
    mdp !! 0%nat = Some acts0 /\
    size acts0 = action_space_of mdp /\
    (vi_loop gamma theta fuel (size mdp) (action_space_of mdp)
             (np_zeros (size mdp)) mdp).1 = Ok (Q_vals, V) /\
    policy_constructor Q_vals = Ok pi.
Proof.
  rewrite value_iteration_eq. unfold action_space_of.
  destruct (mdp !! 0%nat) as [acts0|]; [|done]. simpl.
  destruct (vi_loop _ _ _ _ _ _ _) as [[[Q V']|e|] mdp']; simpl; try done.
  intros (pi' & Hpi & [= <- <-])%rbind_Ok. by exists acts0, Q.
Qed.

Lemma np_max_axis1_length action_space rs best :
  np_max_axis1 (Ndarray2 action_space rs) = Ok best ->
  length best = length rs.
Proof. intros [_ H]%np_max_axis1_Ok. by eapply rmap_length. Qed.

Lemma vi_loop_length gamma theta fuel mdp Q_vals V state_space action_space :
  (vi_loop gamma theta fuel state_space action_space
           (np_zeros state_space) mdp).1 = Ok (Q_vals, V) ->
  length V = state_space.
Proof.
  intros (rs & best & delta & _ & _ & _ & _ & _ & Hprev)%vi_loop_Ok.
  destruct Hprev as [->|(V_prev & rs_prev & d & Hrs & Hmax & _)].
  - apply length_replicate.
  - apply np_max_axis1_length in Hmax.
    destruct (q_rows_lengths _ _ _ _ _ _ Hrs). congruence.
Qed.

(** C1, as amended.  The value function that [value_iteration] returns is
    the array that the final sweep read, not the result of the final update:
    the table [Q_vals] of the final sweep, from which the returned policy is
    built, is computed from the returned [V]; [V] is all zeros when the loop
    stops in its first sweep and otherwise it is the row maximum of the
    table of the sweep before the final one; and the row maxima of the final
    table differ from [V] by less than [theta] in every state. *)
Theorem value_iteration_returns_sweep_input gamma theta fuel mdp pi V :
  (value_iteration gamma theta fuel mdp).1 = Ok (pi, V) ->
  exists Q_vals best,
    (vi_loop gamma theta fuel (size mdp) (action_space_of mdp)
             (np_zeros (size mdp)) mdp).1 = Ok (Q_vals, V) /\
    (action_values gamma V (size mdp) (action_space_of mdp) mdp).1
    = Ok Q_vals /\
    policy_constructor Q_vals = Ok pi /\
    np_max_axis1 Q_vals = Ok best /\
    (forall s v m,
       V !! s = Some v -> best !! s = Some m -> Qcabs (v - m) < theta) /\
    (V = np_zeros (size mdp) \/
     exists V_prev Q_prev,
       (action_values gamma V_prev (size mdp) (action_space_of mdp) mdp).1
       = Ok Q_prev /\
       np_max_axis1 Q_prev = Ok V).
Proof.
  intros (acts0 & Q_vals & H0 & HA & Hloop & Hpi)%value_iteration_Ok.
  pose proof (vi_loop_length _ _ _ _ _ _ _ _ Hloop) as HlenV.
  pose proof Hloop as
    (rs & best & delta & Hrs & -> & Hbest & Hmax & Hlt & Hprev)%vi_loop_Ok.
  exists (Ndarray2 (action_space_of mdp) rs), best.
  rewrite action_values_eq, Hrs. simpl. repeat split; try done.
  - intros s v m Hv Hm.
    destruct (np_max_close V best delta) as [[_ Hclose] _]; [|done|].
    + apply np_max_axis1_length in Hbest.
      destruct (q_rows_lengths _ _ _ _ _ _ Hrs). congruence.
    + eapply Qcle_lt_trans; [by eapply Hclose | done].
  - destruct Hprev as [->|(V_prev & rs_prev & d & Hrs' & Hmax' & _)].
    + by left.
    + right. exists V_prev, (Ndarray2 (action_space_of mdp) rs_prev).
      by rewrite action_values_eq, Hrs'.
Qed.

Lemma value_iteration_returns_sweep_input_witness :
  exists pi V,
    (value_iteration 1 theta_default 60 slippery_bandit_walk).1 = Ok (pi, V) /\
    exists Q_vals best,
      (vi_loop 1 theta_default 60 (size slippery_bandit_walk)
               (action_space_of slippery_bandit_walk)
               (np_zeros (size slippery_bandit_walk))
               slippery_bandit_walk).1 = Ok (Q_vals, V) /\
      (action_values 1 V (size slippery_bandit_walk)
                     (action_space_of slippery_bandit_walk)
                     slippery_bandit_walk).1 = Ok Q_vals /\
      policy_constructor Q_vals = Ok pi /\
      np_max_axis1 Q_vals = Ok best /\
      (forall s v m,
         V !! s = Some v -> best !! s = Some m ->
         Qcabs (v - m) < theta_default) /\
      (V = np_zeros (size slippery_bandit_walk) \/
       exists V_prev Q_prev,
         (action_values 1 V_prev (size slippery_bandit_walk)
                        (action_space_of slippery_bandit_walk)
                        slippery_bandit_walk).1 = Ok Q_prev /\
         np_max_axis1 Q_prev = Ok V).
Proof.
  eexists _, _. split; [vm_compute; reflexivity|].
  apply (value_iteration_returns_sweep_input 1 theta_default 60
           slippery_bandit_walk).
  vm_compute; reflexivity.
Defined.

(** C1 as stated fails.  On the one-state MDP whose single outcome is
    [(1.0, 0, 0.5, True)], with [gamma = 1] and [theta = 1], the first sweep
    computes [Q_vals = [[0.5]]], the test [|0 - 0.5| < 1] stops the loop, and
    [value_iteration] returns the policy [{0: 0}] with the value function
    [[0]]: the returned value of state 0 is 0, the maximum of the final
    table's row is 0.5. *)
Lemma value_iteration_final_update_counterexample :
  exists Q_vals pi V,
    (vi_loop 1 1 1 1 1 (np_zeros 1) (one_state_mdp (dec 1 2) true)).1
    = Ok (Q_vals, V) /\
    (value_iteration 1 1 1 (one_state_mdp (dec 1 2) true)).1 = Ok (pi, V) /\
    policy_constructor Q_vals = Ok pi /\
    pi = one_state_policy /\
    V = [0] /\
    np_max_axis1 Q_vals = Ok [dec 1 2] /\
    np_max_axis1 Q_vals <> Ok V.
Proof.
  eexists _, _, _.
  split; [vm_compute; reflexivity|].
  split; [vm_compute; reflexivity|].
  split; [vm_compute; reflexivity|].
  split; [vm_compute; reflexivity|].
  split; [reflexivity|].
  split; [vm_compute; reflexivity|].
  vm_compute. intros [=].
Qed.

(** ** The two single-state scenarios *)

Lemma one_state_mdp_size r t : size (one_state_mdp r t) = 1%nat.
Proof.
  unfold one_state_mdp, dict_of_pairs. simpl.
  by rewrite map_size_insert_None, map_size_empty by apply lookup_empty.
Qed.

Lemma one_state_pe_value gamma r t v :
  rmap (pe_value one_state_policy gamma (one_state_mdp r t) [v]) (range 1)
  = Ok [0 + 1 * (r + gamma * v * of_bool (negb t))].
Proof.
  unfold pe_value, range, one_state_mdp, one_state_policy, dict_of_pairs.
  simpl. unfold dict_getitem. rewrite !lookup_insert_eq. simpl.
  rewrite lookup_insert_eq. simpl. reflexivity.
Qed.

(** C7.  On the one-state, one-action MDP whose single outcome is
    [(1, 0, 0, True)], with the policy [{0: 0}] and any [theta > 0] (and any
    [gamma]), [policy_evaluation] returns [[0]] after exactly one sweep: the
    loop body runs once (one unit of fuel is enough, and also any larger
    amount gives the same result) and it cannot return before it has
    run once (no fuel, no result). *)
Theorem single_state_converges_in_one_sweep gamma theta :
  0 < theta ->
  policy_evaluation one_state_policy gamma theta 1 (one_state_mdp 0 true)
  = (Ok [0], one_state_mdp 0 true) /\
  (forall fuel,
     policy_evaluation one_state_policy gamma theta (S fuel)
                       (one_state_mdp 0 true)
     = (Ok [0], one_state_mdp 0 true)) /\
  (policy_evaluation one_state_policy gamma theta 0 (one_state_mdp 0 true)).1
  = OutOfFuel.
Proof.
  intros Htheta.
  assert (forall fuel,
            policy_evaluation one_state_policy gamma theta (S fuel)
                              (one_state_mdp 0 true)
            = (Ok [0], one_state_mdp 0 true)) as H.
  { intros fuel. rewrite policy_evaluation_eq, one_state_mdp_size.
    rewrite pe_loop_S. change (np_zeros 1) with [Q2Qc 0].
    rewrite one_state_pe_value.
    replace (0 + 1 * (0 + gamma * 0 * of_bool (negb true))) with (Q2Qc 0)
      by (unfold of_bool, negb; ring).
    unfold np_sub, np_absolute, np_max. cbn [zip_with fmap list_fmap foldl].
    replace (Qcabs (0 - 0)) with (Q2Qc 0) by (apply Qc_is_canon; reflexivity).
    apply Qcltb_lt in Htheta. rewrite Htheta. reflexivity. }
  split; [apply H|]. split; [apply H|]. reflexivity.
Qed.

Lemma single_state_converges_in_one_sweep_witness :
  0 < theta_default /\
  policy_evaluation one_state_policy 1 theta_default 1 (one_state_mdp 0 true)
  = (Ok [0], one_state_mdp 0 true) /\
  (policy_evaluation one_state_policy 1 theta_default 0
                     (one_state_mdp 0 true)).1 = OutOfFuel.
Proof.
  assert (0 < theta_default) as Htheta by (by vm_compute).
  destruct (single_state_converges_in_one_sweep 1 theta_default Htheta)
    as (H1 & _ & H0).
  split; [exact Htheta|]. split; [exact H1 | exact H0].
Defined.

(** ** Policy iteration *)

Lemma pi_loop_S gamma theta fuel fuel_pe state_space current_policy mdp :
  pi_loop gamma theta (S fuel) fuel_pe state_space current_policy mdp
  = match (policy_evaluation current_policy gamma theta fuel_pe mdp).1 with
    | Ok value_function =>
        match (policy_improvement value_function gamma mdp).1 with
        | Ok improved_policy =>
            match restrict_to_states state_space improved_policy with
            | Ok candidate =>
                if bool_decide (current_policy = candidate)
                then (Ok (improved_policy, value_function), mdp)
                else pi_loop gamma theta fuel fuel_pe state_space
                             improved_policy mdp
            | Raise e => (Raise e, mdp)
            | OutOfFuel => (OutOfFuel, mdp)
            end
        | Raise e => (Raise e, mdp)
        | OutOfFuel => (OutOfFuel, mdp)
        end
    | Raise e => (Raise e, mdp)
    | OutOfFuel => (OutOfFuel, mdp)
    end.
Proof.
  simpl. unfold bind.
  pose proof (read_only_policy_evaluation current_policy gamma theta fuel_pe
                mdp) as H1.
  destruct (policy_evaluation current_policy gamma theta fuel_pe mdp)
    as [[vf|e|] mdp1]; simpl in H1; subst mdp1; simpl; try done.
  pose proof (read_only_policy_improvement vf gamma mdp) as H2.
  destruct (policy_improvement vf gamma mdp)
    as [[imp|e|] mdp2]; simpl in H2; subst mdp2; simpl; try done.
  unfold lift.
  destruct (restrict_to_states state_space imp) as [cand|e|]; try done.
  by case_bool_decide.
Qed.

Lemma restrict_fold (improved_policy : policy) n :
  forall k (d : policy) kvs i,
    rmap (fun state => let? a := dict_getitem improved_policy state in
                       Ok (state, a)) (seq k n) = Ok kvs ->
    foldl (fun d kv => <[kv.1 := kv.2]> d) d kvs !! i
    = if decide (k <= i < k + n)%nat then improved_policy !! i else d !! i.
Proof.
  induction n as [|n IH]; intros k d kvs i; simpl.
  - intros [= <-]. simpl. case_decide; [lia|done].
  - intros (kv & Hkv & Hrest)%rbind_Ok.
    apply rbind_Ok in Hrest as (kvs' & Hkvs' & [= <-]).
    apply rbind_Ok in Hkv as (a & Ha & [= <-]).
    unfold dict_getitem in Ha.
    destruct (improved_policy !! k) as [a'|] eqn:Hk; [|done].
    injection Ha as ->. simpl. rewrite (IH _ _ _ _ Hkvs').
    repeat case_decide; try lia; try done.
    + assert (i = k) as -> by lia. by rewrite lookup_insert_eq.
    + by rewrite lookup_insert_ne by lia.
Qed.

(** On a policy whose keys are the states, the dictionary rebuilt for the
    comparison is the policy itself. *)
Lemma restrict_to_states_id state_space (improved_policy : policy) :
  dom improved_policy = set_seq 0 state_space ->
  restrict_to_states state_space improved_policy = Ok improved_policy.
Proof.
  intros Hdom. unfold restrict_to_states.
  destruct (rmap_total
              (fun state => let? a := dict_getitem improved_policy state in
                            Ok (state, a)) (range state_space)) as [kvs Hkvs].
  { intros s Hs. unfold range in Hs. apply elem_of_seq in Hs.
    assert (s ∈ dom improved_policy) as [a Ha]%elem_of_dom
      by (rewrite Hdom, elem_of_set_seq; lia).
    exists (s, a). unfold dict_getitem. by rewrite Ha. }
  rewrite Hkvs. simpl. f_equal. apply map_eq. intros i.
  unfold dict_of_pairs, range in *. rewrite (restrict_fold _ _ _ _ _ _ Hkvs).
  case_decide; [done|]. rewrite lookup_empty. symmetry.
  apply not_elem_of_dom. rewrite Hdom, elem_of_set_seq. lia.
Qed.

Lemma same_actions_eq mdp (pi pi' : policy) :
  dom pi = set_seq 0 (size mdp) ->
  dom pi' = set_seq 0 (size mdp) ->
  same_actions mdp pi pi' <-> pi = pi'.
Proof.
  intros Hdom Hdom'. split; [|by intros -> s _].
  intros Hsame. apply map_eq. intros i.
  destruct (decide (i < size mdp)%nat) as [Hi|Hi]; [by apply Hsame|].
  transitivity (@None nat); [|symmetry]; apply not_elem_of_dom;
    rewrite ?Hdom, ?Hdom', elem_of_set_seq; lia.
Qed.

Lemma policy_improvement_Ok value_function gamma mdp pi :
  (policy_improvement value_function gamma mdp).1 = Ok pi ->
  greedy_policy gamma mdp value_function (action_space_of mdp) pi /\
  dom pi = set_seq 0 (size mdp).
Proof.
  rewrite policy_improvement_eq. simpl. unfold dict_getitem, action_space_of.
  destruct (mdp !! 0%nat) as [acts0|]; simpl; [|done].
  intros (rs & Hrs & Hpi)%rbind_Ok.
  by apply (policy_constructor_greedy _ _ _ _ _ _ Hrs Hpi).
Qed.

Lemma greedy_total_in_range gamma mdp V (pi : policy) :
  greedy_policy gamma mdp V (action_space_of mdp) pi ->
  dom pi = set_seq 0 (size mdp) ->
  total_in_range mdp pi.
Proof.
  intros Hgreedy Hdom. split; [done|]. intros s a Hs.
  assert (s < size mdp)%nat as Hlt.
  { assert (s ∈ dom pi) as Hin by (apply elem_of_dom; eauto).
    rewrite Hdom, elem_of_set_seq in Hin. lia. }
  destruct (Hgreedy s Hlt) as (a' & Ha' & Harg & _).
  congruence.
Qed.

Lemma randint_Ok rng high n draws :
  randint rng high n = Ok draws ->
  high <> 0%nat /\ length draws = n /\
  forall i a, draws !! i = Some a -> (a < high)%nat.
Proof.
  unfold randint. destruct (high =? 0)%nat eqn:E; [done|].
  apply Nat.eqb_neq in E. intros [= <-]. split; [done|]. split.
  - by rewrite length_fmap, length_seq.
  - intros i a Ha. apply list_lookup_fmap_Some in Ha as (j & -> & _).
    by apply Nat.mod_upper_bound.
Qed.

Lemma initial_policy_total_in_range mdp rng draws :
  randint rng (action_space_of mdp) (size mdp) = Ok draws ->
  total_in_range mdp (dict_of_pairs (enumerate draws)).
Proof.
  intros (_ & Hlen & Hlt)%randint_Ok. split.
  - by rewrite dict_of_enumerate_dom, Hlen.
  - intros s a. rewrite dict_of_enumerate_lookup. apply Hlt.
Qed.

(** What the loop of [policy_iteration] hands over when it stops. *)
Lemma pi_loop_Ok gamma theta fuel fuel_pe mdp pi V :
  forall current_policy,
    dom current_policy = set_seq 0 (size mdp) ->
    (pi_loop gamma theta fuel fuel_pe (size mdp) current_policy mdp).1
    = Ok (pi, V) ->
    exists cur,
      dom cur = set_seq 0 (size mdp) /\
      (policy_evaluation cur gamma theta fuel_pe mdp).1 = Ok V /\
      (policy_improvement V gamma mdp).1 = Ok pi /\
      cur = pi.
Proof.
  induction fuel as [|fuel IH]; intros cur Hdom; [done|].
  rewrite pi_loop_S.
  destruct ((policy_evaluation cur gamma theta fuel_pe mdp).1)
    as [vf|e|] eqn:Hpe; try done.
  destruct ((policy_improvement vf gamma mdp).1)
    as [imp|e|] eqn:Himp; try done.
  destruct (policy_improvement_Ok _ _ _ _ Himp) as [_ Hdom'].
  rewrite (restrict_to_states_id _ _ Hdom').
  case_bool_decide as Heq.
  - simpl. intros [= <- <-]. by exists cur.
  - by apply IH.
Qed.

Lemma policy_iteration_Ok gamma theta fuel rng mdp pi V :
  (policy_iteration gamma theta fuel rng mdp).1 = Ok (pi, V) ->
  exists draws,
    randint rng (action_space_of mdp) (size mdp) = Ok draws /\
    (pi_loop gamma theta fuel fuel (size mdp)
             (dict_of_pairs (enumerate draws)) mdp).1 = Ok (pi, V).
Proof.
  unfold policy_iteration, bind, mdp_len, mdp_getitem, lift, action_space_of.
  destruct (mdp !! 0%nat) as [acts0|]; simpl; [|done].
  destruct (randint rng (size acts0) (size mdp)) as [draws|e|]; simpl;
    try done.
  intros H. by exists draws.
Qed.

(** C4.  The loop of [policy_iteration] stops exactly when the candidate
    policy produced by improvement assigns the same action as the current
    policy in every state: in that case the round returns the candidate
    with the value function of the current policy, and in the other case the
    loop goes on with the candidate.  So a returned pair [(pi, V)] consists
    of the candidate [pi] of the final round and of the evaluation [V] of
    the current policy [cur] of that round; [cur] and [pi] assign the same
    actions, hence [V] is the evaluation of the returned policy. *)
Theorem policy_iteration_stops_when_stable gamma theta mdp :
  (forall fuel fuel_pe cur V imp,
     dom cur = set_seq 0 (size mdp) ->
     (policy_evaluation cur gamma theta fuel_pe mdp).1 = Ok V ->
     (policy_improvement V gamma mdp).1 = Ok imp ->
     (same_actions mdp cur imp ->
      pi_loop gamma theta (S fuel) fuel_pe (size mdp) cur mdp
      = (Ok (imp, V), mdp)) /\
     (~ same_actions mdp cur imp ->
      pi_loop gamma theta (S fuel) fuel_pe (size mdp) cur mdp
      = pi_loop gamma theta fuel fuel_pe (size mdp) imp mdp)) /\
  (forall fuel rng pi V,
     (policy_iteration gamma theta fuel rng mdp).1 = Ok (pi, V) ->
     exists cur,
       total_in_range mdp cur /\
       (policy_evaluation cur gamma theta fuel mdp).1 = Ok V /\
       (policy_improvement V gamma mdp).1 = Ok pi /\
       same_actions mdp cur pi /\
       (policy_evaluation pi gamma theta fuel mdp).1 = Ok V).
Proof.
  split.
  - intros fuel fuel_pe cur V imp Hdom Hpe Himp.
    destruct (policy_improvement_Ok _ _ _ _ Himp) as [_ Hdom'].
    rewrite pi_loop_S, Hpe, Himp, (restrict_to_states_id _ _ Hdom').
    split; intros Hsame; case_bool_decide as Heq; try done.
    + by apply same_actions_eq in Hsame.
    + subst. by destruct Hsame.
  - intros fuel rng pi V (draws & Hdraws & Hloop)%policy_iteration_Ok.
    destruct (initial_policy_total_in_range _ _ _ Hdraws) as [Hdom0 _].
    destruct (pi_loop_Ok _ _ _ _ _ _ _ _ Hdom0 Hloop)
      as (cur & Hdom & Hpe & Himp & ->).
    exists pi. destruct (policy_improvement_Ok _ _ _ _ Himp) as [Hgreedy _].
    repeat split; try done.
    by eapply greedy_total_in_range.
Qed.

Lemma policy_iteration_stops_when_stable_witness :
  exists pi V,
    (policy_iteration 1 theta_default 60 (fun _ => 0%nat)
                      slippery_bandit_walk).1 = Ok (pi, V) /\
    exists cur,
      total_in_range slippery_bandit_walk cur /\
      (policy_evaluation cur 1 theta_default 60 slippery_bandit_walk).1
      = Ok V /\
      (policy_improvement V 1 slippery_bandit_walk).1 = Ok pi /\
      same_actions slippery_bandit_walk cur pi /\
      (policy_evaluation pi 1 theta_default 60 slippery_bandit_walk).1
      = Ok V.
Proof.
  eexists _, _. split; [vm_compute; reflexivity|].
  apply (proj2 (policy_iteration_stops_when_stable 1 theta_default
                  slippery_bandit_walk) 60%nat (fun _ => 0%nat)).
  vm_compute; reflexivity.
Defined.

(** C9.  Every policy that the system produces is a total in-range mapping:
    its keys are exactly [0 .. len(mdp)-1] and its actions lie in
    [0 .. len(mdp[0])-1].  This holds for the output of
    [policy_improvement], for the random initial policy of
    [policy_iteration], for the output of [policy_iteration] and for the
    output of [value_iteration]. *)
Theorem produced_policies_total_in_range mdp :
  (forall value_function gamma pi,
     (policy_improvement value_function gamma mdp).1 = Ok pi ->
     total_in_range mdp pi) /\
  (forall rng draws,
     randint rng (action_space_of mdp) (size mdp) = Ok draws ->
     total_in_range mdp (dict_of_pairs (enumerate draws))) /\
  (forall gamma theta fuel rng pi V,
     (policy_iteration gamma theta fuel rng mdp).1 = Ok (pi, V) ->
     total_in_range mdp pi) /\
  (forall gamma theta fuel pi V,
     (value_iteration gamma theta fuel mdp).1 = Ok (pi, V) ->
     total_in_range mdp pi).
Proof.
  assert (Himprove : forall value_function gamma pi,
            (policy_improvement value_function gamma mdp).1 = Ok pi ->
            total_in_range mdp pi).
  { intros vf gamma pi [Hgreedy Hdom]%policy_improvement_Ok.
    by eapply greedy_total_in_range. }
  split; [exact Himprove|]. split; [|split].
  - intros rng draws. apply initial_policy_total_in_range.
  - intros gamma theta fuel rng pi V
      (draws & Hdraws & Hloop)%policy_iteration_Ok.
    destruct (initial_policy_total_in_range _ _ _ Hdraws) as [Hdom0 _].
    destruct (pi_loop_Ok _ _ _ _ _ _ _ _ Hdom0 Hloop)
      as (cur & _ & _ & Himp & _).
    by eapply Himprove.
  - intros gamma theta fuel pi V
      (acts0 & Q & H0 & HA & Hloop & Hpi)%value_iteration_Ok.
    pose proof Hloop as (rs & ? & ? & Hrs & -> & _)%vi_loop_Ok.
    destruct (policy_constructor_greedy _ _ _ _ _ _ Hrs Hpi) as [Hg Hd].
    by eapply greedy_total_in_range.
Qed.

Lemma produced_policies_total_in_range_witness :
  (exists pi,
     (policy_improvement (np_zeros 5) 1 slippery_bandit_walk).1 = Ok pi /\
     total_in_range slippery_bandit_walk pi) /\
  (exists draws,
     randint (fun i => i) (action_space_of slippery_bandit_walk)
             (size slippery_bandit_walk) = Ok draws /\
     total_in_range slippery_bandit_walk (dict_of_pairs (enumerate draws))) /\
  (exists pi V,
     (policy_iteration 1 theta_default 60 (fun _ => 0%nat)
                       slippery_bandit_walk).1 = Ok (pi, V) /\
     total_in_range slippery_bandit_walk pi) /\
  (exists pi V,
     (value_iteration 1 theta_default 60 slippery_bandit_walk).1
     = Ok (pi, V) /\
     total_in_range slippery_bandit_walk pi).
Proof.
  destruct (produced_policies_total_in_range slippery_bandit_walk)
    as (Himprove & Hinit & Hpi & Hvi).
  split; [|split; [|split]].
  - eexists. split; [vm_compute; reflexivity|].
    apply (Himprove (np_zeros 5) 1). vm_compute; reflexivity.
  - eexists. split; [vm_compute; reflexivity|].
    apply (Hinit (fun i => i)). vm_compute; reflexivity.
  - eexists _, _. split; [vm_compute; reflexivity|].
    eapply (Hpi 1 theta_default 60%nat (fun _ => 0%nat)).
    vm_compute; reflexivity.
  - eexists _, _. split; [vm_compute; reflexivity|].
    eapply (Hvi 1 theta_default 60%nat). vm_compute; reflexivity.
Defined.

(** ** More fuel does not change a result *)

Lemma pe_loop_fuel_mono pi gamma theta state_space mdp V fuel :
  forall state_values k,
    (pe_loop pi gamma theta fuel state_space state_values mdp).1 = Ok V ->
    (pe_loop pi gamma theta (fuel + k) state_space state_values mdp).1
    = Ok V.
Proof.
  induction fuel as [|fuel IH]; intros sv k; [done|].
  replace (S fuel + k)%nat with (S (fuel + k)) by lia.
  rewrite !pe_loop_S.
  destruct (rmap _ _) as [cv|e|]; try done.
  destruct (np_max _) as [delta|e|]; try done.
  destruct (Qcltb delta theta); [done|]. apply IH.
Qed.

Lemma policy_evaluation_fuel_mono pi gamma theta mdp V fuel fuel' :
  (fuel <= fuel')%nat ->
  (policy_evaluation pi gamma theta fuel mdp).1 = Ok V ->
  (policy_evaluation pi gamma theta fuel' mdp).1 = Ok V.
Proof.
  intros Hle. replace fuel' with (fuel + (fuel' - fuel))%nat by lia.
  rewrite !policy_evaluation_eq. apply pe_loop_fuel_mono.
Qed.

Lemma vi_loop_fuel_mono gamma theta state_space action_space mdp r fuel :
  forall vf k,
    (vi_loop gamma theta fuel state_space action_space vf mdp).1 = Ok r ->
    (vi_loop gamma theta (fuel + k) state_space action_space vf mdp).1
    = Ok r.
Proof.
  induction fuel as [|fuel IH]; intros vf k; [done|].
  replace (S fuel + k)%nat with (S (fuel + k)) by lia.
  rewrite !vi_loop_S.
  destruct (q_rows _ _ _ _ _) as [rs|e|]; try done.
  destruct (np_max_axis1 _) as [best|e|]; try done.
  destruct (np_max _) as [delta|e|]; try done.
  destruct (Qcltb delta theta); [done|]. apply IH.
Qed.

Lemma value_iteration_fuel_mono gamma theta mdp r fuel fuel' :
  (fuel <= fuel')%nat ->
  (value_iteration gamma theta fuel mdp).1 = Ok r ->
  (value_iteration gamma theta fuel' mdp).1 = Ok r.
Proof.
  intros Hle. replace fuel' with (fuel + (fuel' - fuel))%nat by lia.
  rewrite !value_iteration_eq.
  destruct (mdp !! 0%nat) as [acts0|]; [|done].
  pose proof (vi_loop_fuel_mono gamma theta (size mdp) (size acts0) mdp)
    as Hmono.
  destruct (vi_loop gamma theta fuel _ _ _ _) as [[[Q V]|e|] mdp1] eqn:E;
    try done.
  specialize (Hmono (Q, V) fuel (np_zeros (size mdp)) (fuel' - fuel)%nat).
  rewrite E in Hmono. specialize (Hmono eq_refl).
  destruct (vi_loop gamma theta (fuel + _) _ _ _ _) as [r' mdp2].
  simpl in Hmono. by subst.
Qed.

Lemma pi_loop_fuel_mono gamma theta state_space mdp r fuel_pe fuel :
  forall current_policy k k',
    (pi_loop gamma theta fuel fuel_pe state_space current_policy mdp).1
    = Ok r ->
    (pi_loop gamma theta (fuel + k) (fuel_pe + k') state_space
             current_policy mdp).1 = Ok r.
Proof.
  induction fuel as [|fuel IH]; intros cur k k'; [done|].
  replace (S fuel + k)%nat with (S (fuel + k)) by lia.
  rewrite !pi_loop_S.
  destruct ((policy_evaluation cur gamma theta fuel_pe mdp).1)
    as [vf|e|] eqn:Hpe; try done.
  rewrite (policy_evaluation_fuel_mono _ _ _ _ vf fuel_pe (fuel_pe + k'))
    by (done || lia).
  destruct ((policy_improvement vf gamma mdp).1) as [imp|e|]; try done.
  destruct (restrict_to_states state_space imp) as [cand|e|]; try done.
  case_bool_decide; [done|]. apply IH.
Qed.

Lemma policy_iteration_fuel_mono gamma theta rng mdp r fuel fuel' :
  (fuel <= fuel')%nat ->
  (policy_iteration gamma theta fuel rng mdp).1 = Ok r ->
  (policy_iteration gamma theta fuel' rng mdp).1 = Ok r.
Proof.
  intros Hle. replace fuel' with (fuel + (fuel' - fuel))%nat by lia.
  unfold policy_iteration, bind, mdp_len, mdp_getitem, lift.
  destruct (mdp !! 0%nat) as [acts0|]; simpl; [|done].
  destruct (randint rng (size acts0) (size mdp)) as [draws|e|]; simpl;
    try done.
  apply pi_loop_fuel_mono.
Qed.

(** ** The Slippery Bandit Walk scenario *)

Lemma closeb_close V W bound : closeb V W bound = true -> close V W bound.
Proof.
  unfold closeb. intros [Hlen Hall]%andb_prop.
  apply bool_decide_eq_true in Hlen. split; [done|].
  intros j v w Hv Hw. rewrite forallb_forall in Hall.
  specialize (Hall (v, w)). simpl in Hall.
  apply Qcltb_ge, negb_true_iff, Hall, list_elem_of_In, list_elem_of_lookup.
  exists j. by rewrite lookup_zip_with, Hv; simpl; rewrite Hw.
Qed.

Lemma scenario_ok_spec r :
  scenario_ok r = true ->
  exists V, r = Ok (sbw_optimal_policy, V) /\
            close V sbw_expected_values tolerance.
Proof.
  destruct r as [[pi V]|e|]; simpl; try done.
  intros [Hpi Hclose]%andb_prop. apply bool_decide_eq_true in Hpi as ->.
  exists V. split; [done|]. by apply closeb_close.
Qed.

Lemma all_draws_complete high n :
  forall l, length l = n -> Forall (fun a => a < high)%nat l ->
            l ∈ all_draws high n.
Proof.
  induction n as [|n IH]; intros l Hlen Hall.
  - destruct l; [left | done].
  - destruct l as [|a l]; [done|]. simpl in Hlen.
    apply Forall_cons_1 in Hall as [Ha Hall]. simpl.
    apply list_elem_of_bind. exists a. split.
    + apply list_elem_of_fmap. exists l. split; [done|]. apply IH; [lia|done].
    + apply elem_of_seq. lia.
Qed.

Lemma sbw_policy_iteration_draws gamma theta fuel rng :
  exists draws,
    draws ∈ all_draws 2 5 /\
    policy_iteration gamma theta fuel rng slippery_bandit_walk
    = pi_loop gamma theta fuel fuel 5 (dict_of_pairs (enumerate draws))
              slippery_bandit_walk.
Proof.
  exists ((fun i => rng i mod 2)%nat <$> seq 0 5). split.
  - apply all_draws_complete; [done|].
    apply Forall_fmap, Forall_forall. intros i _.
    by apply (Nat.mod_upper_bound (rng i) 2).
  - reflexivity.
Qed.

(** ** The evaluation on a common denominator is the evaluation *)

Lemma this_plus (x y : Qc) : (this (x + y) == this x + this y)%Q.
Proof. apply Qred_correct. Qed.

Lemma this_mult (x y : Qc) : (this (x * y) == this x * this y)%Q.
Proof. apply Qred_correct. Qed.

Lemma this_minus (x y : Qc) : (this (x - y) == this x - this y)%Q.
Proof.
  unfold Qcminus. rewrite this_plus. unfold Qcopp. simpl.
  by rewrite Qred_correct.
Qed.

Lemma this_to_Qc d n : (this (to_Qc d n) == n # d)%Q.
Proof. apply Qred_correct. Qed.

Lemma scaled_numerator_Some D q n :
  scaled_numerator D q = Some n -> q = to_Qc D n.
Proof.
  unfold scaled_numerator.
  destruct (Qred (this q * (Z.pos D # 1))) as [xn xd] eqn:Hx.
  cbn [Qden Qnum].
  destruct (xd =? 1)%positive eqn:Hd; [|done]. intros [= ->].
  apply Pos.eqb_eq in Hd as ->.
  apply Qc_is_canon. rewrite this_to_Qc.
  pose proof (Qred_correct (this q * (Z.pos D # 1))) as Heq.
  rewrite Hx in Heq. destruct (this q) as [qn qd].
  unfold Qeq, Qmult in *. simpl in *. lia.
Qed.

Lemma to_Qc_term D d pn rn n b :
  to_Qc D pn * (to_Qc 1 rn + 1 * to_Qc d n * of_bool (negb b))
  = to_Qc (D * d) (pn * (rn * Zpos d + (if b then 0 else n))).
Proof.
  apply Qc_is_canon.
  rewrite this_mult, this_plus, !this_mult, !this_to_Qc.
  destruct b; simpl; unfold Qeq, Qmult, Qplus; simpl; lia.
Qed.

Lemma to_Qc_plus e a b : to_Qc e a + to_Qc e b = to_Qc e (a + b).
Proof.
  apply Qc_is_canon. rewrite this_plus, !this_to_Qc.
  unfold Qeq, Qplus. simpl. lia.
Qed.

Lemma to_Qc_0 e : Q2Qc 0 = to_Qc e 0.
Proof. apply Qc_is_canon. rewrite this_to_Qc. done. Qed.

Lemma to_Qc_abs_sub D d n n' :
  Qcabs (to_Qc d n - to_Qc (D * d) n')
  = to_Qc (D * d) (Z.abs (Zpos D * n - n')).
Proof.
  apply Qc_is_canon. rewrite this_to_Qc. cbn [this Qcabs].
  rewrite this_minus, !this_to_Qc.
  unfold Qminus, Qplus, Qopp, Qabs, Qeq. cbn [Qnum Qden].
  replace (n * Z.pos (D * d) + - n' * Z.pos d)%Z
    with ((Z.pos D * n - n') * Z.pos d)%Z by lia.
  rewrite Z.abs_mul. simpl Z.abs at 2. lia.
Qed.

Lemma to_Qc_lt e a b : to_Qc e a < to_Qc e b <-> (a < b)%Z.
Proof.
  unfold Qclt. rewrite !this_to_Qc. unfold Qlt. simpl. nia.
Qed.

Lemma to_Qc_max e a b :
  Qcmax (to_Qc e a) (to_Qc e b) = to_Qc e (Z.max a b).
Proof.
  unfold Qcmax. destruct (Qcltb _ _) eqn:E.
  - apply Qcltb_lt, to_Qc_lt in E. f_equal. lia.
  - apply Qcltb_ge in E. f_equal.
    destruct (Z.max_spec a b) as [[Hlt ->]|[_ ->]]; [|done].
    apply (to_Qc_lt e) in Hlt. by apply Qclt_not_le in Hlt.
Qed.

Lemma to_Qc_ltb e a theta :
  Qcltb (to_Qc e a) theta = (a * QDen theta <? Qnum theta * Zpos e)%Z.
Proof.
  destruct (Z.ltb_spec (a * QDen theta) (Qnum theta * Zpos e)) as [H|H].
  - apply Qcltb_lt. unfold Qclt. rewrite this_to_Qc. by unfold Qlt.
  - apply Qcltb_ge. unfold Qcle. rewrite this_to_Qc. by unfold Qle.
Qed.
Lemma np_getitem_fmap {A B} (f : A -> B) (l : list A) i :
  np_getitem (f <$> l) i
  = let? x := np_getitem l i in Ok (f x).
Proof.
  unfold np_getitem. rewrite length_fmap.
  destruct (_ <? 0)%Z; [done|].
  rewrite list_lookup_fmap. by destruct (l !! _).
Qed.

Lemma scaled_term_correct D d N o t :
  scaled_term D d N o = Some t ->
  backup_term 1 (to_Qc d <$> N) o = Ok (to_Qc (D * d) t).
Proof.
  unfold scaled_term, backup_term.
  destruct (scaled_numerator D _) as [pn|] eqn:Hp; [|done].
  destruct (scaled_numerator 1 _) as [rn|] eqn:Hr; [|done].
  rewrite np_getitem_fmap.
  destruct (np_getitem N _) as [n|e|]; try done.
  intros [= <-]. simpl.
  apply scaled_numerator_Some in Hp as ->.
  apply scaled_numerator_Some in Hr as ->.
  by rewrite to_Qc_term.
Qed.

Lemma scaled_sum_correct D d N outs :
  forall s,
    scaled_sum D d N outs = Some s ->
    bellman_sum 1 (to_Qc d <$> N) outs = Ok (to_Qc (D * d) s).
Proof.
  induction outs as [|o outs IH]; intros s; simpl.
  - intros [= <-]. unfold bellman_sum. simpl. f_equal. apply to_Qc_0.
  - destruct (scaled_term D d N o) as [t|] eqn:Ht; [|done].
    destruct (scaled_sum D d N outs) as [s'|]; [|done].
    intros [= <-]. rewrite bellman_sum_cons.
    rewrite (scaled_term_correct _ _ _ _ _ Ht), (IH s') by done.
    simpl. by rewrite to_Qc_plus.
Qed.

Lemma scaled_value_correct pi mdp D d N state v :
  scaled_value pi mdp D d N state = Some v ->
  pe_value pi 1 mdp (to_Qc d <$> N) state = Ok (to_Qc (D * d) v).
Proof.
  rewrite pe_value_bellman.
  unfold scaled_value, bellman_expectation, dict_getitem.
  destruct (mdp !! state) as [acts|]; simpl; [|done].
  destruct (pi !! state) as [a|]; simpl; [|done].
  destruct (acts !! a) as [outs|]; simpl; [|done].
  apply scaled_sum_correct.
Qed.

Lemma scaled_sweep_correct pi mdp D d N states N' :
  mapM (scaled_value pi mdp D d N) states = Some N' ->
  rmap (pe_value pi 1 mdp (to_Qc d <$> N)) states
  = Ok (to_Qc (D * d) <$> N').
Proof.
  intros H%mapM_Some. apply rmap_Forall2.
  apply Forall2_fmap_r.
  eapply Forall2_impl; [|exact H].
  intros s v. apply scaled_value_correct.
Qed.

Lemma foldl_to_Qc_max e xs :
  forall x,
    foldl Qcmax (to_Qc e x) (to_Qc e <$> xs) = to_Qc e (foldl Z.max x xs).
Proof.
  induction xs as [|y xs IH]; intros x; simpl; [done|].
  by rewrite to_Qc_max, IH.
Qed.

Lemma scaled_delta_correct D d N N' x xs :
  zip_with (fun n n' => Z.abs (Zpos D * n - n')) N N' = x :: xs ->
  np_max (np_absolute (np_sub (to_Qc d <$> N) (to_Qc (D * d) <$> N')))
  = Ok (to_Qc (D * d) (foldl Z.max x xs)).
Proof.
  intros Hzip.
  assert (np_absolute (np_sub (to_Qc d <$> N) (to_Qc (D * d) <$> N'))
          = to_Qc (D * d) <$> (x :: xs)) as ->.
  { rewrite <- Hzip. unfold np_absolute, np_sub. clear Hzip.
    revert N'. induction N as [|n N IH]; intros [|n' N']; simpl; try done.
    by rewrite to_Qc_abs_sub, IH. }
  simpl. by rewrite foldl_to_Qc_max.
Qed.

(** The loop on the numerators returns the numerators of the array that
    [policy_evaluation] returns. *)
Lemma scaled_pe_loop_correct pi mdp theta D state_space fuel :
  forall N d N' d',
    scaled_pe_loop fuel pi mdp theta D state_space N d = Some (N', d') ->
    (pe_loop pi 1 theta fuel state_space (to_Qc d <$> N) mdp).1
    = Ok (to_Qc d' <$> N').
Proof.
  induction fuel as [|fuel IH]; intros N d N' d'; [done|].
  rewrite pe_loop_S. simpl.
  destruct (mapM _ _) as [N1|] eqn:Hsweep; [|done].
  rewrite (scaled_sweep_correct _ _ _ _ _ _ _ Hsweep).
  destruct (zip_with _ N N1) as [|x xs] eqn:Hzip; [done|].
  rewrite (scaled_delta_correct _ _ _ _ _ _ Hzip), to_Qc_ltb.
  destruct (_ <? _)%Z.
  - by intros [= <- <-].
  - apply IH.
Qed.

Lemma scaled_policy_evaluation_correct pi mdp theta D fuel N' d' :
  scaled_pe_loop fuel pi mdp theta D (size mdp) (replicate (size mdp) 0%Z) 1
  = Some (N', d') ->
  (policy_evaluation pi 1 theta fuel mdp).1 = Ok (to_Qc d' <$> N').
Proof.
  intros H%scaled_pe_loop_correct.
  rewrite policy_evaluation_eq. by rewrite fmap_replicate in H.
Qed.

Lemma scaled_pi_loop_correct theta D mdp fuel_pe fuel :
  forall current_policy r,
    scaled_pi_loop fuel fuel_pe theta D mdp current_policy = Some r ->
    (pi_loop 1 theta fuel fuel_pe (size mdp) current_policy mdp).1 = Ok r.
Proof.
  induction fuel as [|fuel IH]; intros cur r; [done|].
  rewrite pi_loop_S. simpl.
  destruct (scaled_pe_loop _ _ _ _ _ _ _ _) as [[N d]|] eqn:Hpe; [|done].
  rewrite (scaled_policy_evaluation_correct _ _ _ _ _ _ _ Hpe).
  destruct ((policy_improvement (to_Qc d <$> N) 1 mdp).1)
    as [imp|e|] eqn:Himp; try done.
  destruct (policy_improvement_Ok _ _ _ _ Himp) as [_ Hdom].
  rewrite (restrict_to_states_id _ _ Hdom).
  case_bool_decide.
  - by intros [= <-].
  - apply IH.
Qed.

Lemma sbw_policy_iteration_all_draws :
  forallb (fun draws =>
             match scaled_pi_loop 200 200 theta_default 5
                                  slippery_bandit_walk
                                  (dict_of_pairs (enumerate draws)) with
             | Some r => scenario_ok (Ok r)
             | None => false
             end)
          (all_draws 2 5) = true.
Proof. vm_compute. reflexivity. Qed.

(** C8.  On the Slippery Bandit Walk with [gamma = 1] and
    [theta = 1e-10], [value_iteration] returns the policy
    [{0:0, 1:1, 2:1, 3:1, 4:0}], and so does [policy_iteration] for every
    random generator, that is for every initial policy; the value function
    returned lies within [5e-5] of [[0, 0.7529, 0.9412, 0.9882, 0]] in every
    state (the listed values are rounded to four decimals).  Two hundred
    rounds of each loop are enough, and more fuel gives the same result. *)
Theorem slippery_bandit_walk_scenario fuel :
  (200 <= fuel)%nat ->
  (exists V,
     (value_iteration 1 theta_default fuel slippery_bandit_walk).1
     = Ok (sbw_optimal_policy, V) /\
     close V sbw_expected_values tolerance) /\
  (forall rng,
     exists V,
       (policy_iteration 1 theta_default fuel rng slippery_bandit_walk).1
       = Ok (sbw_optimal_policy, V) /\
       close V sbw_expected_values tolerance).
Proof.
  intros Hfuel. split.
  - destruct (scenario_ok_spec
                (value_iteration 1 theta_default 200 slippery_bandit_walk).1)
      as (V & HV & Hclose); [vm_compute; reflexivity|].
    exists V. split; [|done].
    by apply (value_iteration_fuel_mono _ _ _ _ 200%nat).
  - intros rng.
    destruct (sbw_policy_iteration_draws 1 theta_default 200 rng)
      as (draws & Hin & Heq).
    pose proof sbw_policy_iteration_all_draws as Hall.
    rewrite forallb_forall in Hall.
    apply list_elem_of_In, Hall in Hin.
    destruct (scaled_pi_loop _ _ _ _ _ _) as [r|] eqn:Hloop; [|done].
    apply (scaled_pi_loop_correct theta_default 5 slippery_bandit_walk)
      in Hloop.
    apply scenario_ok_spec in Hin as (V & [= ->] & Hclose).
    exists V. split; [|done].
    apply (policy_iteration_fuel_mono _ _ _ _ _ 200%nat); [done|].
    rewrite Heq. exact Hloop.
Qed.

Lemma slippery_bandit_walk_scenario_witness :
  (200 <= 200)%nat /\
  (exists V,
     (value_iteration 1 theta_default 200 slippery_bandit_walk).1
     = Ok (sbw_optimal_policy, V) /\
     close V sbw_expected_values tolerance) /\
  (forall rng,
     exists V,
       (policy_iteration 1 theta_default 200 rng slippery_bandit_walk).1
       = Ok (sbw_optimal_policy, V) /\
       close V sbw_expected_values tolerance).
Proof.
  split; [lia|]. apply (slippery_bandit_walk_scenario 200). lia.
Defined.

(** * Further properties of the solvers *)

(** ** Policy evaluation reads only what an evaluable input has *)

Lemma pe_value_total pi gamma mdp V s :
  evaluable pi mdp -> length V = size mdp -> (s < size mdp)%nat ->
  exists v, pe_value pi gamma mdp V s = Ok v.
Proof.
  intros [_ Hwf] Hlen Hs.
  destruct (Hwf s Hs) as (acts & a & outs & Hacts & Ha & Houts & Hin).
  rewrite pe_value_bellman. unfold bellman_expectation, dict_getitem.
  rewrite Hacts. simpl. rewrite Ha. simpl. rewrite Houts. simpl.
  apply bellman_sum_total. by rewrite Hlen.
Qed.

Lemma pe_sweep_total pi gamma mdp V :
  evaluable pi mdp -> length V = size mdp ->
  exists V', rmap (pe_value pi gamma mdp V) (range (size mdp)) = Ok V'.
Proof.
  intros Hwf Hlen. apply rmap_total. intros s Hs.
  unfold range in Hs. apply elem_of_seq in Hs.
  apply pe_value_total; [done..|lia].
Qed.

Lemma rmap_range_length {B} (f : nat -> result B) n ys :
  rmap f (range n) = Ok ys -> length ys = n.
Proof.
  intros H%rmap_length. unfold range in H. by rewrite length_seq in H.
Qed.

Lemma np_max_total (V W : list Qc) :
  length V = length W -> length V <> 0%nat ->
  exists delta, np_max (np_absolute (np_sub V W)) = Ok delta.
Proof.
  intros Hlen Hne. destruct V as [|v V], W as [|w W]; simpl in *; try done.
  eauto.
Qed.

Lemma slippery_bandit_walk_evaluable :
  evaluable sbw_optimal_policy slippery_bandit_walk.
Proof.
  split; [by vm_compute|].
  intros s Hs. vm_compute in Hs.
  do 5 (destruct s as [|s];
        [ eexists _, _, _; split; [vm_compute; reflexivity|];
          split; [vm_compute; reflexivity|];
          split; [vm_compute; reflexivity|];
          repeat constructor; done |]).
  lia.
Qed.

Lemma np_max_axis1_total action_space rs :
  action_space <> 0%nat ->
  Forall (fun row : list Qc => length row = action_space) rs ->
  exists best, np_max_axis1 (Ndarray2 action_space rs) = Ok best.
Proof.
  intros HA Hrows. unfold np_max_axis1. simpl.
  destruct (action_space =? 0)%nat eqn:E; [by apply Nat.eqb_eq in E|].
  apply rmap_total. intros row Hrow.
  rewrite list.Forall_forall in Hrows. specialize (Hrows row Hrow).
  destruct row; simpl in *; [lia | eauto].
Qed.

Lemma well_shaped_nonempty mdp n : well_shaped mdp n -> size mdp <> 0%nat.
Proof.
  intros [HA _] Hsize. apply action_space_of_Some in HA as (acts0 & H0 & _).
  apply map_size_empty_iff in Hsize. subst. by rewrite lookup_empty in H0.
Qed.

(** ** Which inputs make the solvers raise *)

Lemma np_getitem_in_range {A} (a : list A) i x :
  np_getitem a i = Ok x ->
  (- Z.of_nat (length a) <= i < Z.of_nat (length a))%Z.
Proof.
  unfold np_getitem.
  destruct (0 <=? i)%Z eqn:E; [apply Z.leb_le in E | apply Z.leb_gt in E].
  - destruct (i <? 0)%Z; [done|].
    destruct (a !! Z.to_nat i) eqn:Hl; [|done]. intros _.
    apply lookup_lt_Some in Hl. lia.
  - destruct (Z.of_nat (length a) + i <? 0)%Z eqn:E'; [done|].
    apply Z.ltb_ge in E'. intros _. lia.
Qed.

Lemma bellman_sum_in_range gamma V outs t :
  bellman_sum gamma V outs = Ok t ->
  Forall (fun o => (- Z.of_nat (length V) <= state_prime o
                    < Z.of_nat (length V))%Z) outs.
Proof.
  revert t. induction outs as [|o outs IH]; intros t; [constructor|].
  rewrite bellman_sum_cons.
  intros (x & Hx & (t' & Ht' & _)%rbind_Ok)%rbind_Ok.
  constructor; [|eauto].
  unfold backup_term in Hx. apply rbind_Ok in Hx as (v & Hv & _).
  by eapply np_getitem_in_range.
Qed.

Lemma rmap_not_out_of_fuel {A B} (f : A -> result B) xs :
  (forall x, f x <> OutOfFuel) -> rmap f xs <> OutOfFuel.
Proof.
  intros Hf. induction xs as [|x xs IH]; simpl; [done|].
  specialize (Hf x). destruct (f x); simpl; try done.
  by destruct (rmap f xs).
Qed.

Lemma np_getitem_not_out_of_fuel {A} (a : list A) i :
  np_getitem a i <> OutOfFuel.
Proof.
  unfold np_getitem. destruct (_ <? 0)%Z; [done|]. by destruct (a !! _).
Qed.

Lemma bellman_sum_not_out_of_fuel gamma V outs :
  bellman_sum gamma V outs <> OutOfFuel.
Proof.
  unfold bellman_sum.
  pose proof (rmap_not_out_of_fuel (backup_term gamma V) outs) as H.
  destruct (rmap (backup_term gamma V) outs); simpl; try done.
  intros _. apply H; [|done]. intros o. unfold backup_term.
  pose proof (np_getitem_not_out_of_fuel V (state_prime o)).
  by destruct (np_getitem V (state_prime o)).
Qed.

Lemma pe_value_not_out_of_fuel pi gamma mdp V s :
  pe_value pi gamma mdp V s <> OutOfFuel.
Proof.
  rewrite pe_value_bellman. unfold bellman_expectation, dict_getitem.
  destruct (mdp !! s) as [acts|]; simpl; [|done].
  destruct (pi !! s) as [a|]; simpl; [|done].
  destruct (acts !! a) as [outs|]; simpl; [|done].
  apply bellman_sum_not_out_of_fuel.
Qed.

Lemma q_rows_not_out_of_fuel gamma mdp V state_space action_space :
  q_rows gamma mdp V state_space action_space <> OutOfFuel.
Proof.
  apply rmap_not_out_of_fuel. intros s. apply rmap_not_out_of_fuel.
  intros a. rewrite q_value_bellman. unfold bellman_q, dict_getitem.
  destruct (mdp !! s) as [acts|]; simpl; [|done].
  destruct (acts !! a) as [outs|]; simpl; [|done].
  apply bellman_sum_not_out_of_fuel.
Qed.

(** A first sweep that succeeds has read an evaluable input. *)
Lemma pe_sweep_Ok_evaluable pi gamma mdp V cv :
  size mdp <> 0%nat -> length V = size mdp ->
  rmap (pe_value pi gamma mdp V) (range (size mdp)) = Ok cv ->
  evaluable pi mdp.
Proof.
  intros HS Hlen Hcv. split; [done|]. intros s Hs.
  destruct (rmap_range_lookup _ _ _ _ Hcv Hs) as (v & _ & Hpe).
  rewrite pe_value_bellman in Hpe.
  unfold bellman_expectation, dict_getitem in Hpe.
  destruct (mdp !! s) as [acts|]; [|done]. simpl in Hpe.
  destruct (pi !! s) as [a|]; [|done]. simpl in Hpe.
  destruct (acts !! a) as [outs|] eqn:Houts; [|done]. simpl in Hpe.
  exists acts, a, outs. repeat split; try done.
  rewrite <- Hlen. by eapply bellman_sum_in_range.
Qed.

Lemma pe_loop_never_raises pi gamma theta mdp e :
  evaluable pi mdp ->
  forall fuel sv, length sv = size mdp ->
    (pe_loop pi gamma theta fuel (size mdp) sv mdp).1 <> Raise e.
Proof.
  intros Hwf. induction fuel as [|fuel IH]; intros sv Hlen; [done|].
  rewrite pe_loop_S.
  destruct (pe_sweep_total pi gamma mdp sv Hwf Hlen) as [cv Hcv].
  rewrite Hcv.
  pose proof (rmap_range_length _ _ _ Hcv) as Hlencv.
  destruct (np_max_total sv cv) as [delta ->];
    [congruence | destruct Hwf; congruence |].
  destruct (Qcltb delta theta); [done|]. by apply IH.
Qed.

Lemma pe_loop_raises pi gamma theta mdp fuel :
  ~ evaluable pi mdp ->
  exists e, (pe_loop pi gamma theta (S fuel) (size mdp)
                     (np_zeros (size mdp)) mdp).1 = Raise e.
Proof.
  intros Hnot. rewrite pe_loop_S.
  destruct (rmap (pe_value pi gamma mdp (np_zeros (size mdp)))
                 (range (size mdp))) as [cv|e|] eqn:Hcv.
  - destruct (decide (size mdp = 0%nat)) as [H0|H0].
    + rewrite H0 in Hcv |- *. simpl in Hcv. injection Hcv as <-.
      simpl. eauto.
    + destruct Hnot. eapply pe_sweep_Ok_evaluable; [done| |done].
      apply length_replicate.
  - simpl. eauto.
  - by apply rmap_not_out_of_fuel in Hcv; [|apply pe_value_not_out_of_fuel].
Qed.

(** X3 (further property).  [policy_evaluation] raises an exception exactly
    on the inputs that are not evaluable: an evaluable input (a non-empty
    MDP whose states are [0 .. len(mdp)-1], a policy that gives each of
    them an action the state has, and next states that index the value
    array) never raises, whatever the number of sweeps, and every other
    input raises in the first sweep. *)
Theorem policy_evaluation_raises_iff pi gamma theta fuel mdp :
  (0 < fuel)%nat ->
  (exists e, (policy_evaluation pi gamma theta fuel mdp).1 = Raise e)
  <-> ~ evaluable pi mdp.
Proof.
  intros Hfuel. rewrite policy_evaluation_eq. split.
  - intros [e He] Hwf. revert He. apply pe_loop_never_raises; [done|].
    apply length_replicate.
  - intros Hnot. destruct fuel as [|fuel]; [lia|]. by apply pe_loop_raises.
Qed.

Lemma policy_evaluation_raises_iff_witness :
  (0 < 1)%nat /\
  ((exists e, (policy_evaluation ∅ 1 theta_default 1
                                 slippery_bandit_walk).1 = Raise e)
   <-> ~ evaluable ∅ slippery_bandit_walk).
Proof.
  split; [lia|].
  apply (policy_evaluation_raises_iff ∅ 1 theta_default 1
           slippery_bandit_walk).
  lia.
Defined.

Lemma q_rows_Ok_well_shaped gamma mdp V rs :
  action_space_of mdp <> 0%nat ->
  q_rows gamma mdp V (size mdp) (action_space_of mdp) = Ok rs ->
  well_shaped mdp (length V).
Proof.
  intros HA Hrs. split; [done|]. intros s Hs.
  destruct (rmap_range_lookup _ _ _ _ Hrs Hs) as (row & _ & Hrow).
  destruct (mdp !! s) as [acts|] eqn:Hacts.
  - exists acts. split; [done|]. intros a Ha.
    destruct (rmap_range_lookup _ _ _ _ Hrow Ha) as (q & _ & Hq).
    rewrite q_value_bellman in Hq. unfold bellman_q, dict_getitem in Hq.
    rewrite Hacts in Hq. simpl in Hq.
    destruct (acts !! a) as [outs|]; [|done]. simpl in Hq.
    exists outs. split; [done|]. by eapply bellman_sum_in_range.
  - assert (0 < action_space_of mdp)%nat as Ha by lia.
    destruct (rmap_range_lookup _ _ _ _ Hrow Ha) as (q & _ & Hq).
    unfold q_value, dict_getitem in Hq. by rewrite Hacts in Hq.
Qed.

Lemma vi_loop_never_raises gamma theta mdp e :
  well_shaped mdp (size mdp) ->
  forall fuel vf, length vf = size mdp ->
    (vi_loop gamma theta fuel (size mdp) (action_space_of mdp) vf mdp).1
    <> Raise e.
Proof.
  intros Hshape. pose proof Hshape as [HA _].
  pose proof (well_shaped_nonempty _ _ Hshape) as HS.
  induction fuel as [|fuel IH]; intros vf Hlen; [done|].
  rewrite vi_loop_S.
  destruct (q_rows_total gamma mdp vf) as [rs Hrs]; [by rewrite Hlen|].
  rewrite Hrs.
  destruct (q_rows_lengths _ _ _ _ _ _ Hrs) as [Hlenrs Hrows].
  destruct (np_max_axis1_total _ _ HA Hrows) as [best Hbest].
  rewrite Hbest.
  pose proof (np_max_axis1_length _ _ _ Hbest) as Hlenb.
  destruct (np_max_total vf best) as [delta ->]; [congruence..|].
  destruct (Qcltb delta theta); [done|]. apply IH. congruence.
Qed.

(** X4 (further property).  [value_iteration] raises an exception exactly
    on the MDPs that do not have the shape of the data model (states
    [0 .. len(mdp)-1], each with the actions [0 .. len(mdp[0])-1], at
    least one action, next states that index the value array): a
    well-shaped MDP never raises, whatever the number of sweeps, and every
    other MDP raises before the first convergence test. *)
Theorem value_iteration_raises_iff gamma theta fuel mdp :
  (0 < fuel)%nat ->
  (exists e, (value_iteration gamma theta fuel mdp).1 = Raise e)
  <-> ~ well_shaped mdp (size mdp).
Proof.
  intros Hfuel. rewrite value_iteration_eq. split.
  - intros [e He] Hshape. pose proof Hshape as [HA _].
    destruct (action_space_of_Some _ HA) as (acts0 & H0 & HA0).
    rewrite H0, HA0 in He.
    pose proof (vi_loop_never_raises gamma theta mdp) as Hsafe.
    destruct (vi_loop gamma theta fuel (size mdp) (action_space_of mdp)
                      (np_zeros (size mdp)) mdp)
      as [[[Q V]|e'|] mdp'] eqn:E; simpl in He.
    + assert ((vi_loop gamma theta fuel (size mdp) (action_space_of mdp)
                       (np_zeros (size mdp)) mdp).1 = Ok (Q, V)) as Hloop
        by (by rewrite E).
      apply vi_loop_Ok in Hloop as (rs & ? & ? & Hrs & -> & _).
      destruct (q_rows_lengths _ _ _ _ _ _ Hrs) as [_ Hrows].
      destruct (policy_constructor_total _ _ HA Hrows) as [pi Hpi].
      by rewrite Hpi in He.
    + apply (Hsafe e' Hshape fuel (np_zeros (size mdp)));
        [apply length_replicate | by rewrite E].
    + done.
  - intros Hnot. destruct fuel as [|fuel]; [lia|].
    destruct (mdp !! 0%nat) as [acts0|] eqn:H0; [|simpl; eauto].
    assert (size acts0 = action_space_of mdp) as ->
      by (unfold action_space_of; by rewrite H0).
    rewrite vi_loop_S.
    destruct (q_rows gamma mdp (np_zeros (size mdp)) (size mdp)
                     (action_space_of mdp)) as [rs|e|] eqn:Hrs.
    + destruct (decide (action_space_of mdp = 0%nat)) as [HA|HA].
      * rewrite HA. simpl. eauto.
      * destruct Hnot. apply q_rows_Ok_well_shaped in Hrs; [|done].
        unfold np_zeros in Hrs. by rewrite length_replicate in Hrs.
    + simpl. eauto.
    + by apply q_rows_not_out_of_fuel in Hrs.
Qed.

Lemma value_iteration_raises_iff_witness :
  (0 < 1)%nat /\
  ((exists e, (value_iteration 1 theta_default 1 ∅).1 = Raise e)
   <-> ~ well_shaped ∅ (size (∅ : MDP))).
Proof.
  split; [lia|]. apply (value_iteration_raises_iff 1 theta_default 1 ∅). lia.
Defined.

Lemma total_in_range_evaluable mdp pi :
  well_shaped mdp (size mdp) -> total_in_range mdp pi -> evaluable pi mdp.
Proof.
  intros Hshape [Hdom Hrange].
  split; [by eapply well_shaped_nonempty|].
  destruct Hshape as [HA Hshape]. intros s Hs.
  destruct (Hshape s Hs) as (acts & Hacts & Hact).
  assert (s ∈ dom pi) as [a Ha]%elem_of_dom
    by (rewrite Hdom, elem_of_set_seq; lia).
  destruct (Hact a (Hrange _ _ Ha)) as (outs & Houts & Hin).
  by exists acts, a, outs.
Qed.

Lemma policy_improvement_total gamma mdp V :
  well_shaped mdp (length V) ->
  exists pi, (policy_improvement V gamma mdp).1 = Ok pi.
Proof.
  intros Hshape. pose proof Hshape as [HA _].
  destruct (action_space_of_Some _ HA) as (acts0 & H0 & HA0).
  rewrite policy_improvement_eq. simpl. unfold dict_getitem.
  rewrite H0. simpl. rewrite HA0.
  destruct (q_rows_total gamma mdp V Hshape) as [rs Hrs]. rewrite Hrs. simpl.
  destruct (q_rows_lengths _ _ _ _ _ _ Hrs) as [_ Hrows].
  by apply policy_constructor_total.
Qed.

Lemma policy_evaluation_length pi gamma theta fuel mdp V :
  (policy_evaluation pi gamma theta fuel mdp).1 = Ok V ->
  length V = size mdp.
Proof.
  rewrite policy_evaluation_eq.
  intros (prev & delta & Hsweep & _)%pe_loop_Ok.
  by eapply rmap_range_length.
Qed.

Lemma pi_loop_never_raises gamma theta mdp e fuel_pe :
  well_shaped mdp (size mdp) ->
  forall fuel cur, total_in_range mdp cur ->
    (pi_loop gamma theta fuel fuel_pe (size mdp) cur mdp).1 <> Raise e.
Proof.
  intros Hshape. induction fuel as [|fuel IH]; intros cur Hcur; [done|].
  rewrite pi_loop_S.
  destruct ((policy_evaluation cur gamma theta fuel_pe mdp).1)
    as [vf|e'|] eqn:Hpe; [| |done].
  - pose proof (policy_evaluation_length _ _ _ _ _ _ Hpe) as Hlen.
    destruct (policy_improvement_total gamma mdp vf) as [imp Himp];
      [by rewrite Hlen|].
    rewrite Himp.
    destruct (policy_improvement_Ok _ _ _ _ Himp) as [Hgreedy Hdom].
    rewrite (restrict_to_states_id _ _ Hdom).
    case_bool_decide; [done|]. apply IH. by eapply greedy_total_in_range.
  - exfalso. rewrite policy_evaluation_eq in Hpe. revert Hpe.
    apply pe_loop_never_raises; [by apply total_in_range_evaluable|].
    apply length_replicate.
Qed.

(** X5 (further property).  On an MDP of the shape of the data model
    [policy_iteration] never raises an exception, whatever the random
    initial policy and the number of rounds: the initial draw and every
    improved policy give each state an action that the state has. *)
Theorem policy_iteration_never_raises gamma theta fuel rng mdp e :
  well_shaped mdp (size mdp) ->
  (policy_iteration gamma theta fuel rng mdp).1 <> Raise e.
Proof.
  intros Hshape. pose proof Hshape as [HA _].
  destruct (action_space_of_Some _ HA) as (acts0 & H0 & HA0).
  unfold policy_iteration, bind, mdp_len, mdp_getitem, lift.
  rewrite H0, HA0.
  destruct (randint rng (action_space_of mdp) (size mdp))
    as [draws|e'|] eqn:Hd.
  - apply pi_loop_never_raises; [done|].
    by eapply initial_policy_total_in_range.
  - unfold randint in Hd. apply Nat.eqb_neq in HA. by rewrite HA in Hd.
  - done.
Qed.

Lemma policy_iteration_never_raises_witness :
  well_shaped slippery_bandit_walk (size slippery_bandit_walk) /\
  (policy_iteration 1 theta_default 3 (fun _ => 0%nat)
                    slippery_bandit_walk).1 <> Raise KeyError.
Proof.
  split; [exact slippery_bandit_walk_well_shaped|].
  apply (policy_iteration_never_raises 1 theta_default 3 (fun _ => 0%nat)
           slippery_bandit_walk KeyError).
  exact slippery_bandit_walk_well_shaped.
Defined.

(** ** A threshold that is not positive *)

Lemma np_max_absolute_nonneg a delta :
  np_max (np_absolute a) = Ok delta -> 0 <= delta.
Proof.
  intros [Hin _]%np_max_spec. unfold np_absolute in Hin.
  apply list_elem_of_fmap in Hin as (x & -> & _). apply Qcabs_nonneg.
Qed.

Lemma policy_evaluation_needs_positive_theta pi gamma theta fuel mdp V :
  theta <= 0 -> (policy_evaluation pi gamma theta fuel mdp).1 <> Ok V.
Proof.
  intros Hth. rewrite policy_evaluation_eq.
  intros (prev & delta & _ & Hmax & Hlt & _)%pe_loop_Ok.
  apply np_max_absolute_nonneg in Hmax.
  apply (Qclt_not_le _ _ Hlt). by eapply Qcle_trans.
Qed.

Lemma value_iteration_needs_positive_theta gamma theta fuel mdp r :
  theta <= 0 -> (value_iteration gamma theta fuel mdp).1 <> Ok r.
Proof.
  intros Hth. destruct r as [pi V].
  intros (acts0 & Q & _ & _ & Hloop & _)%value_iteration_Ok.
  apply vi_loop_Ok in Hloop as (rs & best & delta & _ & _ & _ & Hmax & Hlt & _).
  apply np_max_absolute_nonneg in Hmax.
  apply (Qclt_not_le _ _ Hlt). by eapply Qcle_trans.
Qed.

Lemma policy_iteration_needs_positive_theta gamma theta fuel rng mdp r :
  theta <= 0 -> (policy_iteration gamma theta fuel rng mdp).1 <> Ok r.
Proof.
  intros Hth. destruct r as [pi V].
  intros (draws & Hdraws & Hloop)%policy_iteration_Ok.
  destruct (initial_policy_total_in_range _ _ _ Hdraws) as [Hdom0 _].
  destruct (pi_loop_Ok _ _ _ _ _ _ _ _ Hdom0 Hloop) as (cur & _ & Hpe & _).
  by eapply policy_evaluation_needs_positive_theta.
Qed.

(** X6 (further property).  The convergence tests compare a maximum of
    absolute values with [theta] by a strict [<]: with [theta <= 0] none
    of the three solvers ever returns, on any input and after any number
    of rounds. *)
Theorem nonpositive_theta_never_returns pi gamma theta fuel rng mdp :
  theta <= 0 ->
  (forall V, (policy_evaluation pi gamma theta fuel mdp).1 <> Ok V) /\
  (forall r, (policy_iteration gamma theta fuel rng mdp).1 <> Ok r) /\
  (forall r, (value_iteration gamma theta fuel mdp).1 <> Ok r).
Proof.
  intros Hth. split; [|split].
  - intros V. by apply policy_evaluation_needs_positive_theta.
  - intros r. by apply policy_iteration_needs_positive_theta.
  - intros r. by apply value_iteration_needs_positive_theta.
Qed.

Lemma nonpositive_theta_never_returns_witness :
  (0 : Qc) <= 0 /\
  (forall V, (policy_evaluation sbw_optimal_policy 1 0 50
                                slippery_bandit_walk).1 <> Ok V) /\
  (forall r, (policy_iteration 1 0 50 (fun _ => 0%nat)
                               slippery_bandit_walk).1 <> Ok r) /\
  (forall r, (value_iteration 1 0 50 slippery_bandit_walk).1 <> Ok r).
Proof.
  split; [by vm_compute|].
  apply (nonpositive_theta_never_returns sbw_optimal_policy 1 0 50
           (fun _ => 0%nat) slippery_bandit_walk).
  by vm_compute.
Defined.

(** X7 (further property).  On valid input a threshold [theta <= 0] makes
    the loops run forever: policy evaluation of an evaluable input, and
    policy iteration and value iteration of a well-shaped MDP, neither
    return nor raise, however many rounds they are given. *)
Theorem nonpositive_theta_diverges pi gamma theta mdp :
  theta <= 0 ->
  (evaluable pi mdp ->
   forall fuel, (policy_evaluation pi gamma theta fuel mdp).1 = OutOfFuel) /\
  (well_shaped mdp (size mdp) ->
   forall fuel,
     (value_iteration gamma theta fuel mdp).1 = OutOfFuel /\
     forall rng, (policy_iteration gamma theta fuel rng mdp).1 = OutOfFuel).
Proof.
  intros Hth. split.
  - intros Hwf fuel.
    destruct ((policy_evaluation pi gamma theta fuel mdp).1)
      as [V|e|] eqn:E; [| |done].
    + by apply policy_evaluation_needs_positive_theta in E.
    + rewrite policy_evaluation_eq in E.
      apply pe_loop_never_raises in E; [done..|apply length_replicate].
  - intros Hshape fuel. split; [|intros rng].
    + destruct ((value_iteration gamma theta fuel mdp).1)
        as [r|e|] eqn:E; [| |done].
      * by apply value_iteration_needs_positive_theta in E.
      * exfalso. rewrite value_iteration_eq in E.
        pose proof Hshape as [HA _].
        destruct (action_space_of_Some _ HA) as (acts0 & H0 & HA0).
        rewrite H0, HA0 in E.
        pose proof (vi_loop_never_raises gamma theta mdp) as Hsafe.
        destruct (vi_loop gamma theta fuel (size mdp) (action_space_of mdp)
                          (np_zeros (size mdp)) mdp)
          as [[[Q V]|e'|] mdp'] eqn:E'; simpl in E.
        -- assert ((vi_loop gamma theta fuel (size mdp)
                            (action_space_of mdp)
                            (np_zeros (size mdp)) mdp).1 = Ok (Q, V))
             as Hloop by (by rewrite E').
           apply vi_loop_Ok in Hloop as (rs & ? & ? & Hrs & -> & _).
           destruct (q_rows_lengths _ _ _ _ _ _ Hrs) as [_ Hrows].
           destruct (policy_constructor_total _ _ HA Hrows) as [pi' Hpi].
           by rewrite Hpi in E.
        -- apply (Hsafe e' Hshape fuel (np_zeros (size mdp)));
             [apply length_replicate | by rewrite E'].
        -- done.
    + destruct ((policy_iteration gamma theta fuel rng mdp).1)
        as [r|e|] eqn:E; [| |done].
      * by apply policy_iteration_needs_positive_theta in E.
      * exfalso. revert E. pose proof Hshape as [HA _].
        destruct (action_space_of_Some _ HA) as (acts0 & H0 & HA0).
        unfold policy_iteration, bind, mdp_len, mdp_getitem, lift.
        rewrite H0, HA0.
        destruct (randint rng (action_space_of mdp) (size mdp))
          as [draws|e'|] eqn:Hd.
        -- apply pi_loop_never_raises; [done|].
           by eapply initial_policy_total_in_range.
        -- unfold randint in Hd. apply Nat.eqb_neq in HA.
           by rewrite HA in Hd.
        -- done.
Qed.

Lemma nonpositive_theta_diverges_witness :
  (0 : Qc) <= 0 /\
  evaluable sbw_optimal_policy slippery_bandit_walk /\
  well_shaped slippery_bandit_walk (size slippery_bandit_walk) /\
  (forall fuel,
     (policy_evaluation sbw_optimal_policy 1 0 fuel
                        slippery_bandit_walk).1 = OutOfFuel) /\
  (forall fuel,
     (value_iteration 1 0 fuel slippery_bandit_walk).1 = OutOfFuel /\
     forall rng,
       (policy_iteration 1 0 fuel rng slippery_bandit_walk).1 = OutOfFuel).
Proof.
  assert ((0 : Qc) <= 0) as Hth by (by vm_compute).
  destruct (nonpositive_theta_diverges sbw_optimal_policy 1 0
              slippery_bandit_walk Hth) as [Hpe Hvi].
  split; [exact Hth|].
  split; [exact slippery_bandit_walk_evaluable|].
  split; [exact slippery_bandit_walk_well_shaped|].
  split.
  - exact (Hpe slippery_bandit_walk_evaluable).
  - exact (Hvi slippery_bandit_walk_well_shaped).
Defined.

(** ** Inputs without a state 0 or without actions *)

(** X8 (further property).  [len(mdp[0])] is read before any loop: on an
    MDP without the key 0 (the empty MDP among them) [policy_improvement],
    [policy_iteration] and [value_iteration] raise [KeyError] before the
    first round.  [policy_evaluation] does not read [mdp[0]]; on the empty
    MDP its first convergence test takes the maximum of an empty array and
    raises [ValueError]. *)
Theorem missing_state_zero_raises gamma theta fuel rng V pi mdp :
  mdp !! 0%nat = None ->
  (policy_improvement V gamma mdp).1 = Raise KeyError /\
  (policy_iteration gamma theta fuel rng mdp).1 = Raise KeyError /\
  (value_iteration gamma theta fuel mdp).1 = Raise KeyError /\
  (size mdp = 0%nat ->
   (policy_evaluation pi gamma theta (S fuel) mdp).1 = Raise ValueError).
Proof.
  intros H0. split; [|split; [|split]].
  - rewrite policy_improvement_eq. unfold dict_getitem. by rewrite H0.
  - unfold policy_iteration, bind, mdp_len, mdp_getitem. by rewrite H0.
  - rewrite value_iteration_eq. by rewrite H0.
  - intros Hsize. rewrite policy_evaluation_eq, pe_loop_S, Hsize. done.
Qed.

Lemma missing_state_zero_raises_witness :
  (∅ : MDP) !! 0%nat = None /\
  size (∅ : MDP) = 0%nat /\
  (policy_improvement [] 1 ∅).1 = Raise KeyError /\
  (policy_iteration 1 theta_default 7 (fun _ => 0%nat) ∅).1
  = Raise KeyError /\
  (value_iteration 1 theta_default 7 ∅).1 = Raise KeyError /\
  (policy_evaluation ∅ 1 theta_default 8 ∅).1 = Raise ValueError.
Proof.
  assert ((∅ : MDP) !! 0%nat = None) as H0 by done.
  destruct (missing_state_zero_raises 1 theta_default 7 (fun _ => 0%nat) []
              ∅ ∅ H0) as (H1 & H2 & H3 & H4).
  split; [exact H0|]. split; [done|].
  split; [exact H1|]. split; [exact H2|]. split; [exact H3|].
  by apply H4.
Defined.

Lemma q_rows_no_action gamma mdp V state_space :
  q_rows gamma mdp V state_space 0 = Ok (replicate state_space []).
Proof.
  unfold q_rows, range. simpl. generalize 0%nat.
  induction state_space as [|n IH]; intros k; simpl; [done|].
  by rewrite IH.
Qed.

(** X9 (further property).  When state 0 has no action, [len(mdp[0])] is
    0 and numpy refuses the empty range: [policy_iteration] raises
    [ValueError] at [np.random.randint(0, 0, ...)] before the first round,
    [policy_improvement] at [np.argmax] along an axis of length 0, and
    [value_iteration] at [np.max] along that axis in its first sweep.
    The loops over [range(0)] read no other state on the way. *)
Theorem no_action_raises_ValueError gamma theta fuel rng V mdp :
  mdp !! 0%nat = Some ∅ ->
  (policy_iteration gamma theta fuel rng mdp).1 = Raise ValueError /\
  (policy_improvement V gamma mdp).1 = Raise ValueError /\
  (value_iteration gamma theta (S fuel) mdp).1 = Raise ValueError.
Proof.
  intros H0. split; [|split].
  - unfold policy_iteration, bind, mdp_len, mdp_getitem, lift.
    rewrite H0. by rewrite map_size_empty.
  - rewrite policy_improvement_eq. unfold dict_getitem. rewrite H0. simpl.
    by rewrite map_size_empty, q_rows_no_action.
  - by rewrite value_iteration_eq, H0, map_size_empty, vi_loop_S,
      q_rows_no_action.
Qed.

Lemma no_action_raises_ValueError_witness :
  (dict_of_pairs [(0%nat, (∅ : actions))] : MDP) !! 0%nat = Some ∅ /\
  (policy_iteration 1 theta_default 7 (fun _ => 0%nat)
                    (dict_of_pairs [(0%nat, ∅)])).1 = Raise ValueError /\
  (policy_improvement [0] 1 (dict_of_pairs [(0%nat, ∅)])).1
  = Raise ValueError /\
  (value_iteration 1 theta_default 8 (dict_of_pairs [(0%nat, ∅)])).1
  = Raise ValueError.
Proof.
  split; [done|].
  apply (no_action_raises_ValueError 1 theta_default 7 (fun _ => 0%nat)
           [0] (dict_of_pairs [(0%nat, ∅)])).
  done.
Defined.

(** ** What policy evaluation reads of the policy *)

Lemma pe_loop_same_actions pi pi' gamma theta mdp :
  same_actions mdp pi pi' ->
  forall fuel sv,
    (pe_loop pi gamma theta fuel (size mdp) sv mdp).1
    = (pe_loop pi' gamma theta fuel (size mdp) sv mdp).1.
Proof.
  intros Hsame.
  assert (forall V, rmap (pe_value pi gamma mdp V) (range (size mdp))
                    = rmap (pe_value pi' gamma mdp V) (range (size mdp)))
    as Hsweep.
  { intros V. unfold range.
    assert (forall n k, (k + n <= size mdp)%nat ->
              rmap (pe_value pi gamma mdp V) (seq k n)
              = rmap (pe_value pi' gamma mdp V) (seq k n)) as H.
    { induction n as [|n IH]; intros k Hk; simpl; [done|].
      assert (pe_value pi gamma mdp V k = pe_value pi' gamma mdp V k) as ->.
      { unfold pe_value, dict_getitem. by rewrite (Hsame k) by lia. }
      by rewrite IH by lia. }
    apply H. lia. }
  induction fuel as [|fuel IH]; intros sv; [done|].
  rewrite !pe_loop_S, Hsweep.
  destruct (rmap _ _) as [cv|e|]; try done.
  destruct (np_max _) as [delta|e|]; try done.
  destruct (Qcltb delta theta); [done|]. apply IH.
Qed.

(** X18 (further property).  [policy_evaluation] reads the policy only at
    the states [0 .. len(mdp)-1]: two policies that give these states the
    same actions get the same result, whatever other keys they hold. *)
Theorem policy_evaluation_reads_states_only pi pi' mdp gamma theta fuel :
  same_actions mdp pi pi' ->
  (policy_evaluation pi gamma theta fuel mdp).1
  = (policy_evaluation pi' gamma theta fuel mdp).1.
Proof.
  intros Hsame. rewrite !policy_evaluation_eq.
  by apply pe_loop_same_actions.
Qed.

Lemma policy_evaluation_reads_states_only_witness :
  same_actions slippery_bandit_walk sbw_optimal_policy
               (<[7%nat := 3%nat]> sbw_optimal_policy) /\
  (policy_evaluation sbw_optimal_policy 1 theta_default 9
                     slippery_bandit_walk).1
  = (policy_evaluation (<[7%nat := 3%nat]> sbw_optimal_policy) 1
                       theta_default 9 slippery_bandit_walk).1.
Proof.
  assert (same_actions slippery_bandit_walk sbw_optimal_policy
                       (<[7%nat := 3%nat]> sbw_optimal_policy)) as Hsame.
  { intros s Hs. rewrite lookup_insert_ne; [done|].
    vm_compute in Hs. lia. }
  split; [exact Hsame|].
  by apply (policy_evaluation_reads_states_only sbw_optimal_policy
              (<[7%nat := 3%nat]> sbw_optimal_policy) slippery_bandit_walk
              1 theta_default 9).
Defined.

(** ** Negative next states *)


















(** * The binary64 program *)

(** ** The order of floats *)

Lemma f64_is_nan_spec x :
  is_nan x = match Prim2SF x with S754_nan => true | _ => false end.
Proof.
  unfold is_nan. rewrite FloatAxioms.eqb_spec. unfold SFeqb, SFcompare.
  destruct (Prim2SF x) as [s|s| |s m e]; try done.
  - by destruct s.
  - rewrite Z.compare_refl, Pos.compare_cont_refl. by destruct s.
Qed.

Lemma f64_nle_spec x y :
  Float64.nle x y
  = match Prim2SF y with
    | S754_nan => true
    | _ => SFleb (Prim2SF x) (Prim2SF y)
    end.
Proof.
  unfold Float64.nle. rewrite f64_is_nan_spec, leb_spec.
  by destruct (Prim2SF y).
Qed.

Ltac sf_compare :=
  repeat match goal with
    | H : context [(?a ?= ?b)%Z] |- _ =>
        destruct (Z.compare_spec a b); subst
    | |- context [(?a ?= ?b)%Z] =>
        destruct (Z.compare_spec a b); subst
    | H : context [Pos.compare_cont Eq ?a ?b] |- _ =>
        rewrite (Pos.compare_cont_spec a b Eq) in H;
        destruct (Pos.compare_spec a b); subst; simpl in H
    | |- context [Pos.compare_cont Eq ?a ?b] =>
        rewrite (Pos.compare_cont_spec a b Eq);
        destruct (Pos.compare_spec a b); subst; simpl
    end;
  try done; try lia.

Lemma SFleb_refl f : f <> S754_nan -> SFleb f f = true.
Proof.
  unfold SFleb, SFcompare. destruct f as [s|s| |s m e]; try done.
  - by destruct s.
  - intros _. rewrite Z.compare_refl, Pos.compare_cont_refl. by destruct s.
Qed.

Lemma SFleb_trans f g h :
  SFleb f g = true -> SFleb g h = true -> SFleb f h = true.
Proof.
  unfold SFleb, SFcompare.
  destruct f as [s1|s1| |s1 m1 e1], g as [s2|s2| |s2 m2 e2],
           h as [s3|s3| |s3 m3 e3]; try done;
    destruct s1, s2, s3; try done; intros H1 H2; sf_compare.
Qed.

Lemma SFleb_total f g :
  f <> S754_nan -> g <> S754_nan -> SFleb f g = false -> SFleb g f = true.
Proof.
  unfold SFleb, SFcompare.
  destruct f as [s1|s1| |s1 m1 e1], g as [s2|s2| |s2 m2 e2]; try done;
    destruct s1, s2; try done; intros _ _ H; sf_compare.
Qed.

Lemma SFltb_SFleb f g :
  SFltb f g = true -> SFleb f g = true /\ SFleb g f = false.
Proof.
  unfold SFltb, SFleb, SFcompare.
  destruct f as [s1|s1| |s1 m1 e1], g as [s2|s2| |s2 m2 e2]; try done;
    destruct s1, s2; try done; intros H; split; sf_compare.
Qed.

Lemma SFleb_SFltb f g :
  SFleb f g = true -> SFleb g f = false -> SFltb f g = true.
Proof.
  unfold SFltb, SFleb, SFcompare.
  destruct f as [s1|s1| |s1 m1 e1], g as [s2|s2| |s2 m2 e2]; try done;
    destruct s1, s2; try done; intros H1 H2; sf_compare.
Qed.

Lemma f64_nle_refl x : Float64.nle x x = true.
Proof.
  rewrite f64_nle_spec. destruct (Prim2SF x) eqn:E; try done;
    rewrite <- E; apply SFleb_refl; by rewrite E.
Qed.

Lemma f64_nle_trans x y z :
  Float64.nle x y = true -> Float64.nle y z = true -> Float64.nle x z = true.
Proof.
  rewrite !f64_nle_spec. intros H1 H2.
  destruct (Prim2SF z) eqn:Ez; try done; rewrite <- Ez in *;
    (destruct (Prim2SF y) eqn:Ey;
     [rewrite <- Ey in *; by eapply SFleb_trans..
     | by rewrite Ez in H2; destruct (Prim2SF x)
     | rewrite <- Ey in *; by eapply SFleb_trans]).
Qed.

Lemma f64_nle_total x y :
  Float64.nle x y = false -> Float64.nle y x = true.
Proof.
  rewrite !f64_nle_spec.
  destruct (Prim2SF y) eqn:Ey; try done; rewrite <- Ey;
    (destruct (Prim2SF x) eqn:Ex; try done; rewrite <- Ex;
     intros H; apply SFleb_total; try done; by rewrite ?Ex, ?Ey).
Qed.

(** A NaN is not below any bound, and what is at most a number below
    [theta] is below [theta]. *)
Lemma f64_nle_ltb x d theta :
  Float64.nle x d = true -> (d <? theta)%float = true ->
  (x <? theta)%float = true.
Proof.
  rewrite f64_nle_spec, !ltb_spec. intros H1 H2.
  apply SFltb_SFleb in H2 as [H2 H3].
  destruct (Prim2SF d) eqn:Ed; try done; rewrite <- Ed in *;
    (apply SFleb_SFltb;
     [ by eapply SFleb_trans
     | destruct (SFleb (Prim2SF theta) (Prim2SF x)) eqn:E; [|done];
       by rewrite (SFleb_trans _ _ _ E H1) in H3 ]).
Qed.

Lemma f64_maximum_nle x y :
  Float64.maximum x y = if Float64.nle y x then x else y.
Proof. unfold Float64.maximum, Float64.nle. by rewrite orb_comm. Qed.

Lemma f64_foldl_maximum_ub (a : list float) :
  forall x,
    Float64.nle x (foldl Float64.maximum x a) = true /\
    (forall y, y ∈ a -> Float64.nle y (foldl Float64.maximum x a) = true).
Proof.
  induction a as [|z a IH]; intros x; simpl.
  - split; [apply f64_nle_refl | by inversion 1].
  - destruct (IH (Float64.maximum x z)) as [H1 H2].
    rewrite f64_maximum_nle in *.
    destruct (Float64.nle z x) eqn:E.
    + split; [done|]. intros y Hy.
      apply elem_of_cons in Hy as [->|Hy]; [|by apply H2].
      by eapply f64_nle_trans.
    + split.
      * eapply f64_nle_trans; [|exact H1]. by apply f64_nle_total.
      * intros y Hy. apply elem_of_cons in Hy as [->|Hy]; [done|].
        by apply H2.
Qed.

Lemma f64_foldl_maximum_elem (a : list float) :
  forall x, foldl Float64.maximum x a = x \/ foldl Float64.maximum x a ∈ a.
Proof.
  induction a as [|z a IH]; intros x; simpl.
  - by left.
  - destruct (IH (Float64.maximum x z)) as [H|H].
    + rewrite H. unfold Float64.maximum.
      destruct ((z <=? x)%float || is_nan x); [by left | right; left].
    + right. by right.
Qed.

(** [np.max] returns an entry of the array that no entry exceeds in
    numpy's order. *)
Lemma f64_np_max_spec (a : list float) m :
  Float64.np_max a = Ok m ->
  m ∈ a /\ forall y, y ∈ a -> Float64.nle y m = true.
Proof.
  destruct a as [|x a]; simpl; [done|]. intros [= <-]. split.
  - destruct (f64_foldl_maximum_elem a x) as [->|H]; [left | by right].
  - intros y Hy. destruct (f64_foldl_maximum_ub a x) as [H1 H2].
    apply elem_of_cons in Hy as [->|Hy]; auto.
Qed.

Lemma f64_argmax_scan_spec (a : list float) :
  forall pre best best_i,
    pre !! best_i = Some best ->
    (forall j x, pre !! j = Some x -> Float64.nle x best = true) ->
    (forall j x, (j < best_i)%nat -> pre !! j = Some x ->
                 Float64.nle best x = false) ->
    Float64.lowest_argmax (pre ++ a)
      (Float64.argmax_scan best best_i (length pre) a) /\
    (pre ++ a) !! Float64.argmax_scan best best_i (length pre) a
    = Some (foldl Float64.maximum best a).
Proof.
  induction a as [|x a IH]; intros pre best best_i Hbest Hub Hfirst; simpl.
  - rewrite app_nil_r. split; [by exists best | done].
  - assert (Hpre : forall j y, pre !! j = Some y ->
                     (pre ++ x :: a) !! j = Some y).
    { intros j y Hy. rewrite lookup_app_l; [done|]. by eapply lookup_lt_Some. }
    destruct (is_nan best) eqn:Hnan.
    + assert (forall l, foldl Float64.maximum best l = best) as Hfold.
      { induction l as [|y l IHl]; simpl; [done|].
        unfold Float64.maximum at 2. by rewrite Hnan, orb_true_r. }
      change (foldl Float64.maximum (Float64.maximum best x) a)
        with (foldl Float64.maximum best (x :: a)).
      rewrite (Hfold (x :: a)). split; [|by apply Hpre].
      exists best. split; [by apply Hpre|]. split.
      * intros j y _. unfold Float64.nle. by rewrite Hnan.
      * intros j y Hj Hy. apply (Hfirst j); [done|].
        rewrite lookup_app_l in Hy; [done|].
        apply lookup_lt_Some in Hbest. lia.
    + replace (pre ++ x :: a) with ((pre ++ [x]) ++ a)
        by (by rewrite <- app_assoc).
      replace (S (length pre)) with (length (pre ++ [x]))
        by (rewrite length_app; simpl; lia).
      assert (Float64.nle x best = (x <=? best)%float) as Hle
        by (unfold Float64.nle; by rewrite Hnan).
      unfold Float64.maximum at 2. rewrite Hnan, orb_false_r, <- Hle.
      destruct (Float64.nle x best) eqn:E; simpl.
      * apply IH.
        -- rewrite lookup_app_l; [done|]. by eapply lookup_lt_Some.
        -- intros j y Hy. apply lookup_app_Some in Hy as [Hy|[_ Hy]]; eauto.
           by apply list_lookup_singleton_Some in Hy as [_ <-].
        -- intros j y Hj Hy. apply (Hfirst j); [done|].
           rewrite lookup_app_l in Hy; [done|].
           apply lookup_lt_Some in Hbest. lia.
      * pose proof (f64_nle_total _ _ E) as Hbx. apply IH.
        -- rewrite lookup_app_r by lia.
           by replace (length pre - length pre)%nat with O by lia.
        -- intros j y Hy. apply lookup_app_Some in Hy as [Hy|[_ Hy]].
           ++ eapply f64_nle_trans; [by eapply Hub | done].
           ++ apply list_lookup_singleton_Some in Hy as [_ <-].
              apply f64_nle_refl.
        -- intros j y Hj Hy. rewrite lookup_app_l in Hy by done.
           destruct (Float64.nle x y) eqn:Exy; [|done].
           rewrite (f64_nle_trans x y best) in E; [done..|by eapply Hub].
Qed.

(** [np.argmax] returns the lowest index of a maximum of the row, and the
    entry there is [np.max] of the row. *)
Lemma f64_np_argmax_spec (row : list float) a :
  Float64.np_argmax row = Ok a ->
  Float64.lowest_argmax row a /\
  exists m, Float64.np_max row = Ok m /\ row !! a = Some m.
Proof.
  destruct row as [|x row]; simpl; [done|]. intros [= <-].
  destruct (f64_argmax_scan_spec row [x] x 0%nat) as [H1 H2].
  - done.
  - intros [|j] y; simpl; [intros [= <-]; apply f64_nle_refl | done].
  - lia.
  - split; [exact H1|]. eexists. split; [done|]. exact H2.
Qed.

(** ** The in-place loops compute the arrays entry by entry *)

Lemma f64_rfold_pe_accumulate gamma state_values state outs :
  forall current_values c,
    current_values !! state = Some c ->
    rfold outs (Float64.pe_accumulate gamma state_values state) current_values
    = let? x := Float64.accumulate gamma state_values outs c in
      Ok (<[state := x]> current_values).
Proof.
  induction outs as [|o outs IH]; intros cv c Hc; simpl.
  - by rewrite list_insert_id.
  - unfold Float64.pe_accumulate at 1, arr_getitem. rewrite Hc. simpl.
    unfold Float64.accumulate. simpl.
    destruct (Float64.backup_term gamma state_values o) as [x|e|];
      simpl; try done.
    rewrite (IH _ (c + x)%float).
    + unfold Float64.accumulate.
      destruct (rfold outs _ (c + x)%float); simpl; try done.
      by rewrite list_insert_insert_eq.
    + apply list_lookup_insert_eq. by eapply lookup_lt_Some.
Qed.

Lemma f64_pe_state_eq pi mdp gamma state_values state current_values :
  current_values !! state = Some 0%float ->
  Float64.pe_state pi mdp gamma state_values state current_values
  = let? x := Float64.pe_value pi mdp gamma state_values state in
    Ok (<[state := x]> current_values).
Proof.
  intros Hc. unfold Float64.pe_state, Float64.pe_value, dict_getitem.
  destruct (mdp !! state) as [acts|]; simpl; try done.
  destruct (pi !! state) as [a|]; simpl; try done.
  destruct (acts !! a) as [outs|]; simpl; try done.
  by rewrite (f64_rfold_pe_accumulate _ _ _ _ _ 0%float).
Qed.

Lemma f64_pe_sweep_from pi mdp gamma state_values n :
  forall k pre,
    length pre = k ->
    rfold (seq k n) (Float64.pe_state pi mdp gamma state_values)
          (pre ++ replicate n 0%float)
    = let? vs := rmap (Float64.pe_value pi mdp gamma state_values)
                      (seq k n) in
      Ok (pre ++ vs).
Proof.
  induction n as [|n IH]; intros k pre Hk; simpl.
  - done.
  - rewrite f64_pe_state_eq.
    2:{ rewrite lookup_app_r by lia.
        by replace (k - length pre)%nat with O by lia. }
    destruct (Float64.pe_value pi mdp gamma state_values k) as [x|e|];
      simpl; try done.
    replace (<[k := x]> (pre ++ 0%float :: replicate n 0%float))
      with ((pre ++ [x]) ++ replicate n 0%float).
    2:{ rewrite insert_app_r_alt by lia.
        replace (k - length pre)%nat with O by lia. simpl.
        by rewrite <- app_assoc. }
    rewrite IH by (rewrite length_app; simpl; lia).
    destruct (rmap _ (seq (S k) n)); simpl; try done.
    by rewrite <- app_assoc.
Qed.

(** The sweep of [policy_evaluation] leaves in [current_values] the list of
    the per-state values, and raises where the first of them raises. *)
Lemma f64_pe_sweep_eq pi mdp gamma state_space state_values :
  Float64.pe_sweep pi mdp gamma state_space state_values
  = rmap (Float64.pe_value pi mdp gamma state_values) (range state_space).
Proof.
  unfold Float64.pe_sweep, range, Float64.np_zeros.
  rewrite (f64_pe_sweep_from _ _ _ _ state_space 0 []) by done.
  by destruct (rmap _ _).
Qed.

Lemma f64_rfold_q_accumulate gamma value_function state action nc outs :
  forall rs row c,
    rs !! state = Some row ->
    row !! action = Some c ->
    rfold outs (Float64.q_accumulate gamma value_function state action)
          (Float64.Ndarray2 nc rs)
    = let? x := Float64.accumulate gamma value_function outs c in
      Ok (Float64.Ndarray2 nc (<[state := <[action := x]> row]> rs)).
Proof.
  induction outs as [|o outs IH]; intros rs row c Hrow Hc; simpl.
  - by rewrite (list_insert_id row), (list_insert_id rs).
  - unfold Float64.q_accumulate at 1, arr_getitem. simpl. rewrite Hrow. simpl.
    rewrite Hc. simpl. unfold Float64.accumulate. simpl.
    destruct (Float64.backup_term gamma value_function o) as [x|e|];
      simpl; try done.
    rewrite (IH _ (<[action := (c + x)%float]> row) (c + x)%float).
    + unfold Float64.accumulate.
      destruct (rfold outs _ (c + x)%float); simpl; try done.
      by rewrite !list_insert_insert_eq.
    + apply list_lookup_insert_eq. by eapply lookup_lt_Some.
    + apply list_lookup_insert_eq. by eapply lookup_lt_Some.
Qed.

Lemma f64_q_action_eq mdp gamma value_function state action nc rs row :
  rs !! state = Some row ->
  row !! action = Some 0%float ->
  Float64.q_action mdp gamma value_function state action
                   (Float64.Ndarray2 nc rs)
  = let? x := Float64.q_value mdp gamma value_function state action in
    Ok (Float64.Ndarray2 nc (<[state := <[action := x]> row]> rs)).
Proof.
  intros Hrow Hc.
  unfold Float64.q_action, Float64.q_value, dict_getitem.
  destruct (mdp !! state) as [acts|]; simpl; try done.
  destruct (acts !! action) as [outs|]; simpl; try done.
  by rewrite (f64_rfold_q_accumulate _ _ _ _ _ _ _ row 0%float).
Qed.

Lemma f64_q_state_from mdp gamma value_function state nc n :
  forall k pre rs,
    length pre = k ->
    rs !! state = Some (pre ++ replicate n 0%float) ->
    rfold (seq k n) (Float64.q_action mdp gamma value_function state)
          (Float64.Ndarray2 nc rs)
    = let? vs := rmap (Float64.q_value mdp gamma value_function state)
                      (seq k n) in
      Ok (Float64.Ndarray2 nc (<[state := pre ++ vs]> rs)).
Proof.
  induction n as [|n IH]; intros k pre rs Hk Hrow; simpl.
  - simpl in Hrow. rewrite !app_nil_r in *. by rewrite list_insert_id.
  - rewrite (f64_q_action_eq _ _ _ _ _ _ _ _ Hrow).
    2:{ rewrite lookup_app_r by lia.
        by replace (k - length pre)%nat with O by lia. }
    destruct (Float64.q_value mdp gamma value_function state k) as [x|e|];
      simpl; try done.
    replace (<[k := x]> (pre ++ 0%float :: replicate n 0%float))
      with ((pre ++ [x]) ++ replicate n 0%float).
    2:{ rewrite insert_app_r_alt by lia.
        replace (k - length pre)%nat with O by lia. simpl.
        by rewrite <- app_assoc. }
    rewrite (IH (S k) (pre ++ [x])).
    + destruct (rmap _ (seq (S k) n)); simpl; try done.
      by rewrite list_insert_insert_eq, <- app_assoc.
    + rewrite length_app; simpl; lia.
    + apply list_lookup_insert_eq. by eapply lookup_lt_Some.
Qed.

Lemma f64_q_state_eq mdp gamma value_function action_space state nc rs :
  rs !! state = Some (replicate action_space 0%float) ->
  Float64.q_state mdp gamma value_function action_space state
                  (Float64.Ndarray2 nc rs)
  = let? vs := rmap (Float64.q_value mdp gamma value_function state)
                    (range action_space) in
    Ok (Float64.Ndarray2 nc (<[state := vs]> rs)).
Proof.
  intros Hrow. unfold Float64.q_state, range.
  by rewrite (f64_q_state_from _ _ _ _ _ action_space 0 []).
Qed.

Lemma f64_action_values_from mdp gamma value_function action_space nc n :
  forall k pre,
    length pre = k ->
    rfold (seq k n) (Float64.q_state mdp gamma value_function action_space)
          (Float64.Ndarray2 nc
             (pre ++ replicate n (replicate action_space 0%float)))
    = let? rs := rmap (fun state =>
                         rmap (Float64.q_value mdp gamma value_function state)
                              (range action_space)) (seq k n) in
      Ok (Float64.Ndarray2 nc (pre ++ rs)).
Proof.
  induction n as [|n IH]; intros k pre Hk; simpl.
  - done.
  - rewrite f64_q_state_eq.
    2:{ rewrite lookup_app_r by lia.
        by replace (k - length pre)%nat with O by lia. }
    destruct (rmap (Float64.q_value mdp gamma value_function k)
                   (range action_space)) as [vs|e|]; simpl; try done.
    replace (<[k := vs]> (pre ++ replicate action_space 0%float
                              :: replicate n (replicate action_space 0%float)))
      with ((pre ++ [vs]) ++ replicate n (replicate action_space 0%float)).
    2:{ rewrite insert_app_r_alt by lia.
        replace (k - length pre)%nat with O by lia. simpl.
        by rewrite <- app_assoc. }
    rewrite IH by (rewrite length_app; simpl; lia).
    destruct (rmap _ (seq (S k) n)); simpl; try done.
    by rewrite <- app_assoc.
Qed.

(** The triple loop leaves in [Q_vals] the table of the per-pair values, and
    raises where the first of them raises. *)
Lemma f64_action_values_eq mdp gamma value_function state_space action_space :
  Float64.action_values mdp gamma value_function state_space action_space
  = let? rs := Float64.q_rows mdp gamma value_function
                              state_space action_space in
    Ok (Float64.Ndarray2 action_space rs).
Proof.
  unfold Float64.action_values, Float64.q_rows, range, Float64.np_zeros2,
    Float64.np_zeros.
  by rewrite <- (f64_action_values_from _ _ _ _ _ state_space 0 []).
Qed.

Lemma f64_q_rows_lookup mdp gamma V state_space action_space rs s :
  Float64.q_rows mdp gamma V state_space action_space = Ok rs ->
  (s < state_space)%nat ->
  exists row,
    rs !! s = Some row /\ length row = action_space /\
    forall a, (a < action_space)%nat ->
      exists q, row !! a = Some q /\ Float64.q_value mdp gamma V s a = Ok q.
Proof.
  intros Hrs Hs.
  destruct (rmap_range_lookup _ _ _ _ Hrs Hs) as (row & Hrow & Hq).
  exists row. split; [done|]. split; [by eapply rmap_range_length|].
  intros a Ha. by eapply rmap_range_lookup.
Qed.

(** ** The loops *)

(** What the loop of [policy_evaluation] returns: the sweep of the array
    [prev] of the round before, which passed the convergence test.  [prev]
    is the initial array, or the sweep of an array [before] that failed
    the test. *)
Lemma f64_pe_loop_Ok pi mdp gamma theta fuel state_space V :
  forall state_values,
    Float64.pe_loop pi mdp gamma theta fuel state_space state_values = Ok V ->
    exists prev delta,
      Float64.pe_sweep pi mdp gamma state_space prev = Ok V /\
      Float64.np_max (Float64.np_absolute (Float64.np_sub prev V))
      = Ok delta /\
      (delta <? theta)%float = true /\
      (length state_values = state_space -> length prev = state_space) /\
      (prev = state_values \/
       exists before delta',
         Float64.pe_sweep pi mdp gamma state_space before = Ok prev /\
         Float64.np_max (Float64.np_absolute (Float64.np_sub before prev))
         = Ok delta' /\
         (delta' <? theta)%float = false).
Proof.
  induction fuel as [|fuel IH]; intros sv; [done|]. simpl.
  destruct (Float64.pe_sweep pi mdp gamma state_space sv)
    as [cv|e|] eqn:Hcv; simpl; try done.
  destruct (Float64.np_max _) as [delta|e|] eqn:Hmax; simpl; try done.
  destruct (delta <? theta)%float eqn:Hlt.
  - intros [= <-]. exists sv, delta. repeat (split; [done|]). by left.
  - intros (prev & d & H1 & H2 & H3 & H4 & H5)%IH. exists prev, d.
    split; [done|]. split; [done|]. split; [done|]. split.
    + intros _. apply H4. rewrite f64_pe_sweep_eq in Hcv.
      by eapply rmap_range_length.
    + right. destruct H5 as [->|H5]; [|done]. by exists sv, delta.
Qed.

(** What the loop of [value_iteration] hands over when it stops: the table
    of the last sweep and the array that this sweep read. *)
Lemma f64_vi_loop_Ok mdp gamma theta fuel state_space action_space Q_vals V :
  forall vf,
    length vf = state_space ->
    Float64.vi_loop mdp gamma theta fuel state_space action_space vf
    = Ok (Q_vals, V) ->
    length V = state_space /\
    exists best delta,
      Float64.action_values mdp gamma V state_space action_space
      = Ok Q_vals /\
      Float64.np_max_axis1 Q_vals = Ok best /\
      Float64.np_max (Float64.np_absolute (Float64.np_sub V best))
      = Ok delta /\
      (delta <? theta)%float = true.
Proof.
  induction fuel as [|fuel IH]; intros vf Hlen; [done|]. simpl.
  destruct (Float64.action_values mdp gamma vf state_space action_space)
    as [Q|e|] eqn:HQ; simpl; try done.
  destruct (Float64.np_max_axis1 Q) as [best|e|] eqn:Hbest; simpl; try done.
  destruct (Float64.np_max _) as [delta|e|] eqn:Hmax; simpl; try done.
  destruct (delta <? theta)%float eqn:Hlt.
  - intros [= <- <-]. split; [done|]. by exists best, delta.
  - apply IH.
    rewrite f64_action_values_eq in HQ.
    apply rbind_Ok in HQ as (rs & Hrs & [= <-]).
    unfold Float64.np_max_axis1 in Hbest. simpl in Hbest.
    destruct (action_space =? 0)%nat; [done|].
    apply rmap_length in Hbest. apply rmap_range_length in Hrs. congruence.
Qed.

Lemma f64_policy_constructor_Ok Q_vals pi :
  Float64.policy_constructor Q_vals = Ok pi ->
  Float64.ncols Q_vals <> 0%nat /\
  dom pi = set_seq 0 (length (Float64.rows Q_vals)) /\
  forall s row,
    Float64.rows Q_vals !! s = Some row ->
    exists a m,
      pi !! s = Some a /\ Float64.lowest_argmax row a /\
      Float64.np_max row = Ok m /\ row !! a = Some m.
Proof.
  unfold Float64.policy_constructor, Float64.np_argmax_axis1.
  destruct (Float64.ncols Q_vals =? 0)%nat eqn:E; simpl; [done|].
  apply Nat.eqb_neq in E.
  intros (greedy & Hg & [= <-])%rbind_Ok. split; [done|]. split.
  - rewrite dict_of_enumerate_dom. f_equal. by eapply rmap_length.
  - intros s row Hrow.
    destruct (rmap_lookup _ _ _ _ _ Hg Hrow) as (a & Ha & Harg).
    apply f64_np_argmax_spec in Harg as (Hlow & m & Hm & Hrm).
    exists a, m. by rewrite dict_of_enumerate_lookup.
Qed.

(** ** Policy evaluation returns the last sweep *)

Lemma f64_absdiff_lookup (V W : list float) s v w :
  V !! s = Some v -> W !! s = Some w ->
  Float64.np_absolute (Float64.np_sub V W) !! s = Some (abs (v - w))%float.
Proof.
  intros Hv Hw. unfold Float64.np_absolute, Float64.np_sub.
  rewrite list_lookup_fmap, lookup_zip_with, Hv. simpl. by rewrite Hw.
Qed.

(** The convergence test bounds every entry: if the maximum of the
    absolute differences is below [theta], every one of them is. *)
Lemma f64_converged_pointwise (V W : list float) delta theta s v w :
  Float64.np_max (Float64.np_absolute (Float64.np_sub V W)) = Ok delta ->
  (delta <? theta)%float = true ->
  V !! s = Some v -> W !! s = Some w ->
  (abs (v - w) <? theta)%float = true.
Proof.
  intros [_ Hub]%f64_np_max_spec Hlt Hv Hw.
  eapply f64_nle_ltb; [|exact Hlt]. apply Hub.
  apply list_elem_of_lookup. exists s. by apply f64_absdiff_lookup.
Qed.

(** C2 (as corrected).  Whenever [policy_evaluation] returns, on any MDP
    and for any [gamma] and [theta], the returned array [V] is the result of
    the last full synchronous sweep of the loop body, applied to the array
    [prev] of the round before: [V[s]] is the sum, accumulated in float64
    in the order of the outcomes of [(s, pi[s])], of
    [prob * (reward + gamma * prev[next_state] * (not done))], and this
    last sweep changed the value of every state by strictly less than
    [theta].  [prev] is the array of zeros, or the result of a sweep that
    did not pass the test.  The bound is on the sweep that produced [V],
    not on a further sweep applied to [V]. *)
Theorem f64_policy_evaluation_last_sweep pi mdp gamma theta fuel V :
  Float64.policy_evaluation pi mdp gamma theta fuel = Ok V ->
  exists prev,
    length prev = size mdp /\ length V = size mdp /\
    Float64.pe_sweep pi mdp gamma (size mdp) prev = Ok V /\
    (forall s, (s < size mdp)%nat ->
       exists p v,
         prev !! s = Some p /\ V !! s = Some v /\
         Float64.pe_value pi mdp gamma prev s = Ok v /\
         (abs (p - v) <? theta)%float = true) /\
    (prev = Float64.np_zeros (size mdp) \/
     exists before delta,
       Float64.pe_sweep pi mdp gamma (size mdp) before = Ok prev /\
       Float64.np_max (Float64.np_absolute (Float64.np_sub before prev))
       = Ok delta /\
       (delta <? theta)%float = false).
Proof.
  unfold Float64.policy_evaluation.
  intros (prev & delta & Hsweep & Hmax & Hlt & Hlen & Hprev)%f64_pe_loop_Ok.
  specialize (Hlen (length_replicate _ _)).
  pose proof Hsweep as Hrmap. rewrite f64_pe_sweep_eq in Hrmap.
  pose proof (rmap_range_length _ _ _ Hrmap) as HlenV.
  exists prev. split; [done|]. split; [done|]. split; [done|].
  split; [|done].
  intros s Hs.
  destruct (lookup_lt_is_Some_2 prev s) as [p Hp]; [lia|].
  destruct (rmap_range_lookup _ _ _ _ Hrmap Hs) as (v & Hv & Hpe).
  exists p, v. split; [done|]. split; [done|]. split; [done|].
  by eapply f64_converged_pointwise.
Qed.

Lemma f64_policy_evaluation_last_sweep_witness :
  exists V,
    Float64.policy_evaluation sbw_optimal_policy Float64.slippery_bandit_walk
                              1 Float64.theta_default 200 = Ok V /\
    exists prev,
      length prev = size Float64.slippery_bandit_walk /\
      length V = size Float64.slippery_bandit_walk /\
      Float64.pe_sweep sbw_optimal_policy Float64.slippery_bandit_walk 1
                       (size Float64.slippery_bandit_walk) prev = Ok V /\
      (forall s, (s < size Float64.slippery_bandit_walk)%nat ->
         exists p v,
           prev !! s = Some p /\ V !! s = Some v /\
           Float64.pe_value sbw_optimal_policy Float64.slippery_bandit_walk 1
                            prev s = Ok v /\
           (abs (p - v) <? Float64.theta_default)%float = true) /\
      (prev = Float64.np_zeros (size Float64.slippery_bandit_walk) \/
       exists before delta,
         Float64.pe_sweep sbw_optimal_policy Float64.slippery_bandit_walk 1
                          (size Float64.slippery_bandit_walk) before
         = Ok prev /\
         Float64.np_max (Float64.np_absolute (Float64.np_sub before prev))
         = Ok delta /\
         (delta <? Float64.theta_default)%float = false).
Proof.
  eexists. split; [vm_compute; reflexivity|].
  apply (f64_policy_evaluation_last_sweep sbw_optimal_policy
           Float64.slippery_bandit_walk 1 Float64.theta_default 200).
  vm_compute; reflexivity.
Defined.

(** C2 as stated fails in float64.  On the one-state MDP with the outcomes
    [(0.75, 0, 400000.0, False)] and [(0.25, 0, 0.0, True)], the policy
    [{0: 0}], [gamma = 0.5] and [theta = 1e-10], [policy_evaluation]
    returns [[479999.99999999988]] in its 37th sweep (36 sweeps do not
    pass the test).  One more sweep of the loop body on the returned array
    gives [[480000.0]]: the value of state 0 changes by about [1.164e-10],
    which is not below [theta]. *)
Lemma f64_policy_evaluation_next_sweep_counterexample :
  exists V V' delta,
    Float64.policy_evaluation one_state_policy Float64.rounding_mdp
                              0x1p-1 Float64.theta_default 36 = OutOfFuel /\
    Float64.policy_evaluation one_state_policy Float64.rounding_mdp
                              0x1p-1 Float64.theta_default 37 = Ok V /\
    V = [0x1.d4bfffffffffep18]%float /\
    Float64.pe_sweep one_state_policy Float64.rounding_mdp 0x1p-1
                     (size Float64.rounding_mdp) V = Ok V' /\
    V' = [480000]%float /\
    Float64.np_max (Float64.np_absolute (Float64.np_sub V V')) = Ok delta /\
    delta = 0x1p-33%float /\
    (delta <? Float64.theta_default)%float = false.
Proof.
  eexists _, _, _.
  split; [vm_compute; reflexivity|].
  split; [vm_compute; reflexivity|].
  split; [reflexivity|].
  split; [vm_compute; reflexivity|].
  split; [reflexivity|].
  split; [vm_compute; reflexivity|].
  split; [reflexivity|].
  vm_compute; reflexivity.
Qed.

(** ** Policy improvement and the returned policies *)

Lemma f64_policy_improvement_Ok V mdp gamma pi :
  Float64.policy_improvement V mdp gamma = Ok pi ->
  dom pi = set_seq 0 (size mdp) /\
  forall s, (s < size mdp)%nat ->
    exists row a m,
      rmap (Float64.q_value mdp gamma V s)
           (range (Float64.action_space_of mdp)) = Ok row /\
      pi !! s = Some a /\ Float64.lowest_argmax row a /\
      Float64.np_max row = Ok m /\ row !! a = Some m.
Proof.
  unfold Float64.policy_improvement, Float64.action_space_of, dict_getitem.
  destruct (mdp !! 0%nat) as [acts0|]; simpl; [|done].
  rewrite f64_action_values_eq.
  intros (Q & (rs & Hrs & [= <-])%rbind_Ok & Hpi)%rbind_Ok.
  apply f64_policy_constructor_Ok in Hpi as (_ & Hdom & Hrows).
  simpl in *. pose proof (rmap_range_length _ _ _ Hrs) as Hlen.
  split; [by rewrite Hdom, Hlen|].
  intros s Hs.
  destruct (rmap_range_lookup _ _ _ _ Hrs Hs) as (row & Hrow & Hq).
  destruct (Hrows s row Hrow) as (a & m & Ha & Hlow & Hm & Hrm).
  by exists row, a, m.
Qed.

Lemma f64_np_getitem_total (a : list float) i :
  (- Z.of_nat (length a) <= i < Z.of_nat (length a))%Z ->
  exists x, np_getitem a i = Ok x.
Proof.
  intros Hi. unfold np_getitem.
  set (j := if (0 <=? i)%Z then i else (Z.of_nat (length a) + i)%Z).
  assert (0 <= j < Z.of_nat (length a))%Z as Hj.
  { unfold j. destruct (0 <=? i)%Z eqn:E;
      [apply Z.leb_le in E|apply Z.leb_gt in E]; lia. }
  destruct (j <? 0)%Z eqn:E; [apply Z.ltb_lt in E; lia|].
  destruct (lookup_lt_is_Some_2 a (Z.to_nat j)) as [x Hx]; [lia|].
  rewrite Hx. eauto.
Qed.

Lemma f64_accumulate_total gamma V outs :
  Forall (fun o => (- Z.of_nat (length V) <= Float64.state_prime o
                    < Z.of_nat (length V))%Z) outs ->
  forall acc, exists t, Float64.accumulate gamma V outs acc = Ok t.
Proof.
  unfold Float64.accumulate.
  induction 1 as [|o outs Ho _ IH]; intros acc; simpl.
  - by eexists.
  - unfold Float64.backup_term.
    destruct (f64_np_getitem_total V _ Ho) as [v ->]. simpl. apply IH.
Qed.

Lemma f64_action_space_of_Some (mdp : Float64.MDP) :
  Float64.action_space_of mdp <> 0%nat ->
  exists acts0, mdp !! 0%nat = Some acts0 /\
                size acts0 = Float64.action_space_of mdp.
Proof.
  unfold Float64.action_space_of. destruct (mdp !! 0%nat) as [acts0|]; simpl.
  - eauto.
  - by rewrite map_size_empty.
Qed.

Lemma f64_q_rows_total mdp gamma V :
  Float64.well_shaped mdp (length V) ->
  exists rs, Float64.q_rows mdp gamma V (size mdp)
                            (Float64.action_space_of mdp) = Ok rs.
Proof.
  intros [_ Hshape]. apply rmap_total. intros s Hs.
  unfold range in Hs. apply elem_of_seq in Hs.
  destruct (Hshape s) as (acts & Hacts & Hact); [lia|].
  apply rmap_total. intros a Ha. unfold range in Ha. apply elem_of_seq in Ha.
  destruct (Hact a) as (outs & Houts & Hin); [lia|].
  unfold Float64.q_value, dict_getitem.
  rewrite Hacts. simpl. rewrite Houts. simpl.
  by apply f64_accumulate_total.
Qed.

Lemma f64_policy_constructor_total action_space rs :
  action_space <> 0%nat ->
  (forall s row, rs !! s = Some row -> length row = action_space) ->
  exists pi, Float64.policy_constructor (Float64.Ndarray2 action_space rs)
             = Ok pi.
Proof.
  intros HA Hrows. unfold Float64.policy_constructor, Float64.np_argmax_axis1.
  simpl. apply Nat.eqb_neq in HA. rewrite HA.
  destruct (rmap_total Float64.np_argmax rs) as [greedy ->]; [|simpl; eauto].
  intros row Hrow. apply list_elem_of_lookup in Hrow as [s Hs].
  specialize (Hrows s row Hs).
  destruct row; simpl in *; [apply Nat.eqb_neq in HA; lia | eauto].
Qed.

Lemma f64_policy_improvement_total V mdp gamma :
  Float64.well_shaped mdp (length V) ->
  exists pi, Float64.policy_improvement V mdp gamma = Ok pi.
Proof.
  intros Hshape. pose proof Hshape as [HA _].
  destruct (f64_action_space_of_Some _ HA) as (acts0 & H0 & HA0).
  destruct (f64_q_rows_total mdp gamma V Hshape) as [rs Hrs].
  unfold Float64.policy_improvement, dict_getitem. rewrite H0. simpl.
  rewrite f64_action_values_eq, HA0, Hrs. simpl.
  apply f64_policy_constructor_total; [done|].
  intros s row Hrow. unfold Float64.q_rows in Hrs.
  destruct (Forall2_lookup_r _ _ _ _ _ (proj1 (rmap_Forall2 _ _ _) Hrs) Hrow)
    as (s' & _ & Hq).
  apply rmap_length in Hq. unfold range in Hq.
  by rewrite length_seq in Hq.
Qed.

(** The walk has the shape of the data model, for arrays of five values. *)
Lemma f64_slippery_bandit_walk_well_shaped :
  Float64.well_shaped Float64.slippery_bandit_walk 5.
Proof.
  split; [by vm_compute|].
  intros s Hs. vm_compute in Hs.
  do 5 (destruct s as [|s];
        [ eexists; split; [vm_compute; reflexivity|];
          intros a Ha; vm_compute in Ha;
          do 2 (destruct a as [|a];
                [ eexists; split; [vm_compute; reflexivity|];
                  repeat constructor; done |]);
          lia |]).
  lia.
Qed.

(** C3.  On any value function, MDP and [gamma]: whenever
    [policy_improvement] returns, the policy is defined on the states
    [0 .. len(mdp)-1] and maps every state [s] to the lowest-indexed
    action among those achieving the maximum of [Q[s][a]] over all
    actions [a]; and on an MDP of the shape of the data model it does
    return.  [Q[s][a]] is the entry of the table that the code fills: the
    sum, accumulated in float64 in the order of the outcomes of [(s, a)],
    of [prob * (reward + gamma * V[next_state] * (not done))].  The
    maximum is the one of [np.max] and [np.argmax], in the order of the
    floats with NaN above every number: the entry [Q[s][pi[s]]] is
    [np.max(Q[s])], no entry of the row is above it, and every entry at a
    lower index is strictly below it.  The result is a function of the
    three arguments alone: no random draw and no other state is read. *)
Theorem f64_policy_improvement_lowest_argmax V mdp gamma :
  (forall pi,
     Float64.policy_improvement V mdp gamma = Ok pi ->
     dom pi = set_seq 0 (size mdp) /\
     forall s, (s < size mdp)%nat ->
       exists row a m,
         rmap (Float64.q_value mdp gamma V s)
              (range (Float64.action_space_of mdp)) = Ok row /\
         pi !! s = Some a /\
         row !! a = Some m /\
         Float64.np_max row = Ok m /\
         Float64.lowest_argmax row a) /\
  (Float64.well_shaped mdp (length V) ->
   exists pi, Float64.policy_improvement V mdp gamma = Ok pi).
Proof.
  split; [|apply f64_policy_improvement_total].
  intros pi [Hdom Hrows]%f64_policy_improvement_Ok. split; [done|].
  intros s Hs.
  destruct (Hrows s Hs) as (row & a & m & Hrow & Ha & Hlow & Hmax & Hm).
  by exists row, a, m.
Qed.

Lemma f64_policy_improvement_lowest_argmax_witness :
  Float64.well_shaped Float64.slippery_bandit_walk
                      (length [0; 0; 0; 0; 0]%float) /\
  exists pi,
    Float64.policy_improvement [0; 0; 0; 0; 0]%float
                               Float64.slippery_bandit_walk 1 = Ok pi /\
    dom pi = set_seq 0 (size Float64.slippery_bandit_walk) /\
    forall s, (s < size Float64.slippery_bandit_walk)%nat ->
      exists row a m,
        rmap (Float64.q_value Float64.slippery_bandit_walk 1
                              [0; 0; 0; 0; 0]%float s)
             (range (Float64.action_space_of Float64.slippery_bandit_walk))
        = Ok row /\
        pi !! s = Some a /\
        row !! a = Some m /\
        Float64.np_max row = Ok m /\
        Float64.lowest_argmax row a.
Proof.
  split; [exact f64_slippery_bandit_walk_well_shaped|].
  destruct (f64_policy_improvement_lowest_argmax [0; 0; 0; 0; 0]%float
              Float64.slippery_bandit_walk 1) as [Hgreedy Hreturns].
  destruct (Hreturns f64_slippery_bandit_walk_well_shaped) as [pi Hpi].
  exists pi. split; [exact Hpi | exact (Hgreedy pi Hpi)].
Defined.

(** ** The pair returned by value iteration *)

(** C10.  Whenever [value_iteration] returns [(pi, V)], on any MDP and for
    any [gamma] and [theta], the pair is self-consistent.  Let [Q[s][a]]
    be computed from the returned [V] itself as the code computes it: the
    sum, accumulated in float64 in the order of the outcomes of [(s, a)],
    of [prob * (reward + gamma * V[next_state] * (not done))].  Then [pi]
    maps every state [s] to the lowest-indexed maximiser of [Q[s]], the
    entry there is [np.max(Q[s])], and [V[s]] differs from it by strictly
    less than [theta] in every state. *)
Theorem f64_value_iteration_self_consistent mdp gamma theta fuel pi V :
  Float64.value_iteration mdp gamma theta fuel = Ok (pi, V) ->
  length V = size mdp /\
  dom pi = set_seq 0 (size mdp) /\
  forall s, (s < size mdp)%nat ->
    exists row a v m,
      rmap (Float64.q_value mdp gamma V s)
           (range (Float64.action_space_of mdp)) = Ok row /\
      pi !! s = Some a /\
      Float64.lowest_argmax row a /\
      row !! a = Some m /\
      Float64.np_max row = Ok m /\
      V !! s = Some v /\
      (abs (v - m) <? theta)%float = true.
Proof.
  unfold Float64.value_iteration, Float64.action_space_of, dict_getitem.
  destruct (mdp !! 0%nat) as [acts0|]; simpl; [|done].
  intros ([Q V'] & Hloop & (pi' & Hpi & [= <- <-])%rbind_Ok)%rbind_Ok.
  simpl in *.
  apply f64_vi_loop_Ok in Hloop
    as (HlenV & best & delta & HQ & Hbest & Hmax & Hlt);
    [|apply length_replicate].
  rewrite f64_action_values_eq in HQ.
  apply rbind_Ok in HQ as (rs & Hrs & [= <-]).
  apply f64_policy_constructor_Ok in Hpi as (HA & Hdom & Hrows).
  simpl in *. pose proof (rmap_range_length _ _ _ Hrs) as Hlen.
  split; [done|]. split; [by rewrite Hdom, Hlen|].
  intros s Hs.
  destruct (rmap_range_lookup _ _ _ _ Hrs Hs) as (row & Hrow & Hq).
  destruct (Hrows s row Hrow) as (a & m & Ha & Hlow & Hm & Hrm).
  destruct (lookup_lt_is_Some_2 V' s) as [v Hv]; [lia|].
  unfold Float64.np_max_axis1 in Hbest. simpl in Hbest.
  destruct (size acts0 =? 0)%nat; [done|].
  destruct (rmap_lookup _ _ _ _ _ Hbest Hrow) as (m' & Hm' & Hmax').
  assert (m' = m) as -> by congruence.
  exists row, a, v, m. repeat (split; [done|]).
  by eapply f64_converged_pointwise.
Qed.

Lemma f64_value_iteration_self_consistent_witness :
  exists pi V,
    Float64.value_iteration Float64.slippery_bandit_walk 1
                            Float64.theta_default 200 = Ok (pi, V) /\
    length V = size Float64.slippery_bandit_walk /\
    dom pi = set_seq 0 (size Float64.slippery_bandit_walk) /\
    forall s, (s < size Float64.slippery_bandit_walk)%nat ->
      exists row a v m,
        rmap (Float64.q_value Float64.slippery_bandit_walk 1 V s)
             (range (Float64.action_space_of Float64.slippery_bandit_walk))
        = Ok row /\
        pi !! s = Some a /\
        Float64.lowest_argmax row a /\
        row !! a = Some m /\
        Float64.np_max row = Ok m /\
        V !! s = Some v /\
        (abs (v - m) <? Float64.theta_default)%float = true.
Proof.
  eexists _, _. split; [vm_compute; reflexivity|].
  apply (f64_value_iteration_self_consistent Float64.slippery_bandit_walk 1
           Float64.theta_default 200).
  vm_compute; reflexivity.
Defined.

(** ** No iteration cap *)

Lemma f64_infinity_not_below theta : (infinity <? theta)%float = false.
Proof.
  rewrite ltb_spec.
  replace (Prim2SF infinity) with (S754_infinity false)
    by (vm_compute; reflexivity).
  unfold SFltb, SFcompare. by destruct (Prim2SF theta) as [| [] | |].
Qed.

Lemma f64_nan_not_below theta : (nan <? theta)%float = false.
Proof.
  rewrite ltb_spec.
  replace (Prim2SF nan) with S754_nan by (vm_compute; reflexivity).
  done.
Qed.

(** Once the value is [inf], every sweep gives [inf] again and the
    difference [inf - inf] is NaN, which is below no [theta]. *)
Lemma f64_overflowed_loop_diverges theta fuel :
  Float64.pe_loop one_state_policy (Float64.one_state_mdp 0x1p1023 false)
                  1 theta fuel 1 [infinity]
  = OutOfFuel.
Proof.
  induction fuel as [|fuel IH]; [done|].
  cbn [Float64.pe_loop].
  replace (Float64.pe_sweep one_state_policy
             (Float64.one_state_mdp 0x1p1023 false) 1 1 [infinity])
    with (Ok [infinity] : result (list float)) by (vm_compute; reflexivity).
  cbn [rbind].
  replace (Float64.np_max (Float64.np_absolute
             (Float64.np_sub [infinity] [infinity])))
    with (Ok nan : result float) by (vm_compute; reflexivity).
  cbn [rbind]. by rewrite f64_nan_not_below.
Qed.

(** C5.  [policy_evaluation] imposes no iteration cap, and there are
    inputs on which its loop never terminates.  With [gamma = 1], on the
    one-state MDP whose single action is a probability-1 non-terminal
    self-loop with the reward [2^1023], the value is [2^1023] after the
    first sweep and overflows to [inf] in the second; from then on every
    sweep gives [inf], the change [inf - inf] is NaN, and the test
    [NaN < theta] fails.  For every [theta] that the first change
    [2^1023] is not below, the loop runs for as many sweeps as it is
    allowed. *)
Theorem f64_policy_evaluation_no_iteration_cap theta :
  (0x1p1023 <? theta)%float = false ->
  forall fuel,
    Float64.policy_evaluation one_state_policy
                              (Float64.one_state_mdp 0x1p1023 false)
                              1 theta fuel
    = OutOfFuel.
Proof.
  intros Hth fuel. unfold Float64.policy_evaluation.
  replace (size (Float64.one_state_mdp 0x1p1023 false)) with 1%nat
    by (vm_compute; reflexivity).
  destruct fuel as [|fuel]; [done|]. cbn [Float64.pe_loop].
  replace (Float64.pe_sweep one_state_policy
             (Float64.one_state_mdp 0x1p1023 false) 1 1 (Float64.np_zeros 1))
    with (Ok [0x1p1023%float] : result (list float))
    by (vm_compute; reflexivity).
  cbn [rbind].
  replace (Float64.np_max (Float64.np_absolute
             (Float64.np_sub (Float64.np_zeros 1) [0x1p1023%float])))
    with (Ok 0x1p1023%float : result float) by (vm_compute; reflexivity).
  cbn [rbind]. rewrite Hth.
  destruct fuel as [|fuel]; [done|]. cbn [Float64.pe_loop].
  replace (Float64.pe_sweep one_state_policy
             (Float64.one_state_mdp 0x1p1023 false) 1 1 [0x1p1023%float])
    with (Ok [infinity] : result (list float)) by (vm_compute; reflexivity).
  cbn [rbind].
  replace (Float64.np_max (Float64.np_absolute
             (Float64.np_sub [0x1p1023%float] [infinity])))
    with (Ok infinity : result float) by (vm_compute; reflexivity).
  cbn [rbind]. rewrite f64_infinity_not_below.
  apply f64_overflowed_loop_diverges.
Qed.

Lemma f64_policy_evaluation_no_iteration_cap_witness :
  (0x1p1023 <? Float64.theta_default)%float = false /\
  forall fuel,
    Float64.policy_evaluation one_state_policy
                              (Float64.one_state_mdp 0x1p1023 false)
                              1 Float64.theta_default fuel
    = OutOfFuel.
Proof.
  split; [vm_compute; reflexivity|].
  apply (f64_policy_evaluation_no_iteration_cap Float64.theta_default).
  vm_compute; reflexivity.
Defined.

(** ** Runs that revisit an array *)

(** Rounds that fail the test use up fuel and nothing else. *)
Lemma f64_pe_rounds_loop pi mdp gamma theta k state_space :
  forall state_values a fuel,
    Float64.pe_rounds pi mdp gamma theta k state_space state_values
    = Some a ->
    Float64.pe_loop pi mdp gamma theta (k + fuel) state_space state_values
    = Float64.pe_loop pi mdp gamma theta fuel state_space a.
Proof.
  induction k as [|k IH]; intros sv a fuel; simpl.
  - by intros [= ->].
  - destruct (Float64.pe_sweep pi mdp gamma state_space sv)
      as [cv|e|]; simpl; try done.
    destruct (Float64.np_max _) as [delta|e|]; simpl; try done.
    destruct (delta <? theta)%float; [done|]. apply IH.
Qed.

Lemma f64_pe_rounds_short pi mdp gamma theta k state_space :
  forall state_values a fuel,
    Float64.pe_rounds pi mdp gamma theta k state_space state_values
    = Some a ->
    (fuel <= k)%nat ->
    Float64.pe_loop pi mdp gamma theta fuel state_space state_values
    = OutOfFuel.
Proof.
  induction k as [|k IH]; intros sv a fuel; simpl.
  - intros _ Hle. by replace fuel with 0%nat by lia.
  - destruct fuel as [|fuel]; [done|]. simpl.
    destruct (Float64.pe_sweep pi mdp gamma state_space sv)
      as [cv|e|]; simpl; try done.
    destruct (Float64.np_max _) as [delta|e|]; simpl; try done.
    destruct (delta <? theta)%float; [done|].
    intros Ha Hle. apply (IH cv a); [done|lia].
Qed.

Lemma f64_pe_loop_cycle pi mdp gamma theta p state_space a :
  Float64.pe_rounds pi mdp gamma theta (S p) state_space a = Some a ->
  forall fuel,
    Float64.pe_loop pi mdp gamma theta fuel state_space a = OutOfFuel.
Proof.
  intros Hcycle fuel.
  induction fuel as [fuel IH] using (well_founded_induction lt_wf).
  destruct (decide (fuel <= S p)%nat) as [Hle|Hgt].
  - by eapply f64_pe_rounds_short.
  - replace fuel with (S p + (fuel - S p))%nat by lia.
    rewrite (f64_pe_rounds_loop _ _ _ _ _ _ _ _ _ Hcycle).
    apply IH. lia.
Qed.

(** In float64 the iterates of [policy_evaluation] can come back to an
    array they have already visited without passing the test on the way;
    the loop then never ends, whatever [gamma] is: more sweeps never make
    the call return. *)
Theorem f64_policy_evaluation_cycle pi mdp gamma theta k p a :
  Float64.pe_rounds pi mdp gamma theta k (size mdp)
                    (Float64.np_zeros (size mdp)) = Some a ->
  Float64.pe_rounds pi mdp gamma theta (S p) (size mdp) a = Some a ->
  forall fuel, Float64.policy_evaluation pi mdp gamma theta fuel = OutOfFuel.
Proof.
  intros Hreach Hcycle fuel. unfold Float64.policy_evaluation.
  destruct (decide (fuel <= k)%nat) as [Hle|Hgt].
  - by eapply f64_pe_rounds_short.
  - replace fuel with (k + (fuel - k))%nat by lia.
    rewrite (f64_pe_rounds_loop _ _ _ _ _ _ _ _ _ Hreach).
    by eapply f64_pe_loop_cycle.
Qed.

(** With [gamma = 0.5] and the default [theta], on two states that lead to
    each other: after 54 sweeps the values alternate between two arrays
    that differ by about [9.3e-10]. *)
Lemma f64_policy_evaluation_cycle_witness :
  Float64.pe_rounds Float64.two_state_policy Float64.two_state_mdp
                    0x1p-1 Float64.theta_default 54
                    (size Float64.two_state_mdp)
                    (Float64.np_zeros (size Float64.two_state_mdp))
  = Some [0x1.89d37aaaaaaaap21; -0x1.f7cb0d5555555p22]%float /\
  Float64.pe_rounds Float64.two_state_policy Float64.two_state_mdp
                    0x1p-1 Float64.theta_default 2
                    (size Float64.two_state_mdp)
                    [0x1.89d37aaaaaaaap21; -0x1.f7cb0d5555555p22]%float
  = Some [0x1.89d37aaaaaaaap21; -0x1.f7cb0d5555555p22]%float /\
  forall fuel,
    Float64.policy_evaluation Float64.two_state_policy Float64.two_state_mdp
                              0x1p-1 Float64.theta_default fuel = OutOfFuel.
Proof.
  split; [vm_compute; reflexivity|]. split; [vm_compute; reflexivity|].
  apply (f64_policy_evaluation_cycle Float64.two_state_policy
           Float64.two_state_mdp 0x1p-1 Float64.theta_default 54 1
           [0x1.89d37aaaaaaaap21; -0x1.f7cb0d5555555p22]%float).
  - vm_compute; reflexivity.
  - vm_compute; reflexivity.
Defined.

(** ** The walk of the notebook, in float64 *)

Lemma f64_scenario_ok_spec r :
  Float64.scenario_ok r = true ->
  exists V, r = Ok (sbw_optimal_policy, V) /\
            Float64.within V Float64.sbw_expected_values Float64.tolerance.
Proof.
  destruct r as [[pi V]|e|]; simpl; try done.
  intros [[Hpi Hlen]%andb_prop Hall]%andb_prop.
  apply bool_decide_eq_true in Hpi as ->.
  apply bool_decide_eq_true in Hlen.
  exists V. split; [done|]. split; [done|].
  intros j v w Hv Hw. rewrite forallb_forall in Hall.
  apply (Hall (v, w)), list_elem_of_In, list_elem_of_lookup.
  exists j. by rewrite lookup_zip_with, Hv; simpl; rewrite Hw.
Qed.

Lemma f64_sbw_policy_iteration_draws gamma theta fuel rng :
  exists draws,
    draws ∈ all_draws 2 5 /\
    Float64.policy_iteration Float64.slippery_bandit_walk gamma theta fuel rng
    = Float64.pi_loop Float64.slippery_bandit_walk gamma theta fuel fuel 5
                      (dict_of_pairs (enumerate draws)).
Proof.
  exists ((fun i => rng i mod 2)%nat <$> seq 0 5). split.
  - apply all_draws_complete; [done|].
    apply Forall_fmap, Forall_forall. intros i _.
    by apply (Nat.mod_upper_bound (rng i) 2).
  - reflexivity.
Qed.

Lemma f64_sbw_policy_iteration_all_draws :
  forallb (fun draws =>
             Float64.scenario_ok
               (Float64.pi_loop Float64.slippery_bandit_walk 1
                                Float64.theta_default 200 200 5
                                (dict_of_pairs (enumerate draws))))
          (all_draws 2 5) = true.
Proof. vm_compute. reflexivity. Qed.

(** The scenario of the notebook as the float64 program runs it.  On the
    Slippery Bandit Walk with [gamma = 1] and [theta = 1e-10],
    [value_iteration] returns within 200 sweeps, and [policy_iteration]
    returns within 200 rounds of at most 200 sweeps each for every random
    generator, that is for each of the 32 initial policies.  Both return
    the policy [{0:0, 1:1, 2:1, 3:1, 4:0}] and a value function within
    [5e-5] of [[0, 0.7529, 0.9412, 0.9882, 0]] in every state. *)
Theorem f64_slippery_bandit_walk_scenario :
  (exists V,
     Float64.value_iteration Float64.slippery_bandit_walk 1
                             Float64.theta_default 200
     = Ok (sbw_optimal_policy, V) /\
     Float64.within V Float64.sbw_expected_values Float64.tolerance) /\
  (forall rng,
     exists V,
       Float64.policy_iteration Float64.slippery_bandit_walk 1
                                Float64.theta_default 200 rng
       = Ok (sbw_optimal_policy, V) /\
       Float64.within V Float64.sbw_expected_values Float64.tolerance).
Proof.
  split.
  - apply f64_scenario_ok_spec. vm_compute. reflexivity.
  - intros rng.
    destruct (f64_sbw_policy_iteration_draws 1 Float64.theta_default 200 rng)
      as (draws & Hin & ->).
    pose proof f64_sbw_policy_iteration_all_draws as Hall.
    rewrite forallb_forall in Hall.
    apply list_elem_of_In, Hall in Hin.
    by apply f64_scenario_ok_spec.
Qed.

(** ** A threshold that is not positive *)

Lemma f64_abs_not_below x theta :
  (0 <? theta)%float = false -> (abs x <? theta)%float = false.
Proof.
  rewrite !ltb_spec, abs_spec.
  change (Prim2SF 0) with (S754_zero false).
  destruct (Prim2SF theta) as [[]|[]| |[] m e];
    destruct (Prim2SF x) as [[]|[]| |[] m' e']; done.
Qed.

Lemma f64_delta_not_below (V W : list float) delta theta :
  Float64.np_max (Float64.np_absolute (Float64.np_sub V W)) = Ok delta ->
  (0 <? theta)%float = false -> (delta <? theta)%float = false.
Proof.
  intros [Hin _]%f64_np_max_spec Htheta.
  unfold Float64.np_absolute in Hin.
  apply list_elem_of_fmap in Hin as (y & -> & _).
  by apply f64_abs_not_below.
Qed.

Lemma f64_policy_evaluation_needs_positive_theta pi mdp gamma theta fuel V :
  (0 <? theta)%float = false ->
  Float64.policy_evaluation pi mdp gamma theta fuel <> Ok V.
Proof.
  intros Htheta (prev & delta & _ & Hmax & Hlt & _)%f64_pe_loop_Ok.
  by rewrite (f64_delta_not_below _ _ _ _ Hmax Htheta) in Hlt.
Qed.

Lemma f64_pi_loop_needs_positive_theta mdp gamma theta fuel_pe state_space :
  (0 <? theta)%float = false ->
  forall fuel current_policy r,
    Float64.pi_loop mdp gamma theta fuel fuel_pe state_space current_policy
    <> Ok r.
Proof.
  intros Htheta fuel. induction fuel as [|fuel IH]; intros cur r; [done|].
  simpl.
  destruct (Float64.policy_evaluation cur mdp gamma theta fuel_pe)
    as [V|e|] eqn:Hpe; simpl; try done.
  by apply f64_policy_evaluation_needs_positive_theta in Hpe.
Qed.

(** In float64, when [0 < theta] does not hold (a [theta] that is zero,
    negative or NaN), none of [policy_evaluation], [policy_iteration] and
    [value_iteration] ever returns, on any input: the convergence test
    compares a maximum of absolute values with [theta] by a strict [<]. *)
Theorem f64_theta_not_positive_never_returns theta :
  (0 <? theta)%float = false ->
  (forall pi mdp gamma fuel V,
     Float64.policy_evaluation pi mdp gamma theta fuel <> Ok V) /\
  (forall mdp gamma fuel rng r,
     Float64.policy_iteration mdp gamma theta fuel rng <> Ok r) /\
  (forall mdp gamma fuel r,
     Float64.value_iteration mdp gamma theta fuel <> Ok r).
Proof.
  intros Htheta. split; [|split].
  - intros pi mdp gamma fuel V.
    by apply f64_policy_evaluation_needs_positive_theta.
  - intros mdp gamma fuel rng r. unfold Float64.policy_iteration.
    destruct (dict_getitem mdp 0%nat) as [acts0|e|]; simpl; try done.
    destruct (randint rng (size acts0) (size mdp)) as [draws|e|];
      simpl; try done.
    by apply f64_pi_loop_needs_positive_theta.
  - intros mdp gamma fuel r. unfold Float64.value_iteration.
    destruct (dict_getitem mdp 0%nat) as [acts0|e|]; simpl; try done.
    destruct (Float64.vi_loop _ _ _ _ _ _ _) as [[Q V]|e|] eqn:Hloop;
      simpl; try done.
    apply f64_vi_loop_Ok in Hloop
      as (_ & best & delta & _ & _ & Hmax & Hlt); [|apply length_replicate].
    by rewrite (f64_delta_not_below _ _ _ _ Hmax Htheta) in Hlt.
Qed.

Lemma f64_theta_not_positive_never_returns_witness :
  (forall pi mdp gamma fuel V,
     Float64.policy_evaluation pi mdp gamma nan fuel <> Ok V) /\
  (forall mdp gamma fuel rng r,
     Float64.policy_iteration mdp gamma nan fuel rng <> Ok r) /\
  (forall mdp gamma fuel r,
     Float64.value_iteration mdp gamma nan fuel <> Ok r).
Proof.
  apply (f64_theta_not_positive_never_returns nan). reflexivity.
Defined.
